(** * TripletExtractor: a shallow embedding of [app.py] and its properties

    The development follows the data flow of the program:
    paragraphs -> raw blocks -> articles -> raw triplets -> capped triplets
    and reports.  Python [str] values are sequences of Unicode code points;
    the character tables of the Python runtime (whitespace, alphanumerics,
    case-insensitive literal comparison) are an interface, [Unicode], whose
    laws fix its behaviour on ASCII. *)

From Stdlib Require Import List Bool Arith NArith ZArith Lia.
From Stdlib Require Import Permutation Sorted.
From Stdlib Require String Ascii DecimalString.
Import ListNotations String.StringSyntax.
Local Open Scope string_scope.
Local Open Scope list_scope.
Local Open Scope nat_scope.

(** ** Strings as sequences of code points *)

Definition char := N.
Definition str := list char.

Fixpoint utf8_decode (bs : list N) : str :=
  match bs with
  | [] => []
  | b0 :: r0 =>
    if (b0 <? 128)%N then b0 :: utf8_decode r0
    else if (b0 <? 224)%N then
      match r0 with
      | b1 :: r1 => ((b0 - 192) * 64 + (b1 - 128))%N :: utf8_decode r1
      | _ => []
      end
    else if (b0 <? 240)%N then
      match r0 with
      | b1 :: b2 :: r2 =>
        ((b0 - 224) * 4096 + (b1 - 128) * 64 + (b2 - 128))%N :: utf8_decode r2
      | _ => []
      end
    else
      match r0 with
      | b1 :: b2 :: b3 :: r3 =>
        ((b0 - 240) * 262144 + (b1 - 128) * 4096 + (b2 - 128) * 64 + (b3 - 128))%N
          :: utf8_decode r3
      | _ => []
      end
  end.

(** A source-level string literal, read as UTF-8. *)
Definition ustr (s : String.string) : str :=
  utf8_decode (map Ascii.N_of_ascii (String.list_ascii_of_string s)).

Fixpoint str_eqb (a b : str) : bool :=
  match a, b with
  | [], [] => true
  | x :: a', y :: b' => (x =? y)%N && str_eqb a' b'
  | _, _ => false
  end.

(** [s.startswith(p)] *)
Fixpoint startswith (p s : str) : bool :=
  match p, s with
  | [], _ => true
  | x :: p', y :: s' => (x =? y)%N && startswith p' s'
  | _ :: _, [] => false
  end.

(** [s.endswith(p)] *)
Definition endswith (s p : str) : bool :=
  (length p <=? length s) && str_eqb (skipn (length s - length p) s) p.

(** [p in s] for strings: some suffix of [s] starts with [p]. *)
Fixpoint contains (p s : str) : bool :=
  startswith p s || match s with [] => false | _ :: s' => contains p s' end.

(** [not s] / [if s:] for a string. *)
Definition nonempty {A} (l : list A) : bool :=
  match l with [] => false | _ :: _ => true end.

(** ** The character tables of the runtime *)

Definition is_ascii (c : char) : bool := (c <? 128)%N.

Definition ascii_isspace (c : char) : bool :=
  ((9 <=? c) && (c <=? 13) || (28 <=? c) && (c <=? 32))%N.

Definition ascii_isalnum (c : char) : bool :=
  ((48 <=? c) && (c <=? 57) || (65 <=? c) && (c <=? 90) || (97 <=? c) && (c <=? 122))%N.

Definition ascii_lower (c : char) : char :=
  if ((65 <=? c) && (c <=? 90))%N then (c + 32)%N else c.

(** [isspace] is [str.isspace] on one character (used by [strip] and by the
    pattern class [\s]); [isalnum] is the alphanumeric test behind [\w];
    [lit_ignorecase a c] tells whether the pattern literal [a], compiled
    with [re.IGNORECASE], matches the text character [c].  The laws are
    those of CPython: on ASCII the tables are the ASCII ones, and a literal
    matches itself (a cased literal is compared through lower-casing, an
    uncased one exactly). *)
Class Unicode := {
  isspace : char -> bool;
  isalnum : char -> bool;
  lit_ignorecase : char -> char -> bool;
  isspace_ascii : forall c, is_ascii c = true -> isspace c = ascii_isspace c;
  isalnum_ascii : forall c, is_ascii c = true -> isalnum c = ascii_isalnum c;
  lit_ignorecase_ascii : forall a c, is_ascii a = true -> is_ascii c = true ->
    lit_ignorecase a c = (ascii_lower a =? ascii_lower c)%N;
  lit_ignorecase_refl : forall c, lit_ignorecase c c = true
}.

(** The tables restricted to ASCII: every character above 127 is caseless,
    not a space and not alphanumeric. *)
#[refine] Instance ascii_tables : Unicode := {|
  isspace := fun c => is_ascii c && ascii_isspace c;
  isalnum := fun c => is_ascii c && ascii_isalnum c;
  lit_ignorecase := fun a c =>
    if is_ascii a && is_ascii c then (ascii_lower a =? ascii_lower c)%N
    else (a =? c)%N
|}.
Proof.
  - intros c ->; reflexivity.
  - intros c ->; reflexivity.
  - intros a c -> ->; reflexivity.
  - intros c. destruct (is_ascii c); simpl; apply N.eqb_refl.
Defined.

Section Strip.
Context {U : Unicode}.

Fixpoint lstrip (s : str) : str :=
  match s with
  | [] => []
  | c :: s' => if isspace c then lstrip s' else s
  end.

Definition rstrip (s : str) : str := rev (lstrip (rev s)).

(** [s.strip()] *)
Definition strip (s : str) : str := rstrip (lstrip s).
End Strip.

(** ** Exceptions *)

Inductive exn := IndexError | ReError.

Inductive result (A : Type) :=
| Ok (a : A)
| Raise (e : exn).
Arguments Ok {A} a.
Arguments Raise {A} e.

Definition bind {A B} (r : result A) (f : A -> result B) : result B :=
  match r with Ok a => f a | Raise e => Raise e end.

Notation "x <- r ;; k" := (bind r (fun x => k))
  (at level 61, r at next level, right associativity).

(** ** extract_articles_from_docx *)

Definition marker : str := ustr "À savoir également dans votre département".

Record article := {
  narrative_paragraph : str;
  transitions_list : list str
}.

Section Articles.
Context {U : Unicode}.

(** The state of the paragraph loop: [all_raw_blocks] and
    [current_block_content]. *)
Definition seg_state := (list (list str) * list str)%type.

(** One iteration of [for para in doc.paragraphs]. *)
Definition seg_step (st : seg_state) (para : str) : seg_state :=
  let '(all_raw_blocks, current_block_content) := st in
  let text := strip para in
  if contains marker text then
    (if nonempty current_block_content
     then all_raw_blocks ++ [current_block_content]
     else all_raw_blocks,
     [])
  else if nonempty text then
    (all_raw_blocks, current_block_content ++ [text])
  else st.

Definition seg_loop (paragraphs : list str) : seg_state :=
  fold_left seg_step paragraphs ([], []).

(** The flush after the loop. *)
Definition seg_finish (st : seg_state) : list (list str) :=
  let '(all_raw_blocks, current_block_content) := st in
  if nonempty current_block_content
  then all_raw_blocks ++ [current_block_content]
  else all_raw_blocks.

Definition raw_blocks (paragraphs : list str) : list (list str) :=
  seg_finish (seg_loop paragraphs).

(** The body of [for block in all_raw_blocks[1:]]; [None] is [continue]. *)
Definition parse_block (block : list str) : result (option article) :=
  if length block <? 2 then Ok None
  else match nth_error block 0 with
       | None => Raise IndexError
       | Some narrative =>
         let transitions_list_candidates := skipn 1 block in
         Ok (Some {| narrative_paragraph := narrative;
                     transitions_list :=
                       map strip (filter (fun t => nonempty (strip t))
                                         transitions_list_candidates) |})
       end.

Fixpoint parse_loop (blocks : list (list str)) (parsed_articles : list article)
  : result (list article) :=
  match blocks with
  | [] => Ok parsed_articles
  | block :: rest =>
    a <- parse_block block ;;
    parse_loop rest (match a with
                     | None => parsed_articles
                     | Some art => parsed_articles ++ [art]
                     end)
  end.

Definition parse_articles (all_raw_blocks : list (list str)) : result (list article) :=
  if length all_raw_blocks <? 2 then Ok []
  else parse_loop (skipn 1 all_raw_blocks) [].

(** [doc] is [None] when the document cannot be loaded. *)
Definition extract_articles_from_docx (doc : option (list str)) : result (list article) :=
  match doc with
  | None => Ok []
  | Some paragraphs => parse_articles (raw_blocks paragraphs)
  end.
End Articles.


(** ** The pattern built for one transition *)

(** The characters [re.escape] puts a backslash before. *)
Definition special_chars : str :=
  ustr "()[]{}?*+-|^$\.&~# " ++ [9; 10; 13; 11; 12]%N.

Definition re_special (c : char) : bool := existsb (N.eqb c) special_chars.

Definition backslash : char := 92%N.

(** [re.escape(s)] *)
Definition re_escape (s : str) : str :=
  flat_map (fun c => if re_special c then [backslash; c] else [c]) s.

(** [s.replace(old, new)] for a non-empty [old]: occurrences are replaced
    from left to right and do not overlap; [skip] counts the characters of
    the occurrence just replaced that are still to be passed over. *)
Fixpoint replace_from (old new : str) (skip : nat) (s : str) : str :=
  match s with
  | [] => []
  | c :: s' =>
    match skip with
    | S k => replace_from old new k s'
    | O => if startswith old s
           then new ++ replace_from old new (length old - 1) s'
           else c :: replace_from old new 0 s'
    end
  end.

Definition str_replace (s old new : str) : str :=
  match old with
  | [] => new ++ flat_map (fun c => c :: new) s
  | _ :: _ => replace_from old new 0 s
  end.

Definition placeholder : str := ustr "[XXX]".
Definition que : str := ustr " que".
Definition elision_group : str := ustr "(?:\sque|\squ\'\w*)".

(** Lines 109-126: the pattern string of [transition_from_list]. *)
Definition pattern_str (transition_from_list : str) : str :=
  let pattern_str := re_escape transition_from_list in
  let pattern_str := str_replace pattern_str (re_escape placeholder) (ustr "[^,]*") in
  if endswith pattern_str (re_escape que)
  then firstn (length pattern_str - length (re_escape que)) pattern_str ++ elision_group
  else pattern_str.

(** ** The fragment of [re] the patterns live in *)

(** What one pattern position accepts. *)
Inductive cclass :=
| CLit (a : char)      (* a literal, compared under IGNORECASE *)
| CNot (a : char)      (* [^a] *)
| CSpace               (* \s *)
| CWord.               (* \w *)

Inductive atom :=
| AChar (k : cclass)   (* exactly one character *)
| AStar (k : cclass).  (* k*, greedy *)

Inductive item :=
| IAtom (a : atom)
| IGroup (alts : list (list atom)).   (* (?:alt|alt|...) *)

Definition regex := list item.

Inductive token :=
| TChar (k : cclass)
| TStar
| TOpen     (* (?: *)
| TBar
| TClose.

(** Characters with a meaning of their own in a pattern. *)
Definition re_meta (c : char) : bool := existsb (N.eqb c) (ustr ".^$*+?{}[]\|()").

(** The token for a backslash followed by [e]: the classes [\s] and [\w],
    or the literal [e] when [e] is no ASCII letter or digit; the other
    escapes are outside the fragment. *)
Definition escape_token (e : char) : option token :=
  if (e =? 115)%N then Some (TChar CSpace)
  else if (e =? 119)%N then Some (TChar CWord)
  else if is_ascii e && ascii_isalnum e then None
  else Some (TChar (CLit e)).

Definition opt_cons {A} (x : A) (o : option (list A)) : option (list A) :=
  match o with Some l => Some (x :: l) | None => None end.

Fixpoint tokenize (s : str) : option (list token) :=
  match s with
  | [] => Some []
  | c :: s1 =>
    if (c =? backslash)%N then
      match s1 with
      | e :: s2 =>
        match escape_token e with
        | Some t => opt_cons t (tokenize s2)
        | None => None
        end
      | [] => None
      end
    else if (c =? 91)%N then                      (* [^x] *)
      match s1 with
      | n :: x :: r :: s4 =>
        if (n =? 94)%N && (r =? 93)%N
           && is_ascii x && negb (ascii_isalnum x) && negb (re_special x)
        then opt_cons (TChar (CNot x)) (tokenize s4)
        else None
      | _ => None
      end
    else if (c =? 40)%N then                      (* (?: *)
      match s1 with
      | q :: col :: s3 =>
        if (q =? 63)%N && (col =? 58)%N then opt_cons TOpen (tokenize s3) else None
      | _ => None
      end
    else if (c =? 42)%N then opt_cons TStar (tokenize s1)
    else if (c =? 124)%N then opt_cons TBar (tokenize s1)
    else if (c =? 41)%N then opt_cons TClose (tokenize s1)
    else if re_meta c then None
    else opt_cons (TChar (CLit c)) (tokenize s1)
  end.

(** [ctx] is [None] at top level and, inside a group, the alternatives
    already closed and the one being read. *)
Fixpoint parse (ts : list token) (ctx : option (list (list atom) * list atom))
  : option regex :=
  let push a ts' :=
    match ctx with
    | None => opt_cons (IAtom a) (parse ts' None)
    | Some (alts, cur) => parse ts' (Some (alts, cur ++ [a]))
    end in
  match ts with
  | [] => match ctx with None => Some [] | Some _ => None end
  | TChar k :: TStar :: ts' => push (AStar k) ts'
  | TChar k :: ts' => push (AChar k) ts'
  | TStar :: _ => None
  | TOpen :: ts' =>
    match ctx with None => parse ts' (Some ([], [])) | Some _ => None end
  | TBar :: ts' =>
    match ctx with
    | Some (alts, cur) => parse ts' (Some (alts ++ [cur], []))
    | None => None
    end
  | TClose :: ts' =>
    match ctx with
    | Some (alts, cur) => opt_cons (IGroup (alts ++ [cur])) (parse ts' None)
    | None => None
    end
  end.

(** [re.compile(pattern, re.IGNORECASE)] on the fragment; [None] stands for
    [re.error] and for patterns outside the fragment. *)
Definition re_compile (pattern : str) : option regex :=
  match tokenize pattern with
  | Some ts => parse ts None
  | None => None
  end.

(** ** Matching: the backtracking search of [re] *)

Section Matching.
Context {U : Unicode}.

Definition class_matches (k : cclass) (c : char) : bool :=
  match k with
  | CLit a => lit_ignorecase a c
  | CNot a => negb (c =? a)%N
  | CSpace => isspace c
  | CWord => isalnum c || (c =? 95)%N
  end.

(** [cont] is the rest of the match; it gets the text left over. *)
Fixpoint match_star (k : cclass) (s : str) (cont : str -> option str) : option str :=
  match s with
  | c :: s' =>
    if class_matches k c then
      match match_star k s' cont with
      | Some r => Some r
      | None => cont s
      end
    else cont s
  | [] => cont []
  end.

Definition match_atom (a : atom) (s : str) (cont : str -> option str) : option str :=
  match a with
  | AChar k =>
    match s with
    | c :: s' => if class_matches k c then cont s' else None
    | [] => None
    end
  | AStar k => match_star k s cont
  end.

Fixpoint match_atoms (l : list atom) (s : str) (cont : str -> option str) : option str :=
  match l with
  | [] => cont s
  | a :: l' => match_atom a s (fun s' => match_atoms l' s' cont)
  end.

Fixpoint match_alts (alts : list (list atom)) (s : str) (cont : str -> option str)
  : option str :=
  match alts with
  | [] => None
  | alt :: alts' =>
    match match_atoms alt s cont with
    | Some r => Some r
    | None => match_alts alts' s cont
    end
  end.

Fixpoint match_items (r : regex) (s : str) (cont : str -> option str) : option str :=
  match r with
  | [] => cont s
  | IAtom a :: r' => match_atom a s (fun s' => match_items r' s' cont)
  | IGroup alts :: r' => match_alts alts s (fun s' => match_items r' s' cont)
  end.

(** A match starting at the head of [s]; the result is the text after it.
    With [must_advance] an empty match is refused. *)
Definition match_at (r : regex) (s : str) (must_advance : bool) : option str :=
  match_items r s (fun rest =>
    if must_advance && (length rest =? length s) then None else Some rest).

(** [re.fullmatch]: the whole of [s] is one match. *)
Definition fullmatch (r : regex) (s : str) : bool :=
  match match_items r s (fun rest => if nonempty rest then None else Some rest) with
  | Some _ => true
  | None => false
  end.

(** The matches that start at position [pos], where [s] is the text from
    [pos] on, and the length of the last of them: none; one; or an empty
    one followed by the retry that has to advance. *)
Definition matches_here (r : regex) (s : str) (pos : nat) : list (nat * nat) * nat :=
  match match_at r s false with
  | None => ([], 0)
  | Some rest =>
    let n := length s - length rest in
    if n =? 0 then
      match match_at r s true with
      | None => ([(pos, pos)], 0)
      | Some rest2 =>
        let n2 := length s - length rest2 in
        ([(pos, pos); (pos, pos + n2)], n2)
      end
    else ([(pos, pos + n)], n)
  end.

(** The scan of [finditer]: [skip] characters still belong to the last
    match; the next attempt is made right after it. *)
Fixpoint scan (r : regex) (s : str) (pos skip : nat) : list (nat * nat) :=
  match skip with
  | S k =>
    match s with
    | [] => []
    | _ :: s' => scan r s' (S pos) k
    end
  | O =>
    let '(spans, n) := matches_here r s pos in
    spans ++ match s with
             | [] => []
             | _ :: s' => scan r s' (S pos) (n - 1)
             end
  end.

(** [[m.span() for m in compiled.finditer(text)]] *)
Definition finditer (r : regex) (text : str) : list (nat * nat) := scan r text 0 0.
End Matching.

(** ** extract_all_raw_triplets *)

Record triplet := {
  paragraph_a : str;
  transition : str;
  paragraph_b : str
}.

Section Triplets.
Context {U : Unicode}.

(** The triplet of one match (lines 135-153). *)
Definition triplet_of_match (narrative_paragraph transition_from_list : str)
           (span : nat * nat) : triplet :=
  let '(start, end_) := span in
  {| paragraph_a := strip (firstn start narrative_paragraph);
     transition := transition_from_list;
     paragraph_b := strip (skipn end_ narrative_paragraph) |}.

(** One iteration of [for transition_from_list in transitions_list]. *)
Definition triplets_of_transition (narrative_paragraph transition_from_list : str)
  : result (list triplet) :=
  if negb (nonempty transition_from_list) then Ok []
  else match re_compile (pattern_str transition_from_list) with
       | None => Raise ReError
       | Some compiled_pattern =>
         Ok (map (triplet_of_match narrative_paragraph transition_from_list)
                 (finditer compiled_pattern narrative_paragraph))
       end.

Fixpoint triplets_loop (narrative_paragraph : str) (transitions : list str)
         (raw_triplets : list triplet) : result (list triplet) :=
  match transitions with
  | [] => Ok raw_triplets
  | transition_from_list :: rest =>
    found <- triplets_of_transition narrative_paragraph transition_from_list ;;
    triplets_loop narrative_paragraph rest (raw_triplets ++ found)
  end.

Definition extract_all_raw_triplets (narrative_paragraph : str)
           (transitions_list : list str) : result (list triplet) :=
  triplets_loop narrative_paragraph transitions_list [].
End Triplets.

(** ** Python dictionaries with string keys

    A [dict] keeps its keys in insertion order; assigning to a key that is
    present keeps the key's place. *)

Module PyDict.
Definition t (V : Type) := list (str * V).

Section Ops.
Context {V : Type}.

Fixpoint get (d : t V) (k : str) : option V :=
  match d with
  | [] => None
  | (k', v) :: d' => if str_eqb k' k then Some v else get d' k
  end.

(** [d[k] = v] *)
Fixpoint set (d : t V) (k : str) (v : V) : t V :=
  match d with
  | [] => [(k, v)]
  | (k', v') :: d' =>
    if str_eqb k' k then (k', v) :: d' else (k', v') :: set d' k v
  end.

(** [d[k]] on a [defaultdict]: a missing key is first inserted with the
    default value. *)
Definition getitem (dflt : V) (d : t V) (k : str) : V * t V :=
  match get d k with
  | Some v => (v, d)
  | None => (dflt, set d k dflt)
  end.

Definition keys (d : t V) : list str := map fst d.
End Ops.
End PyDict.

(** ** generate_output_files *)

(** [str(n)] for an integer. *)
Definition str_of_int (z : Z) : str :=
  ustr (DecimalString.NilZero.string_of_int (Z.to_int z)).

(** The state of the capping loop (lines 186-195). *)
Record cap_state := {
  final_triplets : list triplet;
  transition_usage_tracker : PyDict.t Z;
  duplicates_tracker : PyDict.t (list triplet)
}.

Definition cap_init : cap_state :=
  {| final_triplets := []; transition_usage_tracker := []; duplicates_tracker := [] |}.

(** One iteration of [for triplet in all_raw_triplets]. *)
Definition cap_step (max_uses_per_transition : Z) (st : cap_state) (tr : triplet)
  : cap_state :=
  let '(used, tracker) :=
    PyDict.getitem 0%Z st.(transition_usage_tracker) tr.(transition) in
  if (used <? max_uses_per_transition)%Z then
    {| final_triplets := st.(final_triplets) ++ [tr];
       transition_usage_tracker := PyDict.set tracker tr.(transition) (used + 1)%Z;
       duplicates_tracker := st.(duplicates_tracker) |}
  else
    let '(dups, dtracker) :=
      PyDict.getitem [] st.(duplicates_tracker) tr.(transition) in
    {| final_triplets := st.(final_triplets);
       transition_usage_tracker := tracker;
       duplicates_tracker := PyDict.set dtracker tr.(transition) (dups ++ [tr]) |}.

Definition cap_loop (max_uses_per_transition : Z) (all_raw_triplets : list triplet)
  : cap_state :=
  fold_left (cap_step max_uses_per_transition) all_raw_triplets cap_init.

(** Lines 205-209.  The tracker is read for keys of [duplicates_tracker]
    only, which it holds already. *)
Definition rejected_line (tracker : PyDict.t Z) (entry : str * list triplet) : list str :=
  let '(transition, duplicates) := entry in
  if nonempty duplicates then
    let actual_total_count :=
      (fst (PyDict.getitem 0%Z tracker transition) + Z.of_nat (length duplicates))%Z in
    [ ustr "Transition: '" ++ transition ++ ustr "' used "
      ++ str_of_int actual_total_count ++ ustr " times (exceeded by "
      ++ str_of_int (Z.of_nat (length duplicates)) ++ ustr ")" ]
  else [].

Definition rejected_fewshots_content (st : cap_state) : list str :=
  flat_map (rejected_line st.(transition_usage_tracker)) st.(duplicates_tracker).

(** Lexicographic order of code points, the order of [sorted] on strings. *)
Fixpoint str_leb (a b : str) : bool :=
  match a, b with
  | [], _ => true
  | _ :: _, [] => false
  | x :: a', y :: b' =>
    if (x <? y)%N then true else if (y <? x)%N then false else str_leb a' b'
  end.

Fixpoint insert_sorted (x : str) (l : list str) : list str :=
  match l with
  | [] => [x]
  | y :: l' => if str_leb x y then x :: l else y :: insert_sorted x l'
  end.

(** [sorted(l)] *)
Definition sorted (l : list str) : list str := fold_right insert_sorted [] l.

(** [list(set(xs))]: the elements of [xs] once each, in an order that the
    program does not control. *)
Class SetOrder := {
  list_of_set : list str -> list str;
  list_of_set_NoDup : forall xs, NoDup (list_of_set xs);
  list_of_set_In : forall xs x, In x (list_of_set xs) <-> In x xs
}.

(** Line 219. *)
Definition unique_transitions {S : SetOrder} (final : list triplet) : list str :=
  sorted (list_of_set (map transition final)).

(** Lines 228-230: [all_found_transitions_counts]. *)
Definition count_step (counts : PyDict.t Z) (tr : triplet) : PyDict.t Z :=
  let '(n, counts') := PyDict.getitem 0%Z counts tr.(transition) in
  PyDict.set counts' tr.(transition) (n + 1)%Z.

Definition all_found_transitions_counts (all_raw_triplets : list triplet) : PyDict.t Z :=
  fold_left count_step all_raw_triplets [].

(** Lines 232-234. *)
Definition rejected_transitions_only_content (all_raw_triplets : list triplet)
  : list str :=
  flat_map (fun '(transition, count) =>
              if (1 <? count)%Z
              then [ ustr "Transition: '" ++ transition ++ ustr "' used "
                     ++ str_of_int count ++ ustr " times" ]
              else [])
           (all_found_transitions_counts all_raw_triplets).

(** The user and assistant contents of one fine-tuning entry. *)
Definition jsonl_entry (tr : triplet) : str * str :=
  (tr.(paragraph_a) ++ ustr " ... " ++ tr.(paragraph_b), tr.(transition)).

(** Lines 258-268. *)
Definition rejected_finetuning_content (st : cap_state) : list (str * str) :=
  flat_map (fun '(_, duplicates) => map jsonl_entry duplicates) st.(duplicates_tracker).

(** What a written file holds; the JSON encoding itself is not modelled. *)
Inductive file_content :=
| JsonTriplets (l : list triplet)     (* json.dump of a list of triplets *)
| JsonEntries (l : list (str * str))  (* one json.dumps entry per line *)
| Text (s : str).

(** ["\n".join(lines)] *)
Fixpoint join_nl (lines : list str) : str :=
  match lines with
  | [] => []
  | [l] => l
  | l :: ls => l ++ 10%N :: join_nl ls
  end.

Record output := {
  generated_files_info : PyDict.t nat;
  returned_triplets : list triplet;
  written_files : PyDict.t file_content
}.

Definition selected (selected_outputs : list str) (name : String.string) : bool :=
  existsb (str_eqb (ustr name)) selected_outputs.

(** A file is written and counted when [cond] holds. *)
Definition write_if (cond : bool) (name : String.string) (content : file_content)
           (entries : nat) (acc : PyDict.t nat * PyDict.t file_content)
  : PyDict.t nat * PyDict.t file_content :=
  if cond
  then (PyDict.set (fst acc) (ustr name) entries, PyDict.set (snd acc) (ustr name) content)
  else acc.

Definition generate_output_files {S : SetOrder} (all_raw_triplets : list triplet)
           (selected_outputs : list str) (max_uses_per_transition : Z) : output :=
  let st := cap_loop max_uses_per_transition all_raw_triplets in
  let final := st.(final_triplets) in
  let rejected := rejected_fewshots_content st in
  let uniq := unique_transitions final in
  let rejected_only := rejected_transitions_only_content all_raw_triplets in
  let rejected_ft := rejected_finetuning_content st in
  let acc := ([], []) in
  let acc := write_if (selected selected_outputs "fewshot_examples.json")
                      "fewshot_examples.json" (JsonTriplets final) (length final) acc in
  let acc := write_if (selected selected_outputs "fewshots_rejected.txt" && nonempty rejected)
                      "fewshots_rejected.txt" (Text (join_nl rejected)) (length rejected) acc in
  let acc := write_if (selected selected_outputs "transitions_only.txt")
                      "transitions_only.txt"
                      (Text (flat_map (fun t => t ++ [10%N]) uniq)) (length uniq) acc in
  let acc := write_if (selected selected_outputs "transitions_only_rejected.txt"
                       && nonempty rejected_only)
                      "transitions_only_rejected.txt" (Text (join_nl rejected_only))
                      (length rejected_only) acc in
  let acc := write_if (selected selected_outputs "fewshot_examples.jsonl")
                      "fewshot_examples.jsonl" (JsonEntries (map jsonl_entry final))
                      (length final) acc in
  let acc := write_if (selected selected_outputs "fewshots-fineTuning_rejected.txt"
                       && nonempty rejected_ft)
                      "fewshots-fineTuning_rejected.txt" (JsonEntries rejected_ft)
                      (length rejected_ft) acc in
  {| generated_files_info := fst acc;
     returned_triplets := final;
     written_files := snd acc |}.

(** ** simulate_streamlit_app_logic *)

Section Pipeline.
Context {U : Unicode} {S : SetOrder}.

(** Lines 300-306. *)
Fixpoint collect_raw_triplets (articles : list article) (all_raw_triplets : list triplet)
  : result (list triplet) :=
  match articles with
  | [] => Ok all_raw_triplets
  | art :: rest =>
    raw_triplets_for_article <-
      extract_all_raw_triplets art.(narrative_paragraph) art.(transitions_list) ;;
    collect_raw_triplets rest (all_raw_triplets ++ raw_triplets_for_article)
  end.

(** The raw triplets of a document, in extraction order. *)
Definition raw_triplets_of (doc : option (list str)) : result (list triplet) :=
  articles <- extract_articles_from_docx doc ;;
  collect_raw_triplets articles [].

(** The body of the [try] block, for any cap. *)
Definition run_pipeline (max_uses_per_transition : Z) (doc : option (list str))
           (selected_outputs : list str) : result output :=
  all_raw_triplets <- raw_triplets_of doc ;;
  Ok (generate_output_files all_raw_triplets selected_outputs max_uses_per_transition).

(** The dictionary returned to the caller. *)
Inductive results_summary :=
| Summary (generated_files : PyDict.t nat) (total_valid_examples : nat)
| ErrorSummary (e : exn).

(** [generate_output_files] is called with its default cap, 3. *)
Definition simulate_streamlit_app_logic (doc : option (list str))
           (selected_outputs : list str) : results_summary :=
  match run_pipeline 3 doc selected_outputs with
  | Ok out => Summary out.(generated_files_info) (length out.(returned_triplets))
  | Raise e => ErrorSummary e
  end.
End Pipeline.

(** ** Specification-level views of the segmenter and of the parser *)

Section ArticlesSpec.
Context {U : Unicode}.

(** A line that the segmenter keeps: non-empty and without the marker. *)
Definition kept_line (text : str) : bool :=
  negb (contains marker text) && nonempty text.

(** What the loop has built after any prefix of the document. *)
Definition seg_inv (paragraphs : list str) (st : seg_state) : Prop :=
  Forall (fun block => block <> [] /\ Forall (fun l => kept_line l = true) block) (fst st)
  /\ Forall (fun l => kept_line l = true) (snd st)
  /\ concat (fst st) ++ snd st = filter kept_line (map strip paragraphs).

(** The articles one block contributes. *)
Definition block_articles (block : list str) : list article :=
  match block with
  | narrative :: t :: rest =>
    [ {| narrative_paragraph := narrative;
         transitions_list :=
           map strip (filter (fun t => nonempty (strip t)) (t :: rest)) |} ]
  | _ => []
  end.
End ArticlesSpec.

(** ** Specification-level views of the capper *)

(** The triplets of [l] whose transition is [T], in the order of [l]. *)
Definition occurrences (T : str) (l : list triplet) : list triplet :=
  filter (fun tr => str_eqb tr.(transition) T) l.

(** [tracker[T]] read without inserting. *)
Definition usage_of (st : cap_state) (T : str) : Z :=
  match PyDict.get st.(transition_usage_tracker) T with
  | Some n => n
  | None => 0%Z
  end.

(** [duplicates[T]], empty for a transition that was never rejected. *)
Definition duplicates_of (st : cap_state) (T : str) : list triplet :=
  match PyDict.get st.(duplicates_tracker) T with
  | Some l => l
  | None => []
  end.

(** [l1] is [l2] with some elements left out. *)
Inductive subseq {A : Type} : list A -> list A -> Prop :=
| subseq_nil : subseq [] []
| subseq_skip x l1 l2 : subseq l1 l2 -> subseq l1 (x :: l2)
| subseq_take x l1 l2 : subseq l1 l2 -> subseq (x :: l1) (x :: l2).

(** The state of the capping loop once the triplets [done] are processed;
    a cap below zero accepts nothing, like the cap zero. *)
Definition cap_inv (cap : Z) (done : list triplet) (st : cap_state) : Prop :=
  let c := Z.to_nat cap in
  (forall T, occurrences T st.(final_triplets) = firstn c (occurrences T done))
  /\ (forall T, usage_of st T = Z.of_nat (Nat.min (length (occurrences T done)) c))
  /\ (forall T, PyDict.get st.(duplicates_tracker) T =
                if c <? length (occurrences T done)
                then Some (skipn c (occurrences T done)) else None)
  /\ NoDup (PyDict.keys st.(duplicates_tracker))
  /\ subseq st.(final_triplets) done.

(** The line of the cap-exceeded report for [T]. *)
Definition cap_exceeded_line (T : str) (total excess : Z) : str :=
  ustr "Transition: '" ++ T ++ ustr "' used " ++ str_of_int total
       ++ ustr " times (exceeded by " ++ str_of_int excess ++ ustr ")".

(** ** The matcher as the specification describes it *)

Definition comma : char := 44%N.

(** A transition phrase read from left to right: literal characters and
    placeholder tokens. *)
Inductive chunk :=
| Lit (c : char)
| Hole.

Fixpoint chunks_from (skip : nat) (phrase : str) : list chunk :=
  match phrase with
  | [] => []
  | c :: rest =>
    match skip with
    | S k => chunks_from k rest
    | O => if startswith placeholder phrase
           then Hole :: chunks_from (length placeholder - 1) rest
           else Lit c :: chunks_from 0 rest
    end
  end.

Definition chunks (phrase : str) : list chunk := chunks_from 0 phrase.

(** A literal is matched as itself, ignoring case; a placeholder is a
    greedy run of characters other than the comma. *)
Definition chunk_item (k : chunk) : item :=
  match k with
  | Lit c => IAtom (AChar (CLit c))
  | Hole => IAtom (AStar (CNot comma))
  end.

Definition spec_body (phrase : str) : regex := map chunk_item (chunks phrase).

(** The two endings accepted for a trailing " que": a space and "que", or a
    space, "qu'" and word characters. *)
Definition elision_alts : list (list atom) :=
  [ [AChar CSpace; AChar (CLit 113%N); AChar (CLit 117%N); AChar (CLit 101%N)];
    [AChar CSpace; AChar (CLit 113%N); AChar (CLit 117%N); AChar (CLit 39%N);
     AStar CWord] ].

Definition spec_regex (phrase : str) : regex :=
  if endswith phrase que
  then spec_body (firstn (length phrase - length que) phrase) ++ [IGroup elision_alts]
  else spec_body phrase.

(** The text of a chunk in the phrase, in the pattern, and as tokens. *)
Definition chunk_text (k : chunk) : str :=
  match k with Lit c => [c] | Hole => placeholder end.

Definition chunk_src (k : chunk) : str :=
  match k with Lit c => re_escape [c] | Hole => ustr "[^,]*" end.

Definition chunk_tokens (k : chunk) : list token :=
  match k with Lit c => [TChar (CLit c)] | Hole => [TChar (CNot comma); TStar] end.

(** The first continuation result among the texts [l], in order. *)
Fixpoint first_success (cont : str -> option str) (l : list str) : option str :=
  match l with
  | [] => None
  | s :: l' => match cont s with Some r => Some r | None => first_success cont l' end
  end.

(** The texts left after a run of [run ++ rest], the longest run first. *)
Fixpoint greedy_points (run rest : str) : list str :=
  match run with
  | [] => [rest]
  | _ :: run' => greedy_points run' rest ++ [run ++ rest]
  end.

(** [text[start:end]] *)
Definition substring (text : str) (span : nat * nat) : str :=
  firstn (snd span - fst span) (skipn (fst span) text).

(** The tokens do not start with a star. *)
Definition no_star_ahead (ts : list token) : bool :=
  match ts with TStar :: _ => false | _ => true end.

(** The continuation of a full match: nothing may be left. *)
Definition at_end (rest : str) : option str :=
  if nonempty rest then None else Some rest.

(** Whenever [cont] succeeds on a text, [cont'] succeeds on that text
    followed by [x]. *)
Definition carries (x : str) (cont cont' : str -> option str) : Prop :=
  forall s', cont s' <> None -> cont' (s' ++ x) <> None.

(** Texts, patterns and tables within ASCII. *)
Definition all_ascii (s : str) : bool := forallb is_ascii s.

Definition class_ascii (k : cclass) : bool :=
  match k with CLit a | CNot a => is_ascii a | CSpace | CWord => true end.

Definition atom_ascii (a : atom) : bool :=
  match a with AChar k | AStar k => class_ascii k end.

Definition item_ascii (it : item) : bool :=
  match it with
  | IAtom a => atom_ascii a
  | IGroup alts => forallb (forallb atom_ascii) alts
  end.

Definition regex_ascii (r : regex) : bool := forallb item_ascii r.

(** Two continuations that agree on ASCII texts. *)
Definition agree (cont1 cont2 : str -> option str) : Prop :=
  forall s', all_ascii s' = true -> cont1 s' = cont2 s'.

(** ** The triplets as the specification describes them *)

Section TripletsSpec.
Context {U : Unicode}.

(** The triplets of one transition phrase: none for the empty phrase,
    else one per match of its matcher, in match order. *)
Definition transition_triplets (narrative t : str) : list triplet :=
  if nonempty t
  then map (triplet_of_match narrative t) (finditer (spec_regex t) narrative)
  else [].

Definition article_triplets (art : article) : list triplet :=
  flat_map (transition_triplets art.(narrative_paragraph)) art.(transitions_list).

(** The articles of a document. *)
Definition articles_of (doc : option (list str)) : list article :=
  match doc with
  | None => []
  | Some paragraphs => flat_map block_articles (skipn 1 (raw_blocks paragraphs))
  end.
End TripletsSpec.

(** ** Sample data *)

Definition mk_triplet (a t b : String.string) : triplet :=
  {| paragraph_a := ustr a; transition := ustr t; paragraph_b := ustr b |}.

(** Five occurrences of one transition among others. *)
Definition sample_raw : list triplet :=
  [ mk_triplet "a1" "donc" "b1"; mk_triplet "a2" "mais" "b2";
    mk_triplet "a3" "donc" "b3"; mk_triplet "a4" "donc" "b4";
    mk_triplet "a5" "Donc" "b5"; mk_triplet "a6" "donc" "b6";
    mk_triplet "a7" "mais" "b7"; mk_triplet "a8" "donc" "b8" ].

(** A document: a preamble, two marker lines, one article and a short block. *)
Definition sample_doc : list str :=
  [ ustr "Titre du jour"; ustr "  ";
    ustr "  À savoir également dans votre département :";
    ustr "Il pleut. Donc on reste, donc on lit."; ustr " Donc "; ustr ""; ustr "donc";
    ustr "À savoir également dans votre département";
    ustr "Un bloc d'une seule ligne" ].

(** A templated transition and a narrative that fills the placeholder. *)
Definition placeholder_phrase : str := ustr "a rejoint [XXX], selon".
Definition placeholder_text : str := ustr "a rejoint Lizy-sur-Ourcq, selon".
Definition placeholder_narrative : str :=
  ustr "Le cortege a rejoint Lizy-sur-Ourcq, selon la mairie.".

(** A transition ending in " que" and a narrative with two contracted forms
    and the plain form. *)
Definition elision_phrase : str := ustr "parce que".
Definition elision_narrative : str :=
  ustr "Il part parce qu'on l'attend, parce qu'il pleut et parce que voila.".

(** Two enumeration orders for sets: first occurrences kept in place, and
    the reverse. *)
Definition str_dec : forall a b : str, {a = b} + {a <> b} := list_eq_dec N.eq_dec.

#[refine] Instance forward_order : SetOrder := {| list_of_set := nodup str_dec |}.
Proof.
  - intros xs. apply NoDup_nodup.
  - intros xs x. apply nodup_In.
Defined.

#[refine] Instance backward_order : SetOrder :=
  {| list_of_set := fun xs => rev (nodup str_dec xs) |}.
Proof.
  - intros xs. apply NoDup_rev, NoDup_nodup.
  - intros xs x. rewrite <- in_rev. apply nodup_In.
Defined.

(** Two transitions that differ only in letter case, both listed for a
    narrative with four occurrences. *)
Definition case_narrative : str :=
  ustr "Il pleut, donc on reste. Donc on lit, donc on dort et DONC on reve.".
Definition case_transitions : list str := [ustr "Donc"; ustr "donc"].
Definition case_spans : list (nat * nat) := [(10, 14); (25, 29); (38, 42); (54, 58)].

(** Every output of [generate_output_files] selected, in the order of the
    user interface. *)
Definition all_outputs : list str :=
  [ ustr "fewshot_examples.json"; ustr "fewshots_rejected.txt";
    ustr "transitions_only.txt"; ustr "transitions_only_rejected.txt";
    ustr "fewshot_examples.jsonl"; ustr "fewshots-fineTuning_rejected.txt" ].

(** ** Further specification-level views *)

(** All rejected triplets, transition by transition in the order of the
    duplicates tracker. *)
Definition all_duplicates (st : cap_state) : list triplet :=
  flat_map snd st.(duplicates_tracker).

(** The distinct elements of [l] in the order of their first occurrence. *)
Fixpoint first_seen (l : list str) : list str :=
  match l with
  | [] => []
  | x :: l' => x :: filter (fun y => negb (str_eqb y x)) (first_seen l')
  end.

(** The line of the raw-duplicate report for [T]. *)
Definition raw_duplicate_line (T : str) (count : Z) : str :=
  ustr "Transition: '" ++ T ++ ustr "' used " ++ str_of_int count ++ ustr " times".

(** [name in d] for a list of names. *)
Definition mem (name : str) (l : list str) : bool := existsb (str_eqb name) l.





(** [str_leb] as a relation. *)
Definition str_le (a b : str) : Prop := str_leb a b = true.

(** The number of paragraphs that hold the marker. *)
Definition marker_lines {U : Unicode} (paragraphs : list str) : nat :=
  length (filter (fun para => contains marker (strip para)) paragraphs).

(** [s] neither starts nor ends with a whitespace character. *)
Definition trimmed {U : Unicode} (s : str) : Prop :=
  match s with [] => True | c :: _ => isspace c = false end
  /\ match rev s with [] => True | c :: _ => isspace c = false end.

(** [rest] is what is left of [s] after some prefix. *)
Definition is_suffix (rest s : str) : Prop := exists m, s = m ++ rest.

(** The spans of [l] follow one another from [lo] on, without overlap, and
    end by [hi]. *)
Fixpoint spans_within (lo hi : nat) (l : list (nat * nat)) : Prop :=
  match l with
  | [] => lo <= hi
  | (a, b) :: l' => lo <= a /\ a <= b /\ spans_within b hi l'
  end.


(** ** The texts a transition phrase stands for *)

Section Accepts.
Context {U : Unicode}.

(** The part of a text that one chunk of the phrase stands for: one
    character equal to the literal up to case, or any run of characters
    other than the comma for a placeholder. *)
Definition chunk_accepts (k : chunk) (part : str) : Prop :=
  match k with
  | Lit c => exists c', part = [c'] /\ lit_ignorecase c c' = true
  | Hole => forallb (fun c => negb (c =? comma)%N) part = true
  end.

Definition body_accepts (phrase text : str) : Prop :=
  exists parts, text = concat parts /\ Forall2 chunk_accepts (chunks phrase) parts.

(** A space character and "que", or a space character, "qu'" and word
    characters, letters in either case. *)
Definition ending_accepts (part : str) : Prop :=
  exists s q u rest,
    part = s :: q :: u :: rest
    /\ isspace s = true /\ lit_ignorecase 113%N q = true /\ lit_ignorecase 117%N u = true
    /\ ((exists e, rest = [e] /\ lit_ignorecase 101%N e = true)
        \/ (exists a w, rest = a :: w /\ lit_ignorecase 39%N a = true
                        /\ forallb (fun c => isalnum c || (c =? 95)%N) w = true)).

Definition phrase_accepts (phrase text : str) : Prop :=
  if endswith phrase que
  then exists t1 t2,
      text = t1 ++ t2
      /\ body_accepts (firstn (length phrase - length que) phrase) t1
      /\ ending_accepts t2
  else body_accepts phrase text.
End Accepts.

(** ** Properties of the segmenter and of the article parser *)

Section ArticlesFacts.
Context {U : Unicode}.

Lemma contains_marker_nil : contains marker [] = false.
Proof. reflexivity. Qed.

Lemma nonempty_false {A} (l : list A) : nonempty l = false <-> l = [].
Proof. destruct l; simpl; split; congruence. Qed.

Lemma nonempty_true {A} (l : list A) : nonempty l = true <-> l <> [].
Proof. destruct l; simpl; split; congruence. Qed.

Lemma seg_loop_snoc paragraphs para :
  seg_loop (paragraphs ++ [para]) = seg_step (seg_loop paragraphs) para.
Proof. unfold seg_loop. rewrite fold_left_app. reflexivity. Qed.

Lemma seg_loop_inv paragraphs : seg_inv paragraphs (seg_loop paragraphs).
Proof.
  induction paragraphs as [|para paragraphs IH] using rev_ind.
  - repeat split; constructor.
  - rewrite seg_loop_snoc.
    destruct (seg_loop paragraphs) as [blocks cur].
    destruct IH as (Hb & Hc & Hcat); simpl in Hb, Hc, Hcat.
    unfold seg_inv, seg_step.
    rewrite map_app, filter_app; simpl map; simpl filter.
    assert (Hk : kept_line (strip para)
                 = negb (contains marker (strip para)) && nonempty (strip para))
      by reflexivity.
    rewrite Hk; clear Hk.
    destruct (contains marker (strip para)) eqn:Hm; simpl.
    + destruct cur as [|l cur]; simpl.
      * repeat split; auto. rewrite !app_nil_r in *. exact Hcat.
      * repeat split; auto.
        -- apply Forall_app; split; auto. constructor; auto. split; [discriminate|auto].
        -- rewrite concat_app; simpl. rewrite !app_nil_r. exact Hcat.
    + destruct (strip para) as [|c text] eqn:Ht; simpl.
      * repeat split; auto. rewrite app_nil_r. exact Hcat.
      * repeat split; auto.
        -- apply Forall_app; split; auto. constructor; auto.
           unfold kept_line. rewrite Hm. reflexivity.
        -- rewrite app_assoc, Hcat. reflexivity.
Qed.

Lemma raw_blocks_spec paragraphs :
  Forall (fun block => block <> [] /\ Forall (fun l => kept_line l = true) block)
         (raw_blocks paragraphs)
  /\ concat (raw_blocks paragraphs) = filter kept_line (map strip paragraphs).
Proof.
  unfold raw_blocks. pose proof (seg_loop_inv paragraphs) as (Hb & Hc & Hcat).
  destruct (seg_loop paragraphs) as [blocks cur]; simpl in *.
  destruct cur as [|l cur]; simpl.
  - rewrite app_nil_r in Hcat. auto.
  - split.
    + apply Forall_app; split; auto. constructor; auto. split; [discriminate|auto].
    + rewrite concat_app; simpl. rewrite app_nil_r. exact Hcat.
Qed.

Lemma parse_block_total block :
  parse_block block =
  Ok (match block_articles block with [] => None | a :: _ => Some a end).
Proof. destruct block as [|n [|t block]]; reflexivity. Qed.

Lemma block_articles_short block : length block < 2 -> block_articles block = [].
Proof. destruct block as [|n [|t block]]; simpl; intros; try reflexivity; lia. Qed.

Lemma parse_loop_spec blocks acc :
  parse_loop blocks acc = Ok (acc ++ flat_map block_articles blocks).
Proof.
  revert acc; induction blocks as [|block blocks IH]; intros acc; simpl.
  - rewrite app_nil_r; reflexivity.
  - rewrite parse_block_total; simpl.
    destruct block as [|n [|t block]]; simpl; rewrite IH; try reflexivity.
    rewrite <- app_assoc; reflexivity.
Qed.

Lemma parse_articles_spec blocks :
  parse_articles blocks = Ok (flat_map block_articles (skipn 1 blocks)).
Proof.
  unfold parse_articles.
  destruct blocks as [|b0 [|b1 blocks]]; try reflexivity.
  change (length (b0 :: b1 :: blocks) <? 2) with false; cbv iota.
  rewrite parse_loop_spec. reflexivity.
Qed.
End ArticlesFacts.

(** ** Facts about strings and dictionaries *)

Lemma str_eqb_eq a b : str_eqb a b = true <-> a = b.
Proof.
  revert b; induction a as [|x a IH]; intros [|y b]; simpl; split; try congruence.
  - intros H. apply andb_true_iff in H as [Hx Hr].
    apply N.eqb_eq in Hx. apply IH in Hr. congruence.
  - intros H. injection H as -> ->. rewrite N.eqb_refl. apply IH. reflexivity.
Qed.

Lemma str_eqb_refl a : str_eqb a a = true.
Proof. apply str_eqb_eq. reflexivity. Qed.

Lemma str_eqb_neq a b : str_eqb a b = false <-> a <> b.
Proof.
  destruct (str_eqb a b) eqn:E; split; try congruence.
  - apply str_eqb_eq in E. congruence.
  - intros _ H. apply str_eqb_eq in H. congruence.
Qed.

Lemma str_eq_dec (a b : str) : {a = b} + {a <> b}.
Proof.
  destruct (str_eqb a b) eqn:E.
  - left. apply str_eqb_eq. exact E.
  - right. apply str_eqb_neq. exact E.
Qed.

Module PyDictFacts.
Import PyDict.

Section Facts.
Context {V : Type}.
Implicit Types (d : PyDict.t V) (k : str) (v : V).

Lemma get_set_same d k v : get (set d k v) k = Some v.
Proof.
  induction d as [|[k' v'] d IH]; simpl.
  - rewrite str_eqb_refl. reflexivity.
  - destruct (str_eqb k' k) eqn:E; simpl; rewrite E; auto.
Qed.

Lemma get_set_other d k k' v : k <> k' -> get (set d k v) k' = get d k'.
Proof.
  intros Hne. induction d as [|[k0 v0] d IH]; simpl.
  - apply str_eqb_neq in Hne. rewrite Hne. reflexivity.
  - destruct (str_eqb k0 k) eqn:E; simpl.
    + apply str_eqb_eq in E; subst k0.
      apply str_eqb_neq in Hne. rewrite Hne. reflexivity.
    + destruct (str_eqb k0 k'); auto.
Qed.

Lemma get_None d k : get d k = None <-> ~ In k (keys d).
Proof.
  induction d as [|[k' v'] d IH]; simpl.
  - tauto.
  - destruct (str_eqb k' k) eqn:E.
    + apply str_eqb_eq in E. split; [discriminate | tauto].
    + apply str_eqb_neq in E. rewrite IH. tauto.
Qed.

Lemma get_In d k v : NoDup (keys d) -> In (k, v) d -> get d k = Some v.
Proof.
  induction d as [|[k' v'] d IH]; simpl; intros Hnd Hin; [tauto|].
  inversion Hnd as [|? ? Hnotin Hnd']; subst.
  destruct Hin as [Heq | Hin].
  - injection Heq as -> ->. rewrite str_eqb_refl. reflexivity.
  - destruct (str_eqb k' k) eqn:E.
    + apply str_eqb_eq in E; subst k'. exfalso. apply Hnotin.
      apply (in_map fst) in Hin. exact Hin.
    + auto.
Qed.

Lemma get_Some_In d k v : get d k = Some v -> In (k, v) d.
Proof.
  induction d as [|[k' v'] d IH]; simpl; [discriminate|].
  destruct (str_eqb k' k) eqn:E.
  - apply str_eqb_eq in E; subst k'. intros [= ->]. auto.
  - auto.
Qed.

Lemma keys_set d k v :
  keys (set d k v) = match get d k with Some _ => keys d | None => keys d ++ [k] end.
Proof.
  induction d as [|[k' v'] d IH]; simpl; [reflexivity|].
  destruct (str_eqb k' k) eqn:E; simpl; [reflexivity|].
  rewrite IH. destruct (get d k); reflexivity.
Qed.

Lemma keys_set_NoDup d k v : NoDup (keys d) -> NoDup (keys (set d k v)).
Proof.
  intros Hnd. rewrite keys_set. destruct (get d k) eqn:E; [exact Hnd|].
  apply get_None in E. apply NoDup_app; repeat split; auto.
  - constructor; [simpl; tauto | constructor].
  - intros x Hx [<-|[]]. tauto.
Qed.

Lemma getitem_fst dflt d k :
  fst (getitem dflt d k) = match get d k with Some v => v | None => dflt end.
Proof. unfold getitem. destruct (get d k); reflexivity. Qed.

Lemma getitem_get dflt d k k' :
  get (snd (getitem dflt d k)) k' =
  match get d k' with
  | Some v => Some v
  | None => if str_eqb k k' then Some dflt else None
  end.
Proof.
  unfold getitem. destruct (get d k) eqn:E; simpl.
  - destruct (get d k') eqn:E'; [reflexivity|].
    destruct (str_eqb k k') eqn:Ek; [|reflexivity].
    apply str_eqb_eq in Ek; subst. congruence.
  - destruct (str_eqb k k') eqn:Ek.
    + apply str_eqb_eq in Ek; subst k'. rewrite get_set_same, E. reflexivity.
    + apply str_eqb_neq in Ek. rewrite get_set_other by exact Ek.
      destruct (get d k'); reflexivity.
Qed.

Lemma getitem_keys_NoDup dflt d k :
  NoDup (keys d) -> NoDup (keys (snd (getitem dflt d k))).
Proof.
  intros Hnd. unfold getitem. destruct (get d k); simpl; [exact Hnd|].
  apply keys_set_NoDup. exact Hnd.
Qed.
End Facts.
End PyDictFacts.

(** ** Facts about subsequences *)

Lemma subseq_refl {A} (l : list A) : subseq l l.
Proof. induction l; [apply subseq_nil | apply subseq_take; assumption]. Qed.

Lemma subseq_app {A} (a b c d : list A) :
  subseq a b -> subseq c d -> subseq (a ++ c) (b ++ d).
Proof.
  induction 1; simpl; intros Hcd.
  - exact Hcd.
  - apply subseq_skip; auto.
  - apply subseq_take; auto.
Qed.

Lemma subseq_filter {A} (f : A -> bool) (l : list A) : subseq (filter f l) l.
Proof.
  induction l as [|x l IH]; simpl; [apply subseq_nil|].
  destruct (f x); [apply subseq_take | apply subseq_skip]; exact IH.
Qed.

Lemma subseq_nil_l {A} (l : list A) : subseq [] l.
Proof. induction l; [apply subseq_nil | apply subseq_skip; assumption]. Qed.

Lemma subseq_firstn {A} n (l : list A) : subseq (firstn n l) l.
Proof.
  revert n; induction l as [|x l IH]; intros [|n]; simpl.
  - apply subseq_nil.
  - apply subseq_nil.
  - apply subseq_nil_l.
  - apply subseq_take, IH.
Qed.

Lemma subseq_skipn {A} n (l : list A) : subseq (skipn n l) l.
Proof.
  revert n; induction l as [|x l IH]; intros [|n]; simpl.
  - apply subseq_nil.
  - apply subseq_nil.
  - apply subseq_refl.
  - apply subseq_skip, IH.
Qed.

Lemma subseq_trans {A} (a b c : list A) : subseq a b -> subseq b c -> subseq a c.
Proof.
  intros Hab Hbc; revert a Hab.
  induction Hbc as [|x b c Hbc IH|x b c Hbc IH]; intros a Hab.
  - exact Hab.
  - apply subseq_skip. auto.
  - inversion Hab; subst; [apply subseq_skip | apply subseq_take]; auto.
Qed.

(** ** The invariant of the capping loop *)

(** Splits a conjunction of five facts. *)
Ltac split5 := split; [|split; [|split; [|split]]].

Section CapInvariant.
Import PyDict PyDictFacts.

Lemma occurrences_snoc T done tr :
  occurrences T (done ++ [tr]) =
  occurrences T done ++ (if str_eqb tr.(transition) T then [tr] else []).
Proof. unfold occurrences. rewrite filter_app. reflexivity. Qed.

Lemma cap_inv_init cap : cap_inv cap [] cap_init.
Proof.
  unfold cap_inv; simpl. split5.
  - intros T. rewrite firstn_nil. reflexivity.
  - intros T. destruct (Z.to_nat cap); reflexivity.
  - intros T. reflexivity.
  - constructor.
  - constructor.
Qed.

Lemma cap_step_inv cap done st tr :
  cap_inv cap done st -> cap_inv cap (done ++ [tr]) (cap_step cap st tr).
Proof.
  intros (Hfin & Huse & Hdup & Hnd & Hsub).
  set (T0 := tr.(transition)).
  set (c := Z.to_nat cap) in *.
  set (n0 := length (occurrences T0 done)).
  assert (Hused : fst (getitem 0%Z st.(transition_usage_tracker) T0)
                  = Z.of_nat (Nat.min n0 c)).
  { rewrite getitem_fst. apply (Huse T0). }
  assert (Huse' : forall T,
             match get (snd (getitem 0%Z st.(transition_usage_tracker) T0)) T with
             | Some n => n | None => 0%Z end = usage_of st T).
  { intros T. rewrite getitem_get. unfold usage_of.
    destruct (get (transition_usage_tracker st) T); [reflexivity|].
    destruct (str_eqb T0 T); reflexivity. }
  unfold cap_step. fold T0.
  destruct (getitem 0%Z st.(transition_usage_tracker) T0) as [used tracker] eqn:Eg.
  simpl in Hused, Huse'. subst used.
  destruct (Z.of_nat (Nat.min n0 c) <? cap)%Z eqn:Elt.
  - (* accepted *)
    apply Z.ltb_lt in Elt. assert (Hn0 : n0 < c) by (unfold c in *; lia).
    unfold cap_inv; simpl; fold c. split5.
    + intros T. rewrite !occurrences_snoc, Hfin. fold T0.
      destruct (str_eqb T0 T) eqn:E; [|rewrite !app_nil_r; reflexivity].
      apply str_eqb_eq in E; subst T. fold n0 in Hn0.
      rewrite (firstn_all2 (n := c) (occurrences T0 done)) by (fold n0; lia).
      rewrite firstn_all2; [reflexivity|]. rewrite length_app; simpl. fold n0; lia.
    + intros T. unfold usage_of; simpl. rewrite occurrences_snoc. fold T0.
      destruct (str_eqb T0 T) eqn:E.
      * apply str_eqb_eq in E; subst T. rewrite get_set_same.
        rewrite length_app; simpl. fold n0. lia.
      * apply str_eqb_neq in E. rewrite get_set_other by exact E.
        rewrite Huse', Huse, app_nil_r. reflexivity.
    + intros T. rewrite occurrences_snoc, Hdup. fold T0.
      destruct (str_eqb T0 T) eqn:E; [|rewrite app_nil_r; reflexivity].
      apply str_eqb_eq in E; subst T. rewrite length_app; simpl. fold n0.
      replace (c <? n0) with false by (symmetry; apply Nat.ltb_ge; lia).
      replace (c <? n0 + 1) with false by (symmetry; apply Nat.ltb_ge; lia).
      reflexivity.
    + exact Hnd.
    + apply subseq_app; [exact Hsub | apply subseq_refl].
  - (* rejected *)
    apply Z.ltb_ge in Elt. assert (Hn0 : c <= n0) by (unfold c in *; lia).
    destruct (getitem [] st.(duplicates_tracker) T0) as [dups dtracker] eqn:Ed.
    assert (Hdups : dups = skipn c (occurrences T0 done)).
    { change dups with (fst (dups, dtracker)). rewrite <- Ed, getitem_fst, Hdup.
      fold n0. destruct (c <? n0) eqn:E; [reflexivity|].
      apply Nat.ltb_ge in E. symmetry. apply skipn_all2. fold n0. lia. }
    assert (Hdget : forall T, T0 <> T -> get dtracker T = get st.(duplicates_tracker) T).
    { intros T Hne. change dtracker with (snd (dups, dtracker)).
      rewrite <- Ed, getitem_get.
      destruct (get (duplicates_tracker st) T); [reflexivity|].
      apply str_eqb_neq in Hne. rewrite Hne. reflexivity. }
    unfold cap_inv; simpl; fold c. split5.
    + intros T. rewrite occurrences_snoc, Hfin. fold T0.
      destruct (str_eqb T0 T) eqn:E; [|rewrite !app_nil_r; reflexivity].
      apply str_eqb_eq in E; subst T.
      rewrite firstn_app. fold n0.
      replace (c - n0) with 0 by lia. simpl. rewrite app_nil_r. reflexivity.
    + intros T. unfold usage_of; simpl. rewrite Huse', Huse, occurrences_snoc. fold T0.
      destruct (str_eqb T0 T) eqn:E; [|rewrite app_nil_r; reflexivity].
      apply str_eqb_eq in E; subst T. rewrite length_app; simpl. fold n0. lia.
    + intros T. rewrite occurrences_snoc. fold T0.
      destruct (str_eqb T0 T) eqn:E.
      * apply str_eqb_eq in E; subst T. rewrite get_set_same.
        rewrite length_app; simpl. fold n0.
        replace (c <? n0 + 1) with true by (symmetry; apply Nat.ltb_lt; lia).
        rewrite skipn_app. fold n0. replace (c - n0) with 0 by lia.
        simpl. rewrite Hdups. reflexivity.
      * apply str_eqb_neq in E. rewrite get_set_other by exact E.
        rewrite Hdget by exact E. rewrite app_nil_r. apply Hdup.
    + apply keys_set_NoDup. change dtracker with (snd (dups, dtracker)).
      rewrite <- Ed. apply getitem_keys_NoDup. exact Hnd.
    + rewrite <- (app_nil_r (final_triplets st)).
      apply subseq_app; [exact Hsub | apply subseq_nil_l].
Qed.

Lemma cap_fold_inv cap raw : forall done st,
  cap_inv cap done st -> cap_inv cap (done ++ raw) (fold_left (cap_step cap) raw st).
Proof.
  induction raw as [|tr raw IH]; intros done st Hinv; simpl.
  - rewrite app_nil_r. exact Hinv.
  - replace (done ++ tr :: raw) with ((done ++ [tr]) ++ raw)
      by (rewrite <- app_assoc; reflexivity).
    apply IH, cap_step_inv, Hinv.
Qed.

Lemma cap_loop_inv cap raw : cap_inv cap raw (cap_loop cap raw).
Proof. apply (cap_fold_inv cap raw [] cap_init), cap_inv_init. Qed.
End CapInvariant.

(** ** Facts about prefixes, suffixes and replacement *)

Lemma startswith_cons x p y s :
  startswith (x :: p) (y :: s) = ((x =? y)%N && startswith p s).
Proof. reflexivity. Qed.

Lemma startswith_app p s : startswith p (p ++ s) = true.
Proof. induction p as [|x p IH]; simpl; [reflexivity|]. rewrite N.eqb_refl. exact IH. Qed.

Lemma startswith_split p s : startswith p s = true -> s = p ++ skipn (length p) s.
Proof.
  revert s; induction p as [|x p IH]; intros [|y s]; simpl; try congruence.
  intros H. apply andb_true_iff in H as [Hx Hp]. apply N.eqb_eq in Hx. subst y.
  f_equal. apply IH. exact Hp.
Qed.

Lemma endswith_app m p : endswith (m ++ p) p = true.
Proof.
  unfold endswith. rewrite length_app.
  replace (length m + length p - length p) with (length m) by lia.
  rewrite skipn_app, skipn_all, Nat.sub_diag. simpl.
  rewrite str_eqb_refl, andb_true_r. apply Nat.leb_le. lia.
Qed.

Lemma endswith_split s p :
  endswith s p = true -> s = firstn (length s - length p) s ++ p.
Proof.
  unfold endswith. intros H. apply andb_true_iff in H as [_ H].
  apply str_eqb_eq in H. rewrite <- H at 2. symmetry. apply firstn_skipn.
Qed.

Section Replace.
Variable new : str.

Lemma replace_from_skip old l rest :
  replace_from old new (length l) (l ++ rest) = replace_from old new 0 rest.
Proof.
  induction l as [|x l IH]; simpl; [|exact IH].
  destruct rest; reflexivity.
Qed.

Lemma replace_from_hit old rest :
  old <> [] ->
  replace_from old new 0 (old ++ rest) = new ++ replace_from old new 0 rest.
Proof.
  intros Hne. pose proof (startswith_app old rest) as Hs.
  destruct old as [|x old']; [congruence|].
  change ((x :: old') ++ rest) with (x :: (old' ++ rest)) in *.
  cbn [replace_from]. rewrite Hs. f_equal.
  replace (length (x :: old') - 1) with (length old') by (simpl; lia).
  apply replace_from_skip.
Qed.

Lemma replace_from_miss old c rest :
  startswith old (c :: rest) = false ->
  replace_from old new 0 (c :: rest) = c :: replace_from old new 0 rest.
Proof. intros H. cbn [replace_from]. rewrite H. reflexivity. Qed.
End Replace.

Lemma chunks_from_skip l rest : chunks_from (length l) (l ++ rest) = chunks rest.
Proof.
  induction l as [|x l IH]; simpl; [|exact IH].
  destruct rest; reflexivity.
Qed.

Lemma chunks_hit rest : chunks (placeholder ++ rest) = Hole :: chunks rest.
Proof.
  pose proof (startswith_app placeholder rest) as Hs.
  unfold chunks. change (placeholder ++ rest) with (91%N :: (ustr "XXX]" ++ rest)) in *.
  cbn [chunks_from]. rewrite Hs. reflexivity.
Qed.

Lemma chunks_miss c rest :
  startswith placeholder (c :: rest) = false -> chunks (c :: rest) = Lit c :: chunks rest.
Proof. intros H. unfold chunks. cbn [chunks_from]. rewrite H. reflexivity. Qed.

(** Induction on a phrase, one placeholder or one character at a time. *)
Lemma phrase_ind (P : str -> Prop) :
  P [] ->
  (forall s, P s -> P (placeholder ++ s)) ->
  (forall c s, startswith placeholder (c :: s) = false -> P s -> P (c :: s)) ->
  forall s, P s.
Proof.
  intros Hnil Hhole Hlit s.
  remember (length s) as n eqn:Hn. revert s Hn.
  induction n as [n IH] using lt_wf_ind. intros s Hn.
  destruct s as [|c s]; [exact Hnil|].
  destruct (startswith placeholder (c :: s)) eqn:E.
  - apply startswith_split in E. rewrite E. apply Hhole.
    apply (IH (length (skipn (length placeholder) (c :: s)))); [|reflexivity].
    subst n. rewrite length_skipn. simpl. lia.
  - apply Hlit; [exact E|]. apply (IH (length s)); [|reflexivity].
    subst n. simpl. lia.
Qed.

Lemma chunks_text phrase : flat_map chunk_text (chunks phrase) = phrase.
Proof.
  induction phrase as [|s IH|c s Hm IH] using phrase_ind.
  - reflexivity.
  - rewrite chunks_hit. simpl. rewrite IH. reflexivity.
  - rewrite chunks_miss by exact Hm. simpl. rewrite IH. reflexivity.
Qed.

(** ** Facts about escaping *)

Lemma re_escape_cons c s :
  re_escape (c :: s) = (if re_special c then [backslash; c] else [c]) ++ re_escape s.
Proof. reflexivity. Qed.

Lemma re_escape_app a b : re_escape (a ++ b) = re_escape a ++ re_escape b.
Proof. apply flat_map_app. Qed.

Lemma re_special_backslash : re_special backslash = true.
Proof. reflexivity. Qed.

(** The escaped text starts with a character that is not special: the
    phrase starts with it. *)
Lemma escape_head_plain x p s :
  re_special x = false -> startswith (x :: p) (re_escape s) = true ->
  exists s', s = x :: s' /\ startswith p (re_escape s') = true.
Proof.
  intros Hx H. destruct s as [|c s']; [discriminate|].
  rewrite re_escape_cons in H. destruct (re_special c) eqn:Hc; cbn [app] in H; rewrite ?startswith_cons in H.
  - apply andb_true_iff in H as [H _]. apply N.eqb_eq in H. subst x.
    rewrite re_special_backslash in Hx. discriminate.
  - apply andb_true_iff in H as [H Hp]. apply N.eqb_eq in H. subst c.
    exists s'. auto.
Qed.

(** The escaped text starts with a backslash: the phrase starts with the
    character after it. *)
Lemma escape_head_escaped y p s :
  startswith (backslash :: y :: p) (re_escape s) = true ->
  exists s', s = y :: s' /\ startswith p (re_escape s') = true.
Proof.
  intros H. destruct s as [|c s']; [discriminate|].
  rewrite re_escape_cons in H. destruct (re_special c) eqn:Hc; cbn [app] in H; rewrite ?startswith_cons in H.
  - apply andb_true_iff in H as [_ H]. apply andb_true_iff in H as [H Hp].
    apply N.eqb_eq in H. subst c. exists s'. auto.
  - apply andb_true_iff in H as [H _]. apply N.eqb_eq in H. subst c.
    rewrite re_special_backslash in Hc. discriminate.
Qed.

(** The escaped text starts with no special character but the backslash. *)
Lemma escape_head_special x p s :
  re_special x = true -> startswith (x :: p) (re_escape s) = true -> x = backslash.
Proof.
  intros Hx H. destruct s as [|c s']; [discriminate|].
  rewrite re_escape_cons in H. destruct (re_special c) eqn:Hc; cbn [app] in H; rewrite ?startswith_cons in H.
  - apply andb_true_iff in H as [H _]. apply N.eqb_eq in H. exact H.
  - apply andb_true_iff in H as [H _]. apply N.eqb_eq in H. congruence.
Qed.

Lemma escaped_placeholder_miss c s :
  startswith placeholder (c :: s) = false ->
  startswith (re_escape placeholder) (re_escape (c :: s)) = false.
Proof.
  intros Hm. destruct (startswith _ (re_escape (c :: s))) eqn:E; [|reflexivity].
  change (re_escape placeholder)
    with (backslash :: 91 :: 88 :: 88 :: 88 :: backslash :: [93])%N in E.
  apply escape_head_escaped in E as (s1 & H1 & E).
  apply escape_head_plain in E as (s2 & H2 & E); [|reflexivity].
  apply escape_head_plain in E as (s3 & H3 & E); [|reflexivity].
  apply escape_head_plain in E as (s4 & H4 & E); [|reflexivity].
  apply escape_head_escaped in E as (s5 & H5 & E).
  subst. injection H1 as -> ->. simpl in Hm. discriminate.
Qed.

Lemma escaped_placeholder_shifted c s :
  re_special c = true ->
  startswith (re_escape placeholder) (c :: re_escape s) = false.
Proof.
  intros Hc. destruct (startswith _ (c :: re_escape s)) eqn:E; [|reflexivity].
  change (re_escape placeholder)
    with (backslash :: 91 :: 88 :: 88 :: 88 :: backslash :: [93])%N in E.
  rewrite startswith_cons in E. apply andb_true_iff in E as [_ E].
  apply (escape_head_special 91%N) in E; [discriminate | reflexivity].
Qed.

Lemma chunk_src_lit c : chunk_src (Lit c) = if re_special c then [backslash; c] else [c].
Proof. unfold chunk_src, re_escape. simpl. rewrite app_nil_r. reflexivity. Qed.

(** The pattern after the replacement of the placeholder, chunk by chunk. *)
Lemma replace_escape phrase :
  str_replace (re_escape phrase) (re_escape placeholder) (ustr "[^,]*")
  = flat_map chunk_src (chunks phrase).
Proof.
  change (str_replace (re_escape phrase) (re_escape placeholder) (ustr "[^,]*"))
    with (replace_from (re_escape placeholder) (ustr "[^,]*") 0 (re_escape phrase)).
  induction phrase as [|s IH|c s Hm IH] using phrase_ind.
  - reflexivity.
  - rewrite re_escape_app, replace_from_hit by discriminate.
    rewrite chunks_hit, IH. reflexivity.
  - rewrite chunks_miss by exact Hm. cbn [flat_map]. rewrite chunk_src_lit, <- IH.
    pose proof (escaped_placeholder_miss c s Hm) as Hmiss.
    rewrite re_escape_cons in *. destruct (re_special c) eqn:Hc.
    + simpl app in *. rewrite replace_from_miss by exact Hmiss.
      rewrite replace_from_miss by (apply escaped_placeholder_shifted; exact Hc).
      reflexivity.
    + simpl app in *. rewrite replace_from_miss by exact Hmiss. reflexivity.
Qed.

(** ** The trailing " que" *)

Lemma placeholder_not_into_que c s :
  startswith placeholder (c :: s) = false ->
  startswith placeholder (c :: s ++ que) = false.
Proof.
  intros H.
  destruct s as [|c1 [|c2 [|c3 [|c4 s]]]]; try exact H;
    change placeholder with [91; 88; 88; 88; 93]%N; cbn [app que];
    rewrite ?startswith_cons;
    change que with [32; 113; 117; 101]%N; cbn [app];
    rewrite ?startswith_cons;
    repeat match goal with
           | |- context [(?a =? ?b)%N && _] =>
             destruct (a =? b)%N eqn:?; cbn [andb]; try reflexivity; try discriminate
           end.
Qed.

Lemma chunks_app_que (stem : str) : chunks (stem ++ que) = chunks stem ++ map Lit que.
Proof.
  induction stem as [|s IH|c s Hm IH] using phrase_ind.
  - reflexivity.
  - rewrite <- app_assoc, !chunks_hit, IH. reflexivity.
  - rewrite <- app_comm_cons.
    rewrite chunks_miss by (apply placeholder_not_into_que; exact Hm).
    rewrite chunks_miss by exact Hm. rewrite IH. reflexivity.
Qed.

Lemma src_last_plain ks m x :
  re_special x = false -> flat_map chunk_src ks = m ++ [x] ->
  exists ks', ks = ks' ++ [Lit x] /\ flat_map chunk_src ks' = m.
Proof.
  intros Hx H. induction ks as [|k ks' _] using rev_ind.
  - destruct m; discriminate.
  - rewrite flat_map_app in H. cbn [flat_map] in H. rewrite app_nil_r in H.
    destruct k as [c|].
    + rewrite chunk_src_lit in H. destruct (re_special c) eqn:Hc.
      * change [backslash; c] with ([backslash] ++ [c]) in H. rewrite app_assoc in H.
        apply app_inj_tail in H as [_ ->]. congruence.
      * apply app_inj_tail in H as [<- ->]. exists ks'. auto.
    + change (chunk_src Hole) with ([91; 94; 44; 93] ++ [42])%N in H.
      rewrite app_assoc in H. apply app_inj_tail in H as [_ <-]. discriminate.
Qed.

Lemma src_last_escaped ks m y :
  re_special y = true -> flat_map chunk_src ks = m ++ [backslash; y] ->
  exists ks', ks = ks' ++ [Lit y] /\ flat_map chunk_src ks' = m.
Proof.
  intros Hy H. change [backslash; y] with ([backslash] ++ [y]) in H.
  rewrite app_assoc in H. induction ks as [|k ks' _] using rev_ind.
  - destruct m; discriminate.
  - rewrite flat_map_app in H. cbn [flat_map] in H. rewrite app_nil_r in H.
    destruct k as [c|].
    + rewrite chunk_src_lit in H. destruct (re_special c) eqn:Hc.
      * change [backslash; c] with ([backslash] ++ [c]) in H. rewrite app_assoc in H.
        apply app_inj_tail in H as [H ->]. apply app_inj_tail in H as [<- _].
        exists ks'. auto.
      * apply app_inj_tail in H as [_ ->]. congruence.
    + change (chunk_src Hole) with (([91; 94; 44] ++ [93]) ++ [42])%N in H.
      rewrite !app_assoc in H. apply app_inj_tail in H as [H _].
      apply app_inj_tail in H as [_ H]. discriminate.
Qed.

Lemma src_ends_que ks m :
  flat_map chunk_src ks = m ++ re_escape que ->
  exists ks', ks = ks' ++ map Lit que /\ flat_map chunk_src ks' = m.
Proof.
  intros H.
  change (re_escape que) with ((([backslash; 32] ++ [113]) ++ [117]) ++ [101])%N in H.
  rewrite !app_assoc in H.
  apply src_last_plain in H as (k1 & -> & H); [|reflexivity].
  apply src_last_plain in H as (k2 & -> & H); [|reflexivity].
  apply src_last_plain in H as (k3 & -> & H); [|reflexivity].
  apply src_last_escaped in H as (k4 & -> & H); [|reflexivity].
  exists k4. rewrite <- !app_assoc. auto.
Qed.

(** The pattern of a phrase that ends with " que". *)
Lemma pattern_str_que stem :
  pattern_str (stem ++ que) = flat_map chunk_src (chunks stem) ++ elision_group.
Proof.
  unfold pattern_str. rewrite replace_escape, chunks_app_que, flat_map_app.
  change (flat_map chunk_src (map Lit que)) with (re_escape que).
  rewrite endswith_app. f_equal.
  rewrite length_app, Nat.add_sub, firstn_app, Nat.sub_diag, firstn_all.
  simpl. apply app_nil_r.
Qed.

(** The pattern of any other phrase. *)
Lemma pattern_str_plain phrase :
  endswith phrase que = false ->
  pattern_str phrase = flat_map chunk_src (chunks phrase).
Proof.
  intros Hq. unfold pattern_str. rewrite replace_escape.
  destruct (endswith (flat_map chunk_src (chunks phrase)) (re_escape que)) eqn:E;
    [|reflexivity].
  apply endswith_split in E. apply src_ends_que in E as (ks & Hks & _).
  apply (f_equal (flat_map chunk_text)) in Hks.
  rewrite chunks_text, flat_map_app in Hks.
  change (flat_map chunk_text (map Lit que)) with que in Hks.
  rewrite Hks, endswith_app in Hq. discriminate.
Qed.

(** ** Compiling the pattern *)

Lemma not_special_neq c x : re_special c = false -> re_special x = true -> (c =? x)%N = false.
Proof.
  intros Hc Hx. destruct (c =? x)%N eqn:E; [|reflexivity].
  apply N.eqb_eq in E. congruence.
Qed.

Lemma meta_special c : re_meta c = true -> re_special c = true.
Proof.
  unfold re_meta. intros H. apply existsb_exists in H as (x & Hin & Hx).
  apply N.eqb_eq in Hx. subst x.
  cbv in Hin. repeat (destruct Hin as [<-|Hin]; [reflexivity|]). destruct Hin.
Qed.

Lemma escape_token_special c : re_special c = true -> escape_token c = Some (TChar (CLit c)).
Proof.
  unfold re_special. intros H. apply existsb_exists in H as (x & Hin & Hx).
  apply N.eqb_eq in Hx. subst x.
  cbv in Hin. repeat (destruct Hin as [<-|Hin]; [reflexivity|]). destruct Hin.
Qed.

Lemma tokenize_escaped e s :
  tokenize (backslash :: e :: s)
  = match escape_token e with Some t => opt_cons t (tokenize s) | None => None end.
Proof. reflexivity. Qed.

Lemma tokenize_plain c s :
  re_special c = false -> tokenize (c :: s) = opt_cons (TChar (CLit c)) (tokenize s).
Proof.
  intros Hc. cbn [tokenize].
  rewrite (not_special_neq c backslash Hc eq_refl).
  rewrite (not_special_neq c 91%N Hc eq_refl), (not_special_neq c 40%N Hc eq_refl).
  rewrite (not_special_neq c 42%N Hc eq_refl), (not_special_neq c 124%N Hc eq_refl).
  rewrite (not_special_neq c 41%N Hc eq_refl).
  destruct (re_meta c) eqn:Hm; [|reflexivity].
  apply meta_special in Hm. congruence.
Qed.

Lemma tokenize_hole s :
  tokenize (ustr "[^,]*" ++ s) = opt_cons (TChar (CNot comma)) (opt_cons TStar (tokenize s)).
Proof. reflexivity. Qed.

Lemma tokenize_src ks t :
  tokenize (flat_map chunk_src ks ++ t)
  = match tokenize t with
    | Some ts => Some (flat_map chunk_tokens ks ++ ts)
    | None => None
    end.
Proof.
  induction ks as [|k ks IH]; cbn [flat_map app].
  - destruct (tokenize t); reflexivity.
  - rewrite <- app_assoc. destruct k as [c|].
    + rewrite chunk_src_lit. destruct (re_special c) eqn:Hc; cbn [app].
      * rewrite tokenize_escaped, escape_token_special by exact Hc.
        rewrite IH. destruct (tokenize t); reflexivity.
      * rewrite tokenize_plain by exact Hc.
        rewrite IH. destruct (tokenize t); reflexivity.
    + cbn [chunk_src]. rewrite tokenize_hole, IH. destruct (tokenize t); reflexivity.
Qed.

Lemma no_star_ahead_chunks ks ts :
  no_star_ahead ts = true -> no_star_ahead (flat_map chunk_tokens ks ++ ts) = true.
Proof. intros H. destruct ks as [|[c|] ks]; [exact H | reflexivity | reflexivity]. Qed.

Lemma parse_lit k ts :
  no_star_ahead ts = true ->
  parse (TChar k :: ts) None = opt_cons (IAtom (AChar k)) (parse ts None).
Proof. intros H. destruct ts as [|[] ts]; try reflexivity. discriminate. Qed.

Lemma parse_chunks ks ts :
  no_star_ahead ts = true ->
  parse (flat_map chunk_tokens ks ++ ts) None
  = match parse ts None with
    | Some r => Some (map chunk_item ks ++ r)
    | None => None
    end.
Proof.
  intros Hts. induction ks as [|k ks IH]; cbn [flat_map map app].
  - destruct (parse ts None); reflexivity.
  - rewrite <- app_assoc. destruct k as [c|]; cbn [chunk_tokens app].
    + rewrite parse_lit by (apply no_star_ahead_chunks; exact Hts).
      rewrite IH. destruct (parse ts None); reflexivity.
    + change (parse (TChar (CNot comma) :: TStar :: flat_map chunk_tokens ks ++ ts) None)
        with (opt_cons (IAtom (AStar (CNot comma)))
                       (parse (flat_map chunk_tokens ks ++ ts) None)).
      rewrite IH. destruct (parse ts None); reflexivity.
Qed.

(** The compiled pattern is the matcher of the specification; in
    particular the pattern of every phrase compiles. *)
Lemma re_compile_pattern_str phrase :
  re_compile (pattern_str phrase) = Some (spec_regex phrase).
Proof.
  unfold spec_regex, re_compile. destruct (endswith phrase que) eqn:E.
  - apply endswith_split in E.
    set (stem := firstn (length phrase - length que) phrase) in *.
    rewrite E at 1. rewrite pattern_str_que, tokenize_src.
    change (tokenize elision_group)
      with (Some [TOpen; TChar CSpace; TChar (CLit 113%N); TChar (CLit 117%N);
                  TChar (CLit 101%N); TBar; TChar CSpace; TChar (CLit 113%N);
                  TChar (CLit 117%N); TChar (CLit 39%N); TChar CWord; TStar; TClose]).
    cbv beta iota. rewrite parse_chunks by reflexivity. reflexivity.
  - rewrite pattern_str_plain by exact E.
    rewrite <- (app_nil_r (flat_map chunk_src (chunks phrase))), tokenize_src.
    change (tokenize []) with (Some (@nil token)). cbv beta iota.
    rewrite parse_chunks by reflexivity.
    change (parse [] None) with (Some (@nil item)). cbv beta iota.
    rewrite app_nil_r. reflexivity.
Qed.

(** ** Facts about the backtracking matcher *)

Section MatchFacts.
Context {U : Unicode}.

(** *** Continuations that agree give the same match *)

Lemma match_star_ext k s cont1 cont2 :
  (forall s', cont1 s' = cont2 s') -> match_star k s cont1 = match_star k s cont2.
Proof.
  intros H. induction s as [|c s IH]; simpl; [apply H|].
  rewrite IH, H. reflexivity.
Qed.

Lemma match_atom_ext a s cont1 cont2 :
  (forall s', cont1 s' = cont2 s') -> match_atom a s cont1 = match_atom a s cont2.
Proof.
  intros H. destruct a as [k|k]; simpl.
  - destruct s as [|c s]; [reflexivity|]. rewrite H. reflexivity.
  - apply match_star_ext, H.
Qed.

Lemma match_atoms_ext l : forall s cont1 cont2,
  (forall s', cont1 s' = cont2 s') -> match_atoms l s cont1 = match_atoms l s cont2.
Proof.
  induction l as [|a l IH]; intros s cont1 cont2 H; simpl; [apply H|].
  apply match_atom_ext. intros s'. apply IH, H.
Qed.

Lemma match_alts_ext alts s cont1 cont2 :
  (forall s', cont1 s' = cont2 s') -> match_alts alts s cont1 = match_alts alts s cont2.
Proof.
  intros H. induction alts as [|alt alts IH]; simpl; [reflexivity|].
  rewrite (match_atoms_ext alt s cont1 cont2 H), IH. reflexivity.
Qed.

Lemma match_items_ext r : forall s cont1 cont2,
  (forall s', cont1 s' = cont2 s') -> match_items r s cont1 = match_items r s cont2.
Proof.
  induction r as [|[a|alts] r IH]; intros s cont1 cont2 H; simpl; [apply H| |].
  - apply match_atom_ext. intros s'. apply IH, H.
  - apply match_alts_ext. intros s'. apply IH, H.
Qed.

(** A pattern in two parts: the second part is the continuation of the
    first. *)
Lemma match_items_app r1 r2 : forall s cont,
  match_items (r1 ++ r2) s cont
  = match_items r1 s (fun s' => match_items r2 s' cont).
Proof.
  induction r1 as [|[a|alts] r1 IH]; intros s cont; simpl; [reflexivity| |].
  - apply match_atom_ext. intros s'. apply IH.
  - apply match_alts_ext. intros s'. apply IH.
Qed.

(** *** The greedy run *)

Lemma first_success_app cont l1 l2 :
  first_success cont (l1 ++ l2)
  = match first_success cont l1 with
    | Some r => Some r
    | None => first_success cont l2
    end.
Proof.
  induction l1 as [|s l1 IH]; simpl; [reflexivity|].
  destruct (cont s); [reflexivity | exact IH].
Qed.

(** On a maximal run of characters of the class, the star first takes
    the whole run and then gives the characters back one at a time. *)
Lemma match_star_greedy k run rest cont :
  forallb (class_matches k) run = true ->
  match rest with [] => true | c :: _ => negb (class_matches k c) end = true ->
  match_star k (run ++ rest) cont = first_success cont (greedy_points run rest).
Proof.
  intros Hrun Hrest. induction run as [|c run IH]; simpl.
  - destruct rest as [|c rest]; simpl.
    + destruct (cont []); reflexivity.
    + apply negb_true_iff in Hrest. rewrite Hrest.
      destruct (cont (c :: rest)); reflexivity.
  - simpl in Hrun. apply andb_true_iff in Hrun as [Hc Hrun].
    rewrite Hc, first_success_app, (IH Hrun). simpl.
    destruct (cont (c :: run ++ rest)); reflexivity.
Qed.

Lemma greedy_points_first run rest :
  exists l, greedy_points run rest = rest :: l.
Proof.
  induction run as [|c run [l IH]]; simpl.
  - exists []. reflexivity.
  - rewrite IH. eexists. reflexivity.
Qed.

(** *** Success is kept when text is appended *)

Lemma match_star_fallback k s cont :
  cont s <> None -> match_star k s cont <> None.
Proof.
  intros H. destruct s as [|c s]; simpl; [exact H|].
  destruct (class_matches k c); [|exact H].
  destruct (match_star k s cont); [discriminate | exact H].
Qed.

Section Extend.
Variable x : str.

Lemma match_star_extend k s cont cont' :
  carries x cont cont' ->
  match_star k s cont <> None -> match_star k (s ++ x) cont' <> None.
Proof.
  intros Hc. induction s as [|c s IH]; simpl.
  - intros H. apply match_star_fallback. apply (Hc [] H).
  - destruct (class_matches k c).
    + destruct (match_star k s cont) eqn:E.
      * intros _. destruct (match_star k (s ++ x) cont') eqn:E';
          [discriminate | exfalso; apply IH; [discriminate | reflexivity]].
      * intros H. destruct (match_star k (s ++ x) cont'); [discriminate|].
        apply (Hc (c :: s) H).
    + intros H. apply (Hc (c :: s) H).
Qed.

Lemma match_atom_extend a s cont cont' :
  carries x cont cont' ->
  match_atom a s cont <> None -> match_atom a (s ++ x) cont' <> None.
Proof.
  intros Hc. destruct a as [k|k]; simpl.
  - destruct s as [|c s]; simpl; [congruence|].
    destruct (class_matches k c); [apply Hc | congruence].
  - apply match_star_extend, Hc.
Qed.

Lemma match_atoms_extend l : forall s cont cont',
  carries x cont cont' ->
  match_atoms l s cont <> None -> match_atoms l (s ++ x) cont' <> None.
Proof.
  induction l as [|a l IH]; intros s cont cont' Hc; simpl; [apply Hc|].
  apply match_atom_extend. intros s'. apply IH, Hc.
Qed.

Lemma match_alts_extend alts s cont cont' :
  carries x cont cont' ->
  match_alts alts s cont <> None -> match_alts alts (s ++ x) cont' <> None.
Proof.
  intros Hc. induction alts as [|alt alts IH]; simpl; [congruence|].
  destruct (match_atoms alt s cont) eqn:E.
  - intros _. destruct (match_atoms alt (s ++ x) cont') eqn:E'; [discriminate|].
    exfalso. apply (match_atoms_extend alt s cont cont' Hc); [congruence | exact E'].
  - intros H. destruct (match_atoms alt (s ++ x) cont'); [discriminate | auto].
Qed.

Lemma match_items_extend r : forall s cont cont',
  carries x cont cont' ->
  match_items r s cont <> None -> match_items r (s ++ x) cont' <> None.
Proof.
  induction r as [|[a|alts] r IH]; intros s cont cont' Hc; simpl; [apply Hc| |].
  - apply match_atom_extend. intros s'. apply IH, Hc.
  - apply match_alts_extend. intros s'. apply IH, Hc.
Qed.
End Extend.

Lemma fullmatch_true r s : fullmatch r s = true <-> match_items r s at_end <> None.
Proof.
  unfold fullmatch. fold at_end.
  destruct (match_items r s at_end); split; congruence.
Qed.

(** A full match of [r1] followed by a full match of [r2] is a full match
    of [r1 ++ r2]. *)
Lemma fullmatch_app r1 r2 s x :
  fullmatch r1 s = true -> fullmatch r2 x = true -> fullmatch (r1 ++ r2) (s ++ x) = true.
Proof.
  rewrite !fullmatch_true. intros H1 H2. rewrite match_items_app.
  apply (match_items_extend x r1 s at_end); [|exact H1].
  intros s' Hs'. unfold at_end in Hs'. destruct s'; [exact H2 | simpl in Hs'; congruence].
Qed.

(** *** An occurrence in the text is not missed *)

Lemma match_at_occurrence r occ post :
  fullmatch r occ = true -> match_at r (occ ++ post) false <> None.
Proof.
  rewrite fullmatch_true. intros H. unfold match_at.
  apply (match_items_extend post r occ at_end); [|exact H].
  intros s' Hs'. cbn [andb]. discriminate.
Qed.

Lemma matches_here_none r s pos :
  fst (matches_here r s pos) = [] ->
  match_at r s false = None /\ snd (matches_here r s pos) = 0.
Proof.
  unfold matches_here. destruct (match_at r s false) as [rest|]; [|auto].
  destruct (length s - length rest =? 0); [|discriminate].
  destruct (match_at r s true); discriminate.
Qed.

Lemma scan_attempt r s pos :
  scan r s pos 0
  = fst (matches_here r s pos)
    ++ match s with
       | [] => []
       | _ :: s' => scan r s' (S pos) (snd (matches_here r s pos) - 1)
       end.
Proof.
  destruct s as [|c s]; cbn [scan]; destruct (matches_here r _ pos); reflexivity.
Qed.

Lemma matches_here_occurrence r occ post pos :
  fullmatch r occ = true -> fst (matches_here r (occ ++ post) pos) <> [].
Proof.
  intros Hocc Hnil. apply matches_here_none in Hnil as [Hn _].
  apply (match_at_occurrence r occ post Hocc). exact Hn.
Qed.

(** When some part of the text is a full match of the pattern, the scan
    of [finditer] returns at least one match. *)
Lemma finditer_finds r pre occ post :
  fullmatch r occ = true -> finditer r (pre ++ occ ++ post) <> [].
Proof.
  intros Hocc. unfold finditer.
  assert (H : forall pos, scan r (pre ++ occ ++ post) pos 0 <> []); [|apply H].
  induction pre as [|c pre IH]; intros pos; rewrite scan_attempt.
  - cbn [app]. intros H. apply app_eq_nil in H as [H _].
    apply (matches_here_occurrence r occ post pos Hocc H).
  - change ((c :: pre) ++ occ ++ post) with (c :: pre ++ occ ++ post).
    intros H. apply app_eq_nil in H as [H1 H2].
    apply matches_here_none in H1 as [_ Hz].
    rewrite Hz in H2. apply (IH (S pos)). exact H2.
Qed.
End MatchFacts.

(** ** ASCII texts and patterns: every table gives the same result *)

Lemma all_ascii_app a b : all_ascii (a ++ b) = all_ascii a && all_ascii b.
Proof. apply forallb_app. Qed.

Lemma all_ascii_rev s : all_ascii (rev s) = all_ascii s.
Proof.
  induction s as [|c s IH]; simpl; [reflexivity|].
  rewrite all_ascii_app, IH. simpl. rewrite andb_true_r. apply andb_comm.
Qed.

Lemma all_ascii_firstn n s : all_ascii s = true -> all_ascii (firstn n s) = true.
Proof.
  revert n; induction s as [|c s IH]; intros [|n]; simpl; auto.
  intros H. apply andb_true_iff in H as [-> H]. simpl. auto.
Qed.

Lemma all_ascii_skipn n s : all_ascii s = true -> all_ascii (skipn n s) = true.
Proof.
  revert n; induction s as [|c s IH]; intros [|n]; simpl; auto.
  intros H. apply andb_true_iff in H as [_ H]. auto.
Qed.

Section AsciiTransfer.
Context {U : Unicode}.

Lemma class_matches_ascii k c :
  class_ascii k = true -> is_ascii c = true ->
  class_matches (U := U) k c = class_matches (U := ascii_tables) k c.
Proof.
  intros Hk Hc. destruct k as [a|a| |]; simpl in *.
  - rewrite lit_ignorecase_ascii by assumption. rewrite Hk, Hc. reflexivity.
  - reflexivity.
  - rewrite isspace_ascii by assumption. rewrite Hc. reflexivity.
  - rewrite isalnum_ascii by assumption. rewrite Hc. reflexivity.
Qed.

Lemma match_star_ascii k s cont1 cont2 :
  class_ascii k = true -> all_ascii s = true -> agree cont1 cont2 ->
  match_star (U := U) k s cont1 = match_star (U := ascii_tables) k s cont2.
Proof.
  intros Hk Hs Hc. induction s as [|c s IH]; cbn [match_star]; [apply Hc; reflexivity|].
  pose proof Hs as Hs'. simpl in Hs'. apply andb_true_iff in Hs' as [Hc0 Hs'].
  rewrite (class_matches_ascii k c Hk Hc0), (IH Hs'), (Hc (c :: s) Hs). reflexivity.
Qed.

Lemma match_atom_ascii a s cont1 cont2 :
  atom_ascii a = true -> all_ascii s = true -> agree cont1 cont2 ->
  match_atom (U := U) a s cont1 = match_atom (U := ascii_tables) a s cont2.
Proof.
  intros Ha Hs Hc. destruct a as [k|k]; cbn [match_atom].
  - destruct s as [|c s]; [reflexivity|].
    simpl in Hs. apply andb_true_iff in Hs as [Hc0 Hs].
    rewrite (class_matches_ascii k c Ha Hc0), (Hc s Hs). reflexivity.
  - apply match_star_ascii; assumption.
Qed.

Lemma match_atoms_ascii l : forall s cont1 cont2,
  forallb atom_ascii l = true -> all_ascii s = true -> agree cont1 cont2 ->
  match_atoms (U := U) l s cont1 = match_atoms (U := ascii_tables) l s cont2.
Proof.
  induction l as [|a l IH]; intros s cont1 cont2 Hl Hs Hc; cbn [match_atoms].
  - apply Hc, Hs.
  - simpl in Hl. apply andb_true_iff in Hl as [Ha Hl].
    apply match_atom_ascii; [exact Ha | exact Hs|].
    intros s' Hs'. apply IH; assumption.
Qed.

Lemma match_alts_ascii alts s cont1 cont2 :
  forallb (forallb atom_ascii) alts = true -> all_ascii s = true -> agree cont1 cont2 ->
  match_alts (U := U) alts s cont1 = match_alts (U := ascii_tables) alts s cont2.
Proof.
  intros Hl Hs Hc. induction alts as [|alt alts IH]; cbn [match_alts]; [reflexivity|].
  simpl in Hl. apply andb_true_iff in Hl as [Ha Hl].
  rewrite (match_atoms_ascii alt s cont1 cont2 Ha Hs Hc), (IH Hl). reflexivity.
Qed.

Lemma match_items_ascii r : forall s cont1 cont2,
  regex_ascii r = true -> all_ascii s = true -> agree cont1 cont2 ->
  match_items (U := U) r s cont1 = match_items (U := ascii_tables) r s cont2.
Proof.
  induction r as [|[a|alts] r IH]; intros s cont1 cont2 Hr Hs Hc; cbn [match_items].
  - apply Hc, Hs.
  - simpl in Hr. apply andb_true_iff in Hr as [Ha Hr].
    apply match_atom_ascii; [exact Ha | exact Hs|].
    intros s' Hs'. apply IH; assumption.
  - simpl in Hr. apply andb_true_iff in Hr as [Ha Hr].
    apply match_alts_ascii; [exact Ha | exact Hs|].
    intros s' Hs'. apply IH; assumption.
Qed.

Lemma match_at_ascii r s must_advance :
  regex_ascii r = true -> all_ascii s = true ->
  match_at (U := U) r s must_advance = match_at (U := ascii_tables) r s must_advance.
Proof.
  intros Hr Hs. unfold match_at. apply match_items_ascii; try assumption.
  intros s' _. reflexivity.
Qed.

Lemma fullmatch_ascii r s :
  regex_ascii r = true -> all_ascii s = true ->
  fullmatch (U := U) r s = fullmatch (U := ascii_tables) r s.
Proof.
  intros Hr Hs. unfold fullmatch.
  rewrite (match_items_ascii r s _ (fun rest => if nonempty rest then None else Some rest) Hr Hs);
    [reflexivity|].
  intros s' _. reflexivity.
Qed.

Lemma matches_here_ascii r s pos :
  regex_ascii r = true -> all_ascii s = true ->
  matches_here (U := U) r s pos = matches_here (U := ascii_tables) r s pos.
Proof.
  intros Hr Hs. unfold matches_here. rewrite !(match_at_ascii r s _ Hr Hs). reflexivity.
Qed.

Lemma scan_ascii r s : forall pos skip,
  regex_ascii r = true -> all_ascii s = true ->
  scan (U := U) r s pos skip = scan (U := ascii_tables) r s pos skip.
Proof.
  induction s as [|c s IH]; intros pos skip Hr Hs.
  - destruct skip; cbn [scan]; [|reflexivity].
    rewrite (matches_here_ascii r [] pos Hr Hs). reflexivity.
  - pose proof Hs as Hs'. simpl in Hs'. apply andb_true_iff in Hs' as [_ Hs'].
    destruct skip; cbn [scan].
    + rewrite (matches_here_ascii r (c :: s) pos Hr Hs).
      destruct (matches_here r (c :: s) pos) as [spans n].
      rewrite (IH _ _ Hr Hs'). reflexivity.
    + apply IH; assumption.
Qed.

Lemma finditer_ascii r text :
  regex_ascii r = true -> all_ascii text = true ->
  finditer (U := U) r text = finditer (U := ascii_tables) r text.
Proof. intros Hr Hs. apply scan_ascii; assumption. Qed.

Lemma lstrip_ascii s :
  all_ascii s = true ->
  lstrip (U := U) s = lstrip (U := ascii_tables) s
  /\ all_ascii (lstrip (U := ascii_tables) s) = true.
Proof.
  induction s as [|c s IH]; intros Hs; cbn [lstrip]; [auto|].
  pose proof Hs as Hs'. simpl in Hs'. apply andb_true_iff in Hs' as [Hc Hs'].
  rewrite (isspace_ascii c Hc).
  change (isspace (Unicode := ascii_tables) c) with (is_ascii c && ascii_isspace c).
  rewrite Hc. simpl andb. destruct (ascii_isspace c); auto.
Qed.

Lemma strip_ascii s :
  all_ascii s = true -> strip (U := U) s = strip (U := ascii_tables) s.
Proof.
  intros Hs. unfold strip, rstrip.
  destruct (lstrip_ascii s Hs) as [-> Hl].
  destruct (lstrip_ascii (rev (lstrip (U := ascii_tables) s))) as [-> _];
    [rewrite all_ascii_rev; exact Hl | reflexivity].
Qed.

Lemma triplet_of_match_ascii narrative t span :
  all_ascii narrative = true ->
  triplet_of_match (U := U) narrative t span
  = triplet_of_match (U := ascii_tables) narrative t span.
Proof.
  intros Hn. destruct span as [start end_]. unfold triplet_of_match.
  rewrite (strip_ascii (firstn start narrative)) by (apply all_ascii_firstn; exact Hn).
  rewrite (strip_ascii (skipn end_ narrative)) by (apply all_ascii_skipn; exact Hn).
  reflexivity.
Qed.
End AsciiTransfer.

Lemma chunks_lits c phrase : In (Lit c) (chunks phrase) -> In c phrase.
Proof.
  intros H. rewrite <- (chunks_text phrase). apply in_flat_map.
  exists (Lit c). split; [exact H | left; reflexivity].
Qed.

Lemma spec_body_ascii phrase : all_ascii phrase = true -> regex_ascii (spec_body phrase) = true.
Proof.
  intros H. unfold regex_ascii, spec_body. apply forallb_forall. intros it Hit.
  apply in_map_iff in Hit as ([c|] & <- & Hk); [|reflexivity].
  apply chunks_lits in Hk. simpl.
  unfold all_ascii in H. rewrite forallb_forall in H. apply H, Hk.
Qed.

Lemma spec_regex_ascii phrase : all_ascii phrase = true -> regex_ascii (spec_regex phrase) = true.
Proof.
  intros H. unfold spec_regex. destruct (endswith phrase que).
  - unfold regex_ascii. rewrite forallb_app. apply andb_true_iff. split; [|reflexivity].
    apply spec_body_ascii, all_ascii_firstn, H.
  - apply spec_body_ascii, H.
Qed.

Section AsciiTriplets.
Context {U : Unicode}.

Lemma triplets_of_transition_ascii narrative t :
  all_ascii narrative = true -> all_ascii t = true ->
  triplets_of_transition (U := U) narrative t
  = triplets_of_transition (U := ascii_tables) narrative t.
Proof.
  intros Hn Ht. unfold triplets_of_transition.
  destruct (negb (nonempty t)); [reflexivity|].
  rewrite re_compile_pattern_str.
  rewrite (finditer_ascii (spec_regex t) narrative (spec_regex_ascii t Ht) Hn).
  f_equal. apply map_ext. intros span. apply triplet_of_match_ascii, Hn.
Qed.

Lemma triplets_loop_ascii narrative tl : forall acc,
  all_ascii narrative = true -> forallb all_ascii tl = true ->
  triplets_loop (U := U) narrative tl acc
  = triplets_loop (U := ascii_tables) narrative tl acc.
Proof.
  induction tl as [|t tl IH]; intros acc Hn Htl; cbn [triplets_loop]; [reflexivity|].
  simpl in Htl. apply andb_true_iff in Htl as [Ht Htl].
  rewrite (triplets_of_transition_ascii narrative t Hn Ht).
  destruct (triplets_of_transition narrative t); simpl; [apply IH; assumption | reflexivity].
Qed.

(** On an ASCII narrative with ASCII transitions the triplets do not
    depend on the tables. *)
Lemma extract_all_raw_triplets_ascii narrative tl :
  all_ascii narrative = true -> forallb all_ascii tl = true ->
  extract_all_raw_triplets (U := U) narrative tl
  = extract_all_raw_triplets (U := ascii_tables) narrative tl.
Proof. intros. apply triplets_loop_ascii; assumption. Qed.
End AsciiTriplets.

(** ** Every occurrence of the placeholder is a hole *)

Lemma placeholder_not_across c s post :
  startswith placeholder (c :: s) = false ->
  startswith placeholder (c :: s ++ placeholder ++ post) = false.
Proof.
  intros H.
  destruct s as [|c1 [|c2 [|c3 [|c4 s]]]]; try exact H;
    change placeholder with [91; 88; 88; 88; 93]%N; cbn [app];
    rewrite ?startswith_cons;
    repeat match goal with
           | |- context [(?a =? ?b)%N && _] =>
             destruct (a =? b)%N eqn:?; cbn [andb]; try reflexivity; try discriminate
           end.
Qed.

Lemma chunks_occurrence (pre post : str) :
  chunks (pre ++ placeholder ++ post) = chunks pre ++ Hole :: chunks post.
Proof.
  induction pre as [|s IH|c s Hm IH] using phrase_ind.
  - apply chunks_hit.
  - rewrite <- app_assoc, !chunks_hit, IH. reflexivity.
  - rewrite <- app_comm_cons.
    rewrite chunks_miss by (apply placeholder_not_across; exact Hm).
    rewrite chunks_miss by exact Hm. rewrite IH. reflexivity.
Qed.

Lemma endswith_rev s p : endswith s p = true <-> startswith (rev p) (rev s) = true.
Proof.
  split; intros H.
  - apply endswith_split in H. rewrite H, rev_app_distr. apply startswith_app.
  - apply startswith_split in H. apply (f_equal (@rev _)) in H.
    rewrite rev_app_distr, !rev_involutive in H. rewrite H. apply endswith_app.
Qed.

Lemma rev_que_after_placeholder (rp x : str) :
  startswith (rev que) (rp ++ rev placeholder ++ x) = startswith (rev que) rp.
Proof.
  change (rev que) with [101; 117; 113; 32]%N.
  change (rev placeholder) with [93; 88; 88; 88; 91]%N.
  destruct rp as [|a [|b [|c [|d rp]]]]; cbn [app];
    rewrite ?startswith_cons; cbn [startswith];
    repeat match goal with
           | |- context [(?a =? ?b)%N && _] =>
             destruct (a =? b)%N eqn:?; cbn [andb]; try reflexivity; try discriminate
           end; reflexivity.
Qed.

Lemma endswith_que_occurrence (pre post : str) :
  endswith (pre ++ placeholder ++ post) que = endswith post que.
Proof.
  apply eq_true_iff_eq. rewrite !endswith_rev, !rev_app_distr, <- app_assoc.
  rewrite rev_que_after_placeholder. reflexivity.
Qed.

Lemma firstn_before_suffix (m p : str) :
  firstn (length (m ++ p) - length p) (m ++ p) = m.
Proof.
  rewrite length_app, Nat.add_sub, firstn_app, Nat.sub_diag, firstn_all.
  simpl. apply app_nil_r.
Qed.

(** The matcher of a phrase around any occurrence of the placeholder. *)
Lemma spec_regex_occurrence (pre post : str) :
  spec_regex (pre ++ placeholder ++ post)
  = spec_body pre ++ chunk_item Hole :: spec_regex post.
Proof.
  unfold spec_regex. rewrite endswith_que_occurrence.
  destruct (endswith post que) eqn:E.
  - apply endswith_split in E.
    set (m := firstn (length post - length que) post) in *.
    rewrite E at 1 2. rewrite !app_assoc, firstn_before_suffix, <- app_assoc.
    unfold spec_body. rewrite chunks_occurrence, map_app. cbn [map].
    rewrite <- app_assoc. reflexivity.
  - unfold spec_body. rewrite chunks_occurrence, map_app. reflexivity.
Qed.

(** ** The triplets of a narrative, of an article, of a document *)

Section TripletsFacts.
Context {U : Unicode}.

Lemma triplets_of_transition_spec narrative t :
  triplets_of_transition narrative t = Ok (transition_triplets narrative t).
Proof.
  unfold triplets_of_transition, transition_triplets.
  destruct (nonempty t); simpl; [|reflexivity].
  rewrite re_compile_pattern_str. reflexivity.
Qed.

Lemma triplets_loop_spec narrative tl : forall acc,
  triplets_loop narrative tl acc
  = Ok (acc ++ flat_map (transition_triplets narrative) tl).
Proof.
  induction tl as [|t tl IH]; intros acc; cbn [triplets_loop flat_map].
  - rewrite app_nil_r. reflexivity.
  - rewrite triplets_of_transition_spec. cbn [bind]. rewrite IH, app_assoc. reflexivity.
Qed.

Lemma extract_all_raw_triplets_spec narrative tl :
  extract_all_raw_triplets narrative tl
  = Ok (flat_map (transition_triplets narrative) tl).
Proof. apply (triplets_loop_spec narrative tl []). Qed.

Lemma collect_raw_triplets_spec arts : forall acc,
  collect_raw_triplets arts acc = Ok (acc ++ flat_map article_triplets arts).
Proof.
  induction arts as [|art arts IH]; intros acc; cbn [collect_raw_triplets flat_map].
  - rewrite app_nil_r. reflexivity.
  - rewrite extract_all_raw_triplets_spec. cbn [bind]. rewrite IH, app_assoc. reflexivity.
Qed.

Lemma extract_articles_spec doc : extract_articles_from_docx doc = Ok (articles_of doc).
Proof. destruct doc as [paragraphs|]; [apply parse_articles_spec | reflexivity]. Qed.

Lemma raw_triplets_of_spec doc :
  raw_triplets_of doc = Ok (flat_map article_triplets (articles_of doc)).
Proof.
  unfold raw_triplets_of. rewrite extract_articles_spec. cbn [bind].
  apply (collect_raw_triplets_spec (articles_of doc) []).
Qed.

Lemma transition_triplets_In narrative t tr :
  In tr (transition_triplets narrative t) ->
  tr.(transition) = t /\ t <> []
  /\ exists span, In span (finditer (spec_regex t) narrative)
                  /\ tr = triplet_of_match narrative t span.
Proof.
  unfold transition_triplets. destruct t as [|c t]; simpl; [tauto|].
  intros H. apply in_map_iff in H as ([start end_] & <- & Hin).
  split; [reflexivity|]. split; [discriminate|].
  exists (start, end_). auto.
Qed.
End TripletsFacts.

(** ** Sorting does not depend on the order of the input *)

Lemma str_leb_total a b : str_leb a b = true \/ str_leb b a = true.
Proof.
  revert b; induction a as [|x a IH]; intros [|y b]; simpl; auto.
  destruct (N.ltb_spec x y), (N.ltb_spec y x); auto; try lia.
Qed.

Lemma str_leb_antisym a b : str_leb a b = true -> str_leb b a = true -> a = b.
Proof.
  revert b; induction a as [|x a IH]; intros [|y b]; simpl; try congruence.
  destruct (N.ltb_spec x y), (N.ltb_spec y x); try congruence; try lia.
  intros H1 H2. f_equal; [lia | apply IH; assumption].
Qed.

Lemma str_leb_trans a b c : str_leb a b = true -> str_leb b c = true -> str_leb a c = true.
Proof.
  revert b c; induction a as [|x a IH]; intros [|y b] [|z c]; simpl; try congruence.
  destruct (N.ltb_spec x y), (N.ltb_spec y x), (N.ltb_spec y z), (N.ltb_spec z y),
           (N.ltb_spec x z), (N.ltb_spec z x);
    try congruence; try lia.
  apply IH.
Qed.

Lemma str_leb_false a b : str_leb a b = false -> str_leb b a = true.
Proof. destruct (str_leb_total a b); congruence. Qed.

Lemma insert_sorted_comm x y l :
  insert_sorted x (insert_sorted y l) = insert_sorted y (insert_sorted x l).
Proof.
  induction l as [|z l IH]; simpl.
  - destruct (str_leb x y) eqn:Exy, (str_leb y x) eqn:Eyx; try reflexivity.
    + rewrite (str_leb_antisym x y Exy Eyx). reflexivity.
    + apply str_leb_false in Exy. congruence.
  - destruct (str_leb y z) eqn:Eyz, (str_leb x z) eqn:Exz; simpl;
      rewrite ?Eyz, ?Exz.
    + destruct (str_leb x y) eqn:Exy, (str_leb y x) eqn:Eyx; try reflexivity.
      * rewrite (str_leb_antisym x y Exy Eyx). reflexivity.
      * apply str_leb_false in Exy. congruence.
    + destruct (str_leb x y) eqn:Exy; [|reflexivity].
      rewrite (str_leb_trans x y z Exy Eyz) in Exz. discriminate.
    + destruct (str_leb y x) eqn:Eyx; [|reflexivity].
      rewrite (str_leb_trans y x z Eyx Exz) in Eyz. discriminate.
    + rewrite IH. reflexivity.
Qed.

Lemma sorted_Permutation l1 l2 : Permutation l1 l2 -> sorted l1 = sorted l2.
Proof.
  induction 1 as [|x l1 l2 _ IH|x y l|l1 l2 l3 _ IH1 _ IH2]; simpl.
  - reflexivity.
  - rewrite IH. reflexivity.
  - apply insert_sorted_comm.
  - congruence.
Qed.

(** The sorted list of distinct transitions is the same for every
    enumeration order of the set. *)
Lemma unique_transitions_order (S1 S2 : SetOrder) final :
  unique_transitions (S := S1) final = unique_transitions (S := S2) final.
Proof.
  unfold unique_transitions. apply sorted_Permutation.
  apply NoDup_Permutation; try apply list_of_set_NoDup.
  intros x. rewrite !list_of_set_In. reflexivity.
Qed.

(** ** Accepted and rejected triplets together are the raw triplets *)

Section Partition.
Import PyDict PyDictFacts.

Lemma flat_snd_set_absent {V} (d : PyDict.t (list V)) k v :
  get d k = None -> flat_map snd (set d k v) = flat_map snd d ++ v.
Proof.
  induction d as [|[k' v'] d IH]; simpl; intros H.
  - rewrite app_nil_r. reflexivity.
  - destruct (str_eqb k' k); [discriminate|]. simpl.
    rewrite IH by exact H. rewrite app_assoc. reflexivity.
Qed.

Lemma flat_snd_set_present {V} (d : PyDict.t (list V)) k l x :
  get d k = Some l ->
  Permutation (flat_map snd (set d k (l ++ [x]))) (x :: flat_map snd d).
Proof.
  induction d as [|[k' v'] d IH]; simpl; intros H; [discriminate|].
  destruct (str_eqb k' k); simpl.
  - injection H as ->. rewrite <- app_assoc. simpl.
    symmetry. apply Permutation_middle.
  - eapply Permutation_trans; [apply Permutation_app_head, IH, H|].
    symmetry. apply Permutation_middle.
Qed.

(** Appending to [d[k]] on a [defaultdict(list)] adds one element. *)
Lemma flat_snd_append {V} (d : PyDict.t (list V)) k x :
  Permutation
    (flat_map snd (set (snd (getitem [] d k)) k (fst (getitem [] d k) ++ [x])))
    (x :: flat_map snd d).
Proof.
  unfold getitem. destruct (get d k) as [l|] eqn:E; simpl.
  - apply flat_snd_set_present, E.
  - change [x] with ([] ++ [x]).
    eapply Permutation_trans;
      [apply (flat_snd_set_present (set d k []) k [] x); apply get_set_same|].
    rewrite flat_snd_set_absent by exact E. rewrite app_nil_r. reflexivity.
Qed.

Lemma cap_step_partition cap done st tr :
  Permutation (st.(final_triplets) ++ all_duplicates st) done ->
  Permutation ((cap_step cap st tr).(final_triplets) ++ all_duplicates (cap_step cap st tr))
              (done ++ [tr]).
Proof.
  intros H. unfold cap_step.
  destruct (getitem 0%Z st.(transition_usage_tracker) tr.(transition)) as [used tracker].
  destruct (used <? cap)%Z.
  - unfold all_duplicates; simpl. rewrite <- app_assoc.
    eapply Permutation_trans; [apply Permutation_app_head, Permutation_app_comm|].
    rewrite app_assoc. apply Permutation_app_tail. exact H.
  - pose proof (flat_snd_append st.(duplicates_tracker) tr.(transition) tr) as Hd.
    destruct (getitem [] st.(duplicates_tracker) tr.(transition)) as [dups dtracker].
    unfold all_duplicates in *; simpl in *.
    eapply Permutation_trans; [apply Permutation_app_head, Hd|].
    eapply Permutation_trans; [symmetry; apply Permutation_middle|].
    eapply Permutation_trans; [apply Permutation_cons_append|].
    apply Permutation_app_tail. exact H.
Qed.

Lemma cap_fold_partition cap raw : forall done st,
  Permutation (st.(final_triplets) ++ all_duplicates st) done ->
  Permutation ((fold_left (cap_step cap) raw st).(final_triplets)
               ++ all_duplicates (fold_left (cap_step cap) raw st))
              (done ++ raw).
Proof.
  induction raw as [|tr raw IH]; intros done st H; simpl.
  - rewrite app_nil_r. exact H.
  - replace (done ++ tr :: raw) with ((done ++ [tr]) ++ raw)
      by (rewrite <- app_assoc; reflexivity).
    apply IH, cap_step_partition, H.
Qed.

Lemma cap_loop_partition cap raw :
  Permutation ((cap_loop cap raw).(final_triplets) ++ all_duplicates (cap_loop cap raw)) raw.
Proof. apply (cap_fold_partition cap raw [] cap_init). constructor. Qed.

Lemma subseq_length {A} (a b : list A) : subseq a b -> length a <= length b.
Proof. induction 1; simpl; lia. Qed.

Lemma subseq_same_length {A} (a b : list A) :
  subseq a b -> length a = length b -> a = b.
Proof.
  induction 1 as [|x a b Hs IH|x a b Hs IH]; simpl; intros Hl.
  - reflexivity.
  - apply subseq_length in Hs. lia.
  - f_equal. apply IH. lia.
Qed.

(** A dictionary in which no key is bound is empty. *)
Lemma get_all_None {V} (d : PyDict.t V) : (forall k, get d k = None) -> d = [].
Proof.
  destruct d as [|[k v] d]; [reflexivity|]. intros H. specialize (H k).
  simpl in H. rewrite str_eqb_refl in H. discriminate.
Qed.
End Partition.

(** ** Facts about first occurrences and about the counting loop *)

Lemma mem_In name l : mem name l = true <-> In name l.
Proof.
  unfold mem. rewrite existsb_exists. split.
  - intros (x & Hx & E). apply str_eqb_eq in E. subst. exact Hx.
  - intros H. exists name. split; [exact H | apply str_eqb_refl].
Qed.

Lemma mem_false name l : mem name l = false <-> ~ In name l.
Proof.
  rewrite <- mem_In. destruct (mem name l); split; congruence.
Qed.

Lemma filter_all_true {A} (f : A -> bool) (l : list A) :
  (forall x, In x l -> f x = true) -> filter f l = l.
Proof.
  induction l as [|x l IH]; simpl; intros H; [reflexivity|].
  rewrite H by (left; reflexivity). f_equal. apply IH. intros y Hy. apply H. right. exact Hy.
Qed.

Lemma filter_twice {A} (f g : A -> bool) (l : list A) :
  filter f (filter g l) = filter (fun x => g x && f x) l.
Proof.
  induction l as [|x l IH]; simpl; [reflexivity|].
  destruct (g x); simpl; [destruct (f x)|]; rewrite ?IH; reflexivity.
Qed.

Lemma first_seen_In x l : In x (first_seen l) <-> In x l.
Proof.
  induction l as [|y l IH]; simpl; [tauto|].
  rewrite filter_In, IH, negb_true_iff, str_eqb_neq.
  destruct (str_eq_dec y x); [tauto|]. split; [tauto|].
  intros [H|H]; [tauto|]. right. split; [exact H | congruence].
Qed.

Lemma first_seen_NoDup l : NoDup (first_seen l).
Proof.
  induction l as [|y l IH]; simpl; constructor.
  - rewrite filter_In, negb_true_iff, str_eqb_neq. tauto.
  - apply NoDup_filter, IH.
Qed.

Section Counting.
Import PyDict PyDictFacts.

Lemma count_step_get d tr T :
  get (count_step d tr) T
  = if str_eqb tr.(transition) T
    then Some (match get d T with Some n => n | None => 0%Z end + 1)%Z
    else get d T.
Proof.
  unfold count_step.
  pose proof (getitem_fst 0%Z d tr.(transition)) as Hf.
  pose proof (getitem_get 0%Z d tr.(transition) T) as Hg.
  destruct (getitem 0%Z d tr.(transition)) as [n d']. simpl in Hf, Hg.
  destruct (str_eqb tr.(transition) T) eqn:E.
  - apply str_eqb_eq in E. subst T. rewrite get_set_same, Hf. reflexivity.
  - apply str_eqb_neq in E. rewrite get_set_other by exact E. rewrite Hg.
    destruct (get d T); reflexivity.
Qed.

Lemma count_step_keys d tr :
  keys (count_step d tr)
  = if mem tr.(transition) (keys d) then keys d else keys d ++ [tr.(transition)].
Proof.
  unfold count_step, getitem.
  destruct (get d tr.(transition)) as [n|] eqn:E; simpl.
  - rewrite keys_set, E.
    replace (mem (transition tr) (keys d)) with true; [reflexivity|].
    symmetry. apply mem_In.
    destruct (in_dec str_eq_dec (transition tr) (keys d)) as [H|H]; [exact H|].
    apply get_None in H. congruence.
  - rewrite keys_set, get_set_same, keys_set, E.
    apply get_None in E. apply mem_false in E. rewrite E. reflexivity.
Qed.

Lemma count_fold_get raw : forall d T,
  get (fold_left count_step raw d) T
  = match length (occurrences T raw) with
    | O => get d T
    | S _ as n => Some (match get d T with Some m => m | None => 0%Z end + Z.of_nat n)%Z
    end.
Proof.
  induction raw as [|tr raw IH]; intros d T; simpl; [reflexivity|].
  rewrite IH, count_step_get.
  destruct (str_eqb tr.(transition) T); simpl; [|reflexivity].
  destruct (length (occurrences T raw)); f_equal; lia.
Qed.

Lemma count_fold_keys raw : forall d,
  keys (fold_left count_step raw d)
  = keys d ++ filter (fun T => negb (mem T (keys d))) (first_seen (map transition raw)).
Proof.
  induction raw as [|tr raw IH]; intros d; simpl.
  - rewrite app_nil_r. reflexivity.
  - rewrite IH, count_step_keys. rewrite filter_twice.
    destruct (mem tr.(transition) (keys d)) eqn:E; simpl.
    + f_equal. apply filter_ext_in. intros T _.
      destruct (str_eqb T tr.(transition)) eqn:ET; simpl; [|reflexivity].
      apply str_eqb_eq in ET. subst T. rewrite E. reflexivity.
    + rewrite <- app_assoc. simpl. do 2 f_equal. apply filter_ext_in. intros T _.
      unfold mem. rewrite existsb_app. simpl. rewrite orb_false_r.
      destruct (str_eqb T tr.(transition)); simpl;
        [rewrite orb_true_r | rewrite orb_false_r]; reflexivity.
Qed.

Lemma count_keys raw :
  keys (all_found_transitions_counts raw) = first_seen (map transition raw).
Proof.
  unfold all_found_transitions_counts. rewrite count_fold_keys. simpl.
  apply filter_all_true. reflexivity.
Qed.

Lemma count_get raw T :
  get (all_found_transitions_counts raw) T
  = if nonempty (occurrences T raw)
    then Some (Z.of_nat (length (occurrences T raw))) else None.
Proof.
  unfold all_found_transitions_counts. rewrite count_fold_get. simpl.
  destruct (occurrences T raw); reflexivity.
Qed.

Lemma count_entries raw T n :
  In (T, n) (all_found_transitions_counts raw) -> n = Z.of_nat (length (occurrences T raw)).
Proof.
  intros H. apply get_In in H; [|rewrite count_keys; apply first_seen_NoDup].
  rewrite count_get in H. destruct (nonempty (occurrences T raw)); congruence.
Qed.
End Counting.

Lemma occurrences_In T raw :
  occurrences T raw <> [] <-> In T (map transition raw).
Proof.
  unfold occurrences. rewrite in_map_iff. split.
  - intros H. destruct (filter _ raw) as [|tr l] eqn:E; [congruence|].
    assert (Hin : In tr (filter (fun tr => str_eqb (transition tr) T) raw))
      by (rewrite E; left; reflexivity).
    apply filter_In in Hin as [Hin Ht]. apply str_eqb_eq in Ht. exists tr. auto.
  - intros (tr & Ht & Hin) Hnil.
    assert (H : In tr (filter (fun tr => str_eqb (transition tr) T) raw)).
    { apply filter_In. split; [exact Hin | apply str_eqb_eq, Ht]. }
    rewrite Hnil in H. destruct H.
Qed.

(** ** Facts about sorting *)

Lemma insert_sorted_perm x l : Permutation (insert_sorted x l) (x :: l).
Proof.
  induction l as [|y l IH]; simpl; [reflexivity|].
  destruct (str_leb x y); [reflexivity|].
  eapply Permutation_trans; [apply perm_skip, IH | apply perm_swap].
Qed.

Lemma sorted_perm l : Permutation (sorted l) l.
Proof.
  induction l as [|x l IH]; simpl; [reflexivity|].
  eapply Permutation_trans; [apply insert_sorted_perm | apply perm_skip, IH].
Qed.

Lemma insert_sorted_sorted x l :
  StronglySorted str_le l -> StronglySorted str_le (insert_sorted x l).
Proof.
  induction l as [|y l IH]; simpl; intros Hs.
  - constructor; constructor.
  - inversion Hs as [|? ? Hl Hy]; subst.
    destruct (str_leb x y) eqn:E.
    + constructor; [exact Hs|]. constructor; [exact E|].
      eapply Forall_impl; [|exact Hy]. intros z Hz. unfold str_le in *.
      apply (str_leb_trans x y z); assumption.
    + constructor; [apply IH, Hl|].
      apply Forall_forall. intros z Hz.
      apply (Permutation_in _ (insert_sorted_perm x l)) in Hz.
      destruct Hz as [<-|Hz].
      * apply str_leb_false. exact E.
      * rewrite Forall_forall in Hy. apply Hy, Hz.
Qed.

Lemma sorted_sorted l : StronglySorted str_le (sorted l).
Proof.
  induction l as [|x l IH]; simpl; [constructor | apply insert_sorted_sorted, IH].
Qed.

(** ** Facts about the conditional writes *)

Section Writes.
Import PyDict PyDictFacts.






End Writes.

(** ** Facts about sums of occurrences *)

Lemma occurrences_cons T tr l :
  occurrences T (tr :: l)
  = if str_eqb tr.(transition) T then tr :: occurrences T l else occurrences T l.
Proof. reflexivity. Qed.

Lemma sum_indicator T0 Ts :
  NoDup Ts -> In T0 Ts ->
  list_sum (map (fun T => if str_eqb T0 T then 1 else 0) Ts) = 1.
Proof.
  induction Ts as [|T Ts IH]; simpl; intros Hnd Hin; [destruct Hin|].
  inversion Hnd as [|? ? Hnot Hnd']; subst.
  destruct (str_eqb T0 T) eqn:E.
  - apply str_eqb_eq in E. subst T. f_equal.
    clear IH Hin Hnd. induction Ts as [|T Ts IH]; simpl; [reflexivity|].
    inversion Hnd' ; subst.
    replace (str_eqb T0 T) with false.
    + apply IH; [intros H; apply Hnot; right; exact H | assumption].
    + symmetry. apply str_eqb_neq. intros ->. apply Hnot. left. reflexivity.
  - apply str_eqb_neq in E. destruct Hin as [->|Hin]; [congruence|]. simpl. auto.
Qed.

Lemma list_sum_add {A} (f g : A -> nat) l :
  list_sum (map (fun x => f x + g x) l) = list_sum (map f l) + list_sum (map g l).
Proof. induction l as [|x l IH]; simpl; [reflexivity | rewrite IH; lia]. Qed.

(** A list of triplets is as long as the occurrences of its transitions
    taken together. *)
Lemma length_by_transition (l : list triplet) (Ts : list str) :
  NoDup Ts -> (forall tr, In tr l -> In tr.(transition) Ts) ->
  length l = list_sum (map (fun T => length (occurrences T l)) Ts).
Proof.
  intros Hnd. induction l as [|tr l IH]; intros Hall.
  - clear Hnd Hall. induction Ts as [|T Ts IH]; simpl; [reflexivity | exact IH].
  - transitivity (list_sum (map (fun T => if str_eqb tr.(transition) T then 1 else 0) Ts)
                  + list_sum (map (fun T => length (occurrences T l)) Ts)).
    + rewrite (sum_indicator tr.(transition) Ts Hnd (Hall tr (or_introl eq_refl))).
      rewrite <- IH by (intros x Hx; apply Hall; right; exact Hx). reflexivity.
    + rewrite <- list_sum_add. f_equal. apply map_ext. intros T.
      rewrite occurrences_cons. destruct (str_eqb (transition tr) T); simpl; lia.
Qed.

Lemma list_sum_bound {A} (f : A -> nat) c l :
  (forall x, f x <= c) -> list_sum (map f l) <= c * length l.
Proof.
  intros H. induction l as [|x l IH]; simpl; [lia|]. specialize (H x). nia.
Qed.

Lemma subseq_In {A} (a b : list A) x : subseq a b -> In x a -> In x b.
Proof.
  induction 1; simpl; intros Hin; [exact Hin | right; auto |].
  destruct Hin; [left; assumption | right; auto].
Qed.

(** ** Facts about strip *)

Section StripFacts.
Context {U : Unicode}.

Lemma lstrip_head s :
  match lstrip s with [] => True | c :: _ => isspace c = false end.
Proof.
  induction s as [|c s IH]; simpl; [exact I|].
  destruct (isspace c) eqn:E; [exact IH | exact E].
Qed.

Lemma lstrip_suffix s : exists p, s = p ++ lstrip s.
Proof.
  induction s as [|c s [p IH]]; simpl.
  - exists []. reflexivity.
  - destruct (isspace c).
    + exists (c :: p). simpl. f_equal. exact IH.
    + exists []. reflexivity.
Qed.

Lemma lstrip_fixed s :
  match s with [] => True | c :: _ => isspace c = false end -> lstrip s = s.
Proof. destruct s as [|c s]; simpl; [reflexivity|]. intros ->. reflexivity. Qed.

Lemma rstrip_last s :
  match rev (rstrip s) with [] => True | c :: _ => isspace c = false end.
Proof. unfold rstrip. rewrite rev_involutive. apply lstrip_head. Qed.

Lemma rstrip_prefix s : exists q, s = rstrip s ++ q.
Proof.
  unfold rstrip. destruct (lstrip_suffix (rev s)) as [p Hp].
  exists (rev p). rewrite <- rev_app_distr, <- Hp, rev_involutive. reflexivity.
Qed.

Lemma rstrip_keeps_head s :
  match s with [] => True | c :: _ => isspace c = false end ->
  match rstrip s with [] => True | c :: _ => isspace c = false end.
Proof.
  intros Hs. destruct (rstrip_prefix s) as [q Hq].
  destruct (rstrip s) as [|c r]; [exact I|].
  rewrite Hq in Hs. exact Hs.
Qed.

(** The stripped text neither starts nor ends with whitespace. *)
Lemma strip_trimmed s : trimmed (strip s).
Proof.
  unfold trimmed, strip. split.
  - apply rstrip_keeps_head, lstrip_head.
  - apply rstrip_last.
Qed.

(** Stripping a trimmed text changes nothing. *)
Lemma trimmed_strip s : trimmed s -> strip s = s.
Proof.
  intros [Hh Hl]. unfold strip. rewrite (lstrip_fixed s Hh).
  unfold rstrip. rewrite (lstrip_fixed (rev s) Hl). apply rev_involutive.
Qed.

Lemma strip_idempotent s : strip (strip s) = strip s.
Proof. apply trimmed_strip, strip_trimmed. Qed.

(** What [strip] removes is whitespace only. *)
Lemma lstrip_removed s : exists p, s = p ++ lstrip s /\ forallb isspace p = true.
Proof.
  induction s as [|c s (p & IH & Hp)]; simpl.
  - exists []. auto.
  - destruct (isspace c) eqn:E.
    + exists (c :: p). simpl. rewrite E, Hp. split; [f_equal; exact IH | reflexivity].
    + exists []. auto.
Qed.

Lemma forallb_rev {A} (f : A -> bool) l : forallb f (rev l) = forallb f l.
Proof.
  induction l as [|x l IH]; simpl; [reflexivity|].
  rewrite forallb_app, IH. simpl. rewrite andb_true_r. apply andb_comm.
Qed.

Lemma strip_removed s :
  exists p q, s = p ++ strip s ++ q
              /\ forallb isspace p = true /\ forallb isspace q = true.
Proof.
  destruct (lstrip_removed s) as (p & Hp & Hps).
  destruct (lstrip_removed (rev (lstrip s))) as (q & Hq & Hqs).
  exists p, (rev q). unfold strip, rstrip. split; [|split].
  - rewrite <- rev_app_distr, <- Hq, rev_involutive. exact Hp.
  - exact Hps.
  - rewrite forallb_rev. exact Hqs.
Qed.
End StripFacts.

(** ** Where the matches lie *)

Lemma is_suffix_refl s : is_suffix s s.
Proof. exists []. reflexivity. Qed.

Lemma is_suffix_cons c rest s : is_suffix rest s -> is_suffix rest (c :: s).
Proof. intros [m ->]. exists (c :: m). reflexivity. Qed.

Lemma is_suffix_trans a b c : is_suffix a b -> is_suffix b c -> is_suffix a c.
Proof. intros [m ->] [n ->]. exists (n ++ m). rewrite app_assoc. reflexivity. Qed.

Lemma is_suffix_length rest s : is_suffix rest s -> length rest <= length s.
Proof. intros [m ->]. rewrite length_app. lia. Qed.

Section Spans.
Context {U : Unicode}.

(** A successful match ends in a success of the continuation on some
    rest of the text. *)
Lemma match_star_suffix k s cont x :
  match_star k s cont = Some x -> exists s', is_suffix s' s /\ cont s' = Some x.
Proof.
  induction s as [|c s IH]; simpl; intros H.
  - exists []. split; [apply is_suffix_refl | exact H].
  - destruct (class_matches k c).
    + destruct (match_star k s cont) as [r|] eqn:E.
      * destruct (IH H) as (s' & Hs & Hc).
        exists s'. split; [apply is_suffix_cons, Hs | exact Hc].
      * exists (c :: s). split; [apply is_suffix_refl | exact H].
    + exists (c :: s). split; [apply is_suffix_refl | exact H].
Qed.

Lemma match_atom_suffix a s cont x :
  match_atom a s cont = Some x -> exists s', is_suffix s' s /\ cont s' = Some x.
Proof.
  destruct a as [k|k]; simpl; [|apply match_star_suffix].
  destruct s as [|c s]; [discriminate|].
  destruct (class_matches k c); [|discriminate].
  intros H. exists s. split; [apply is_suffix_cons, is_suffix_refl | exact H].
Qed.

Lemma match_atoms_suffix l : forall s cont x,
  match_atoms l s cont = Some x -> exists s', is_suffix s' s /\ cont s' = Some x.
Proof.
  induction l as [|a l IH]; intros s cont x H; simpl in H.
  - exists s. split; [apply is_suffix_refl | exact H].
  - apply match_atom_suffix in H as (s1 & Hs1 & H).
    apply IH in H as (s2 & Hs2 & H).
    exists s2. split; [apply (is_suffix_trans _ _ _ Hs2 Hs1) | exact H].
Qed.

Lemma match_alts_suffix alts s cont x :
  match_alts alts s cont = Some x -> exists s', is_suffix s' s /\ cont s' = Some x.
Proof.
  induction alts as [|alt alts IH]; simpl; [discriminate|].
  destruct (match_atoms alt s cont) as [r|] eqn:E; [|exact IH].
  intros [= <-]. apply (match_atoms_suffix alt s cont r E).
Qed.

Lemma match_items_suffix r : forall s cont x,
  match_items r s cont = Some x -> exists s', is_suffix s' s /\ cont s' = Some x.
Proof.
  induction r as [|[a|alts] r IH]; intros s cont x H; simpl in H.
  - exists s. split; [apply is_suffix_refl | exact H].
  - apply match_atom_suffix in H as (s1 & Hs1 & H).
    apply IH in H as (s2 & Hs2 & H).
    exists s2. split; [apply (is_suffix_trans _ _ _ Hs2 Hs1) | exact H].
  - apply match_alts_suffix in H as (s1 & Hs1 & H).
    apply IH in H as (s2 & Hs2 & H).
    exists s2. split; [apply (is_suffix_trans _ _ _ Hs2 Hs1) | exact H].
Qed.

Lemma match_at_suffix r s must_advance rest :
  match_at r s must_advance = Some rest ->
  is_suffix rest s /\ (must_advance = true -> length rest < length s).
Proof.
  unfold match_at. intros H. apply match_items_suffix in H as (s' & Hs & H).
  pose proof (is_suffix_length _ _ Hs) as Hl.
  destruct must_advance; simpl in H.
  - destruct (length s' =? length s) eqn:E; [discriminate|].
    injection H as <-. apply Nat.eqb_neq in E. split; [exact Hs | lia].
  - injection H as <-. split; [exact Hs | discriminate].
Qed.

Lemma spans_within_weaken lo lo' hi l :
  lo <= lo' -> spans_within lo' hi l -> spans_within lo hi l.
Proof. destruct l as [|[a b] l]; simpl; intros; [lia | intuition lia]. Qed.

Lemma spans_within_app l1 : forall lo mid hi l2,
  spans_within lo mid l1 -> spans_within mid hi l2 -> spans_within lo hi (l1 ++ l2).
Proof.
  induction l1 as [|[a b] l1 IH]; intros lo mid hi l2 H1 H2; simpl in *.
  - apply (spans_within_weaken lo mid); assumption.
  - destruct H1 as (Ha & Hb & H1). repeat split; try assumption.
    apply (IH b mid); assumption.
Qed.

Lemma spans_within_In l : forall lo hi a b,
  spans_within lo hi l -> In (a, b) l -> lo <= a /\ a <= b /\ b <= hi.
Proof.
  induction l as [|[a0 b0] l IH]; intros lo hi a b H Hin; [destruct Hin|].
  simpl in H. destruct H as (Ha & Hb & H).
  assert (Hhi : b0 <= hi).
  { clear -H. revert b0 H. induction l as [|[a1 b1] l IHl]; simpl; intros b0 H; [exact H|].
    destruct H as (H1 & H2 & H3). specialize (IHl b1 H3). lia. }
  destruct Hin as [E|Hin].
  - injection E as <- <-. lia.
  - destruct (IH b0 hi a b H Hin) as (H1 & H2 & H3). lia.
Qed.

Lemma matches_here_within r s pos :
  spans_within pos (pos + snd (matches_here r s pos)) (fst (matches_here r s pos))
  /\ snd (matches_here r s pos) <= length s.
Proof.
  unfold matches_here.
  destruct (match_at r s false) as [rest|] eqn:E1; [|simpl; lia].
  apply match_at_suffix in E1 as [Hs1 _]. apply is_suffix_length in Hs1.
  destruct (length s - length rest =? 0) eqn:En.
  - destruct (match_at r s true) as [rest2|] eqn:E2; simpl; [|lia].
    apply match_at_suffix in E2 as [Hs2 _]. apply is_suffix_length in Hs2. lia.
  - simpl. lia.
Qed.

Lemma scan_within r s : forall pos skip,
  skip <= length s ->
  spans_within (pos + skip) (pos + length s) (scan r s pos skip).
Proof.
  induction s as [|c s IH]; intros pos skip Hskip.
  - simpl in Hskip. replace skip with 0 by lia. rewrite scan_attempt, app_nil_r.
    destruct (matches_here_within r [] pos) as [Hw Hn]. simpl in Hn.
    replace (snd (matches_here r [] pos)) with 0 in Hw by lia.
    cbn [length]. rewrite Nat.add_0_r in *. exact Hw.
  - destruct skip as [|k].
    + rewrite scan_attempt.
      destruct (matches_here_within r (c :: s) pos) as [Hw Hn].
      set (n := snd (matches_here r (c :: s) pos)) in *. simpl in Hn.
      rewrite Nat.add_0_r.
      apply (spans_within_app _ pos (pos + n)); [exact Hw|].
      apply (spans_within_weaken _ (S pos + (n - 1))); [lia|].
      replace (pos + length (c :: s)) with (S pos + length s) by (simpl; lia).
      apply IH. lia.
    + cbn [scan].
      replace (pos + S k) with (S pos + k) by lia.
      replace (pos + length (c :: s)) with (S pos + length s) by (simpl; lia).
      apply IH. simpl in Hskip. lia.
Qed.

(** The matches of [finditer] follow one another from left to right
    without overlap, inside the text. *)
Lemma finditer_within r text : spans_within 0 (length text) (finditer r text).
Proof. apply (scan_within r text 0 0). lia. Qed.
End Spans.

Lemma split_at_span (text : str) (a b : nat) :
  a <= b -> b <= length text ->
  text = firstn a text ++ substring text (a, b) ++ skipn b text.
Proof.
  intros Hab Hb. unfold substring. simpl fst. simpl snd.
  rewrite <- (firstn_skipn a text) at 1. f_equal.
  rewrite <- (firstn_skipn (b - a) (skipn a text)) at 1. f_equal.
  rewrite skipn_skipn. f_equal. lia.
Qed.

(** ** A phrase matches itself and its case variants *)

Section SelfMatch.
Context {U : Unicode}.

Lemma fullmatch_nil : fullmatch [] [] = true.
Proof. reflexivity. Qed.

Lemma fullmatch_lit c c' :
  lit_ignorecase c c' = true -> fullmatch [chunk_item (Lit c)] [c'] = true.
Proof. intros H. unfold fullmatch. simpl. rewrite H. reflexivity. Qed.

Lemma fullmatch_hole p :
  forallb (fun c => negb (c =? comma)%N) p = true ->
  fullmatch [chunk_item Hole] p = true.
Proof.
  intros Hp. apply fullmatch_true. cbn [chunk_item match_items match_atom].
  rewrite <- (app_nil_r p).
  rewrite (match_star_greedy (CNot comma) p [] _ Hp eq_refl).
  destruct (greedy_points_first p []) as [l ->]. simpl. discriminate.
Qed.

Lemma spec_body_cons_hole s : spec_body (placeholder ++ s) = [chunk_item Hole] ++ spec_body s.
Proof. unfold spec_body. rewrite chunks_hit. reflexivity. Qed.

Lemma spec_body_cons_lit c s :
  startswith placeholder (c :: s) = false ->
  spec_body (c :: s) = [chunk_item (Lit c)] ++ spec_body s.
Proof. intros H. unfold spec_body. rewrite chunks_miss by exact H. reflexivity. Qed.

Lemma spec_body_self (phrase : str) : fullmatch (spec_body phrase) phrase = true.
Proof.
  induction phrase as [|s IH|c s Hm IH] using phrase_ind.
  - reflexivity.
  - rewrite spec_body_cons_hole. apply fullmatch_app; [|exact IH].
    apply fullmatch_hole. reflexivity.
  - rewrite spec_body_cons_lit by exact Hm.
    apply (fullmatch_app _ _ [c] s); [|exact IH].
    apply fullmatch_lit, lit_ignorecase_refl.
Qed.

Lemma elision_group_plain : fullmatch [IGroup elision_alts] que = true.
Proof. rewrite fullmatch_ascii by (vm_compute; reflexivity). vm_compute. reflexivity. Qed.

(** The pattern of a phrase matches the phrase. *)
Lemma spec_regex_self (phrase : str) : fullmatch (spec_regex phrase) phrase = true.
Proof.
  unfold spec_regex. destruct (endswith phrase que) eqn:E; [|apply spec_body_self].
  apply endswith_split in E.
  set (stem := firstn (length phrase - length que) phrase) in *.
  clearbody stem. rewrite E. apply fullmatch_app; [apply spec_body_self | apply elision_group_plain].
Qed.

(** *** ASCII letters in either case *)







End SelfMatch.

(** ** What a match covers *)

Section Sound.
Context {U : Unicode}.

Lemma match_star_empty k tail cont :
  cont tail <> None -> match_star k tail cont <> None.
Proof.
  intros H. destruct tail as [|c tail]; simpl; [exact H|].
  destruct (class_matches k c); [|exact H].
  destruct (match_star k tail cont); [discriminate | exact H].
Qed.

(** A success of the matcher splits the text into a part that the
    pattern accepts before any continuation, and a rest on which the
    continuation succeeded. *)
Lemma match_star_sound k s cont x :
  match_star k s cont = Some x ->
  exists m s', s = m ++ s' /\ cont s' = Some x
    /\ forall cont' tail, cont' tail <> None -> match_star k (m ++ tail) cont' <> None.
Proof.
  induction s as [|c s IH]; simpl; intros H.
  - exists [], []. split; [reflexivity|]. split; [exact H|].
    intros cont' tail. apply match_star_empty.
  - assert (Hstop : cont (c :: s) = Some x ->
                    exists m s', c :: s = m ++ s' /\ cont s' = Some x
                      /\ forall cont' tail, cont' tail <> None ->
                                            match_star k (m ++ tail) cont' <> None).
    { intros Hc. exists [], (c :: s). split; [reflexivity|]. split; [exact Hc|].
      intros cont' tail. apply match_star_empty. }
    destruct (class_matches k c) eqn:Ek; [|exact (Hstop H)].
    destruct (match_star k s cont) as [r|] eqn:E; [|exact (Hstop H)].
    destruct (IH H) as (m & s' & -> & Hc & Hacc).
    exists (c :: m), s'. split; [reflexivity|]. split; [exact Hc|].
    intros cont' tail Ht. simpl. rewrite Ek.
    specialize (Hacc cont' tail Ht).
    destruct (match_star k (m ++ tail) cont'); [discriminate | contradiction].
Qed.

Lemma match_atom_sound a s cont x :
  match_atom a s cont = Some x ->
  exists m s', s = m ++ s' /\ cont s' = Some x
    /\ forall cont' tail, cont' tail <> None -> match_atom a (m ++ tail) cont' <> None.
Proof.
  destruct a as [k|k]; simpl; [|apply match_star_sound].
  destruct s as [|c s]; [discriminate|].
  destruct (class_matches k c) eqn:Ek; [|discriminate].
  intros H. exists [c], s. split; [reflexivity|]. split; [exact H|].
  intros cont' tail Ht. simpl. rewrite Ek. exact Ht.
Qed.

Lemma match_atoms_sound l : forall s cont x,
  match_atoms l s cont = Some x ->
  exists m s', s = m ++ s' /\ cont s' = Some x
    /\ forall cont' tail, cont' tail <> None -> match_atoms l (m ++ tail) cont' <> None.
Proof.
  induction l as [|a l IH]; intros s cont x H; simpl in H.
  - exists [], s. split; [reflexivity|]. split; [exact H|]. intros cont' tail Ht. exact Ht.
  - apply match_atom_sound in H as (m1 & s1 & -> & H & Hacc1).
    apply IH in H as (m2 & s2 & -> & H & Hacc2).
    exists (m1 ++ m2), s2. split; [apply app_assoc|]. split; [exact H|].
    intros cont' tail Ht. simpl. rewrite <- app_assoc.
    apply Hacc1, Hacc2, Ht.
Qed.

Lemma match_alts_sound alts s cont x :
  match_alts alts s cont = Some x ->
  exists m s', s = m ++ s' /\ cont s' = Some x
    /\ forall cont' tail, cont' tail <> None -> match_alts alts (m ++ tail) cont' <> None.
Proof.
  induction alts as [|alt alts IH]; simpl; [discriminate|].
  destruct (match_atoms alt s cont) as [r|] eqn:E.
  - intros [= <-]. apply match_atoms_sound in E as (m & s' & -> & H & Hacc).
    exists m, s'. split; [reflexivity|]. split; [exact H|].
    intros cont' tail Ht. specialize (Hacc cont' tail Ht).
    destruct (match_atoms alt (m ++ tail) cont'); [discriminate | contradiction].
  - intros H. apply IH in H as (m & s' & -> & H & Hacc).
    exists m, s'. split; [reflexivity|]. split; [exact H|].
    intros cont' tail Ht.
    destruct (match_atoms alt (m ++ tail) cont'); [discriminate | apply Hacc, Ht].
Qed.

Lemma match_items_sound r : forall s cont x,
  match_items r s cont = Some x ->
  exists m s', s = m ++ s' /\ cont s' = Some x
    /\ forall cont' tail, cont' tail <> None -> match_items r (m ++ tail) cont' <> None.
Proof.
  induction r as [|[a|alts] r IH]; intros s cont x H; simpl in H.
  - exists [], s. split; [reflexivity|]. split; [exact H|]. intros cont' tail Ht. exact Ht.
  - apply match_atom_sound in H as (m1 & s1 & -> & H & Hacc1).
    apply IH in H as (m2 & s2 & -> & H & Hacc2).
    exists (m1 ++ m2), s2. split; [apply app_assoc|]. split; [exact H|].
    intros cont' tail Ht. simpl. rewrite <- app_assoc.
    apply Hacc1, Hacc2, Ht.
  - apply match_alts_sound in H as (m1 & s1 & -> & H & Hacc1).
    apply IH in H as (m2 & s2 & -> & H & Hacc2).
    exists (m1 ++ m2), s2. split; [apply app_assoc|]. split; [exact H|].
    intros cont' tail Ht. simpl. rewrite <- app_assoc.
    apply Hacc1, Hacc2, Ht.
Qed.

(** The text consumed by a match at the head of [s] is a full match. *)
Lemma match_at_sound r s must_advance rest :
  match_at r s must_advance = Some rest ->
  exists m, s = m ++ rest /\ fullmatch r m = true.
Proof.
  unfold match_at. intros H. apply match_items_sound in H as (m & s' & -> & H & Hacc).
  assert (s' = rest) as ->.
  { destruct (must_advance && (length s' =? length (m ++ s'))); congruence. }
  exists m. split; [reflexivity|].
  apply fullmatch_true. rewrite <- (app_nil_r m). apply Hacc. discriminate.
Qed.

Lemma substring_head m rest : substring (m ++ rest) (0, length m) = m.
Proof.
  unfold substring. simpl. rewrite Nat.sub_0_r, firstn_app, Nat.sub_diag, firstn_all.
  simpl. apply app_nil_r.
Qed.

Lemma match_at_length r s must_advance rest :
  match_at r s must_advance = Some rest ->
  fullmatch r (substring s (0, length s - length rest)) = true.
Proof.
  intros H. apply match_at_sound in H as (m & -> & Hm).
  rewrite length_app, Nat.add_sub, substring_head. exact Hm.
Qed.

Lemma matches_here_sound r s pos a b :
  In (a, b) (fst (matches_here r s pos)) ->
  pos = a /\ fullmatch r (substring s (0, b - a)) = true.
Proof.
  unfold matches_here.
  destruct (match_at r s false) as [rest|] eqn:E1; [|intros []].
  pose proof (match_at_length _ _ _ _ E1) as H1.
  destruct (length s - length rest =? 0) eqn:En.
  - apply Nat.eqb_eq in En. rewrite En in H1.
    destruct (match_at r s true) as [rest2|] eqn:E2; simpl.
    + pose proof (match_at_length _ _ _ _ E2) as H2.
      intros [[= <- <-]|[[= <- <-]|[]]]; (split; [reflexivity|]).
      * rewrite Nat.sub_diag. exact H1.
      * rewrite Nat.add_comm, Nat.add_sub. exact H2.
    + intros [[= <- <-]|[]]. split; [reflexivity|]. rewrite Nat.sub_diag. exact H1.
  - simpl. intros [[= <- <-]|[]]. split; [reflexivity|].
    rewrite Nat.add_comm, Nat.add_sub. exact H1.
Qed.

Lemma substring_shift c s a b :
  substring (c :: s) (S a, S b) = substring s (a, b).
Proof. reflexivity. Qed.

Lemma scan_sound r s : forall pos skip a b,
  In (a, b) (scan r s pos skip) ->
  pos <= a /\ a <= b /\ fullmatch r (substring s (a - pos, b - pos)) = true.
Proof.
  induction s as [|c s IH]; intros pos skip a b Hin.
  - destruct skip; [|destruct Hin]. rewrite scan_attempt, app_nil_r in Hin.
    pose proof (spans_within_In _ _ _ _ _ (proj1 (matches_here_within r [] pos)) Hin)
      as (_ & Hab & _).
    apply matches_here_sound in Hin as [<- Hm]. split; [lia|]. split; [exact Hab|].
    rewrite Nat.sub_diag. unfold substring in *. simpl in *.
    destruct (b - pos - 0); exact Hm.
  - assert (Hrec : forall k, In (a, b) (scan r s (S pos) k) ->
              pos <= a /\ a <= b
              /\ fullmatch r (substring (c :: s) (a - pos, b - pos)) = true).
    { intros k Hk.
      destruct (IH _ _ _ _ Hk) as (Hle & Hab & Hm). split; [lia|]. split; [exact Hab|].
      replace (a - pos) with (S (a - S pos)) by lia.
      replace (b - pos) with (S (b - S pos)) by lia.
      rewrite substring_shift. exact Hm. }
    destruct skip as [|k]; [|exact (Hrec _ Hin)].
    rewrite scan_attempt in Hin. apply in_app_or in Hin as [Hin|Hin]; [|exact (Hrec _ Hin)].
    pose proof (spans_within_In _ _ _ _ _ (proj1 (matches_here_within r (c :: s) pos)) Hin)
      as (_ & Hab & _).
    apply matches_here_sound in Hin as [<- Hm]. split; [lia|]. split; [exact Hab|].
    rewrite Nat.sub_diag. exact Hm.
Qed.

(** Every span of [finditer] covers a text that the pattern matches in
    full. *)
Lemma finditer_sound r text a b :
  In (a, b) (finditer r text) -> fullmatch r (substring text (a, b)) = true.
Proof.
  intros H. apply scan_sound in H as (_ & _ & H). rewrite !Nat.sub_0_r in H. exact H.
Qed.
End Sound.

(** ** The compiled pattern and the texts a phrase stands for *)

Section AcceptsFacts.
Context {U : Unicode}.

Lemma match_star_consumed k s cont x :
  match_star k s cont = Some x ->
  exists m s', s = m ++ s' /\ forallb (class_matches k) m = true /\ cont s' = Some x.
Proof.
  induction s as [|c s IH]; simpl; intros H.
  - exists [], []. auto.
  - assert (Hstop : cont (c :: s) = Some x ->
                    exists m s', c :: s = m ++ s'
                                 /\ forallb (class_matches k) m = true /\ cont s' = Some x).
    { intros Hc. exists [], (c :: s). auto. }
    destruct (class_matches k c) eqn:Ek; [|exact (Hstop H)].
    destruct (match_star k s cont) as [r|] eqn:E; [|exact (Hstop H)].
    destruct (IH H) as (m & s' & -> & Hm & Hc).
    exists (c :: m), s'. simpl. rewrite Ek, Hm. auto.
Qed.

Lemma match_char_inv k s cont :
  match_atom (AChar k) s cont <> None ->
  exists c s', s = c :: s' /\ class_matches k c = true /\ cont s' <> None.
Proof.
  simpl. destruct s as [|c s]; [congruence|].
  destruct (class_matches k c) eqn:E; [|congruence].
  intros H. exists c, s. auto.
Qed.

Lemma body_sound ks : forall r text,
  fullmatch (map chunk_item ks ++ r) text = true ->
  exists parts t2,
    text = concat parts ++ t2 /\ Forall2 chunk_accepts ks parts /\ fullmatch r t2 = true.
Proof.
  induction ks as [|k ks IH]; intros r text H.
  - exists [], text. auto.
  - apply fullmatch_true in H. destruct k as [c|]; cbn [map app chunk_item match_items] in H.
    + apply match_char_inv in H as (c' & s' & -> & Hc & H).
      apply fullmatch_true, IH in H as (parts & t2 & -> & Hp & Hr).
      exists ([c'] :: parts), t2. split; [reflexivity|]. split; [|exact Hr].
      constructor; [|exact Hp]. exists c'. auto.
    + destruct (match_atom (AStar (CNot comma)) text
                  (fun s' => match_items (map chunk_item ks ++ r) s' at_end)) as [x|] eqn:E;
        [|congruence].
      cbn [match_atom] in E. apply match_star_consumed in E as (m & s' & -> & Hm & E).
      assert (Hs : fullmatch (map chunk_item ks ++ r) s' = true)
        by (apply fullmatch_true; rewrite E; discriminate).
      apply IH in Hs as (parts & t2 & -> & Hp & Hr).
      exists (m :: parts), t2. split; [simpl; apply app_assoc|]. split; [|exact Hr].
      constructor; [exact Hm | exact Hp].
Qed.

Lemma body_complete ks parts :
  Forall2 chunk_accepts ks parts -> fullmatch (map chunk_item ks) (concat parts) = true.
Proof.
  induction 1 as [|k part ks parts Hk _ IH]; [reflexivity|].
  change (map chunk_item (k :: ks)) with ([chunk_item k] ++ map chunk_item ks).
  cbn [concat]. apply fullmatch_app; [|exact IH].
  destruct k as [c|].
  - destruct Hk as (c' & -> & Hc). apply fullmatch_lit, Hc.
  - apply fullmatch_hole, Hk.
Qed.

Lemma fullmatch_nil_inv t : fullmatch [] t = true -> t = [].
Proof. destruct t; [reflexivity | discriminate]. Qed.

Lemma match_alts_two a1 a2 s cont :
  match_alts [a1; a2] s cont <> None ->
  match_atoms a1 s cont <> None \/ match_atoms a2 s cont <> None.
Proof.
  simpl. destruct (match_atoms a1 s cont); [left; discriminate|].
  destruct (match_atoms a2 s cont); [right; discriminate|].
  intros H. exfalso. apply H. reflexivity.
Qed.

Lemma at_end_inv s : at_end s <> None -> s = [].
Proof. destruct s; [reflexivity|]. simpl. intros H. exfalso. apply H. reflexivity. Qed.

Lemma ending_sound t : fullmatch [IGroup elision_alts] t = true -> ending_accepts t.
Proof.
  intros H. apply fullmatch_true in H. cbn [match_items] in H.
  apply match_alts_two in H as [H|H]; cbn [match_atoms] in H;
    apply match_char_inv in H as (s & t1 & -> & Hs & H);
    apply match_char_inv in H as (q & t2 & -> & Hq & H);
    apply match_char_inv in H as (u & t3 & -> & Hu & H);
    apply match_char_inv in H as (x & t4 & -> & Hx & H);
    exists s, q, u, (x :: t4); (split; [reflexivity|]);
    repeat (split; [assumption|]).
  - left. apply at_end_inv in H as ->. exists x. auto.
  - right. exists x, t4. split; [reflexivity|]. split; [exact Hx|].
    destruct (match_atom (AStar CWord) t4 at_end) as [r|] eqn:E; [|congruence].
    cbn [match_atom] in E. apply match_star_consumed in E as (m & s' & -> & Hm & E).
    assert (s' = []) as -> by (apply at_end_inv; rewrite E; discriminate).
    rewrite app_nil_r. exact Hm.
Qed.

Lemma ending_complete t : ending_accepts t -> fullmatch [IGroup elision_alts] t = true.
Proof.
  intros (s & q & u & rest & -> & Hs & Hq & Hu & [(e & -> & He)|(a & w & -> & Ha & Hw)]).
  - unfold fullmatch.
    cbn [match_items match_alts elision_alts match_atoms match_atom class_matches].
    rewrite Hs, Hq, Hu, He. reflexivity.
  - apply fullmatch_true.
    assert (H2 : match_atoms (nth 1 elision_alts []) (s :: q :: u :: a :: w) at_end <> None).
    { cbn [nth elision_alts match_atoms match_atom class_matches].
      rewrite Hs, Hq, Hu, Ha.
      rewrite <- (app_nil_r w).
      rewrite (match_star_greedy CWord w [] _ Hw eq_refl).
      destruct (greedy_points_first w []) as [l ->]. simpl. discriminate. }
    cbn [match_items match_alts elision_alts].
    cbn [nth elision_alts] in H2.
    match goal with
    | |- match ?a with Some _ => _ | None => _ end <> None => destruct a; [discriminate|]
    end.
    match goal with
    | |- match ?a with Some _ => _ | None => _ end <> None =>
      destruct a; [discriminate|]
    end.
    exfalso. apply H2. reflexivity.
Qed.

(** The compiled pattern of a phrase matches a text in full exactly when
    the phrase stands for that text. *)
Lemma spec_regex_accepts phrase text :
  fullmatch (spec_regex phrase) text = true <-> phrase_accepts phrase text.
Proof.
  unfold spec_regex, phrase_accepts, spec_body.
  destruct (endswith phrase que); split.
  - intros H. apply body_sound in H as (parts & t2 & -> & Hp & Hr).
    exists (concat parts), t2. split; [reflexivity|].
    split; [exists parts; auto | apply ending_sound, Hr].
  - intros (t1 & t2 & -> & (parts & -> & Hp) & Ht2).
    apply fullmatch_app; [apply body_complete, Hp | apply ending_complete, Ht2].
  - intros H. rewrite <- (app_nil_r (map chunk_item (chunks phrase))) in H.
    apply body_sound in H as (parts & t2 & -> & Hp & Hr).
    apply fullmatch_nil_inv in Hr as ->. rewrite app_nil_r. exists parts. auto.
  - intros (parts & -> & Hp). apply body_complete, Hp.
Qed.
End AcceptsFacts.

(** *** Phrases without placeholder *)



(** ** The shape of the articles *)

Section WellFormed.
Context {U : Unicode}.

(** Every line of every block is a trimmed paragraph of the document
    that is kept. *)
Lemma block_line paragraphs block l :
  In block (raw_blocks paragraphs) -> In l block ->
  kept_line l = true /\ exists para, In para paragraphs /\ l = strip para.
Proof.
  intros Hb Hl. destruct (raw_blocks_spec paragraphs) as [_ Hcat].
  assert (Hin : In l (concat (raw_blocks paragraphs)))
    by (apply in_concat; exists block; auto).
  rewrite Hcat in Hin. apply filter_In in Hin as [Hin Hk]. split; [exact Hk|].
  apply in_map_iff in Hin as (para & <- & Hp). exists para. auto.
Qed.

Lemma kept_line_inv l : kept_line l = true -> contains marker l = false /\ l <> [].
Proof.
  unfold kept_line. intros H. apply andb_true_iff in H as [H1 H2].
  apply negb_true_iff in H1. apply nonempty_true in H2. auto.
Qed.

Lemma restrip_lines (lines : list str) :
  Forall (fun l => trimmed l /\ l <> []) lines ->
  map strip (filter (fun t => nonempty (strip t)) lines) = lines.
Proof.
  induction 1 as [|l lines [Ht Hne] _ IH]; [reflexivity|].
  simpl. rewrite (trimmed_strip l Ht).
  apply nonempty_true in Hne. rewrite Hne. simpl.
  rewrite (trimmed_strip l Ht), IH. reflexivity.
Qed.

Lemma block_articles_In block art :
  In art (block_articles block) ->
  exists narrative t rest,
    block = narrative :: t :: rest
    /\ art = {| narrative_paragraph := narrative;
                transitions_list :=
                  map strip (filter (fun t => nonempty (strip t)) (t :: rest)) |}.
Proof.
  destruct block as [|n [|t rest]]; simpl; try tauto.
  intros [<-|[]]. exists n, t, rest. auto.
Qed.

Lemma block_articles_length block : length (block_articles block) <= 1.
Proof. destruct block as [|n [|t rest]]; simpl; lia. Qed.

Lemma flat_map_block_articles_length blocks :
  length (flat_map block_articles blocks) <= length blocks.
Proof.
  induction blocks as [|b blocks IH]; simpl; [lia|].
  rewrite length_app. pose proof (block_articles_length b). lia.
Qed.

(** *** Markers and blocks *)

Lemma marker_lines_snoc paragraphs para :
  marker_lines (paragraphs ++ [para])
  = marker_lines paragraphs + (if contains marker (strip para) then 1 else 0).
Proof.
  unfold marker_lines. rewrite filter_app, length_app. simpl.
  destruct (contains marker (strip para)); reflexivity.
Qed.

Lemma seg_loop_blocks paragraphs :
  length (fst (seg_loop paragraphs)) <= marker_lines paragraphs.
Proof.
  induction paragraphs as [|para paragraphs IH] using rev_ind; [simpl; lia|].
  rewrite seg_loop_snoc, marker_lines_snoc.
  destruct (seg_loop paragraphs) as [blocks cur]. unfold seg_step. simpl in IH.
  destruct (contains marker (strip para)).
  - destruct (nonempty cur); simpl; rewrite ?length_app; simpl; lia.
  - destruct (nonempty (strip para)); simpl; lia.
Qed.

Lemma raw_blocks_length paragraphs :
  length (raw_blocks paragraphs) <= Datatypes.S (marker_lines paragraphs).
Proof.
  unfold raw_blocks. pose proof (seg_loop_blocks paragraphs) as H.
  destruct (seg_loop paragraphs) as [blocks cur]. simpl in *.
  destruct (nonempty cur); rewrite ?length_app; simpl; lia.
Qed.

Lemma articles_of_length paragraphs :
  length (articles_of (Some paragraphs)) <= marker_lines paragraphs.
Proof.
  unfold articles_of.
  pose proof (flat_map_block_articles_length (skipn 1 (raw_blocks paragraphs))) as H.
  pose proof (raw_blocks_length paragraphs) as H2.
  rewrite length_skipn in H. lia.
Qed.

(** *** Markers and blank paragraphs that change nothing *)

Lemma seg_loop_app a b :
  seg_loop (a ++ b) = fold_left seg_step b (seg_loop a).
Proof. unfold seg_loop. apply fold_left_app. Qed.

Lemma seg_step_blank st para : strip para = [] -> seg_step st para = st.
Proof.
  intros H. unfold seg_step. destruct st as [blocks cur]. rewrite H.
  rewrite contains_marker_nil. reflexivity.
Qed.

Lemma seg_step_marker_twice st m1 m2 :
  contains marker (strip m1) = true -> contains marker (strip m2) = true ->
  seg_step (seg_step st m1) m2 = seg_step st m1.
Proof.
  intros H1 H2. unfold seg_step. destruct st as [blocks cur]. rewrite H1, H2.
  reflexivity.
Qed.

Lemma seg_step_marker_first m :
  contains marker (strip m) = true -> seg_step ([], []) m = ([], []).
Proof. intros H. unfold seg_step. rewrite H. reflexivity. Qed.

Lemma seg_finish_marker st m :
  contains marker (strip m) = true -> seg_finish (seg_step st m) = seg_finish st.
Proof.
  intros H. unfold seg_step, seg_finish. destruct st as [blocks cur]. rewrite H.
  destruct (nonempty cur); reflexivity.
Qed.
End WellFormed.

(** ** Where articles and triplets come from *)

Section Provenance.
Context {U : Unicode}.

Lemma In_skipn_1 {A} (x : A) l : In x (skipn 1 l) -> In x l.
Proof. destruct l; simpl; auto. Qed.

(** An article is a whole block: the second trimming and the second
    filter of the parser change nothing. *)
Lemma articles_of_In paragraphs art :
  In art (articles_of (Some paragraphs)) ->
  In (art.(narrative_paragraph) :: art.(transitions_list))
     (skipn 1 (raw_blocks paragraphs))
  /\ art.(transitions_list) <> []
  /\ Forall (fun l => l <> [] /\ trimmed l /\ contains marker l = false
                      /\ exists para, In para paragraphs /\ l = strip para)
            (art.(narrative_paragraph) :: art.(transitions_list)).
Proof.
  unfold articles_of. intros Hin. apply in_flat_map in Hin as (block & Hb & Hart).
  apply block_articles_In in Hart as (n & t & rest & -> & ->).
  assert (Hlines : Forall (fun l => l <> [] /\ trimmed l /\ contains marker l = false
                                    /\ exists para, In para paragraphs /\ l = strip para)
                          (n :: t :: rest)).
  { apply Forall_forall. intros l Hl.
    destruct (block_line paragraphs _ l (In_skipn_1 _ _ Hb) Hl) as (Hk & para & Hp & ->).
    apply kept_line_inv in Hk as [Hm Hne].
    split; [exact Hne|]. split; [apply strip_trimmed|]. split; [exact Hm|].
    exists para. auto. }
  assert (Hre : map strip (filter (fun t => nonempty (strip t)) (t :: rest)) = t :: rest).
  { apply restrip_lines. inversion Hlines as [|? ? _ Htl]; subst.
    apply Forall_forall. intros l Hl.
    rewrite Forall_forall in Htl. destruct (Htl l Hl) as (Hne & Ht & _). auto. }
  cbn [narrative_paragraph transitions_list]. rewrite Hre.
  split; [exact Hb|]. split; [discriminate | exact Hlines].
Qed.

Lemma transition_triplets_split narrative t tr :
  In tr (transition_triplets narrative t) ->
  tr.(transition) = t
  /\ exists before matched after,
      narrative = before ++ matched ++ after
      /\ phrase_accepts t matched
      /\ tr.(paragraph_a) = strip before
      /\ tr.(paragraph_b) = strip after.
Proof.
  intros Hin.
  apply transition_triplets_In in Hin as (Ht & _ & [a b] & Hspan & ->).
  split; [reflexivity|].
  pose proof (spans_within_In _ _ _ _ _ (finditer_within _ narrative) Hspan)
    as (_ & Hab & Hb).
  exists (firstn a narrative), (substring narrative (a, b)), (skipn b narrative).
  split; [apply split_at_span; assumption|].
  split; [|split; reflexivity].
  apply spec_regex_accepts, finditer_sound, Hspan.
Qed.

Lemma unique_transitions_In {S : SetOrder} final T :
  In T (unique_transitions final) <-> In T (map transition final).
Proof.
  unfold unique_transitions.
  pose proof (sorted_perm (list_of_set (map transition final))) as Hperm.
  split; intros H.
  - apply list_of_set_In. apply (Permutation_in _ Hperm H).
  - apply (Permutation_in _ (Permutation_sym Hperm)). apply list_of_set_In. exact H.
Qed.
End Provenance.

(** ** The usage capper *)

Lemma cap_loop_accepted cap raw T :
  occurrences T (cap_loop cap raw).(final_triplets)
  = firstn (Z.to_nat cap) (occurrences T raw).
Proof. apply (cap_loop_inv cap raw). Qed.

Lemma cap_loop_usage cap raw T :
  usage_of (cap_loop cap raw) T
  = Z.of_nat (length (occurrences T (cap_loop cap raw).(final_triplets))).
Proof.
  destruct (cap_loop_inv cap raw) as (Hfin & Huse & _).
  rewrite Huse, Hfin, length_firstn. f_equal. lia.
Qed.

Lemma cap_loop_rejected cap raw T :
  duplicates_of (cap_loop cap raw) T = skipn (Z.to_nat cap) (occurrences T raw).
Proof.
  destruct (cap_loop_inv cap raw) as (_ & _ & Hdup & _).
  unfold duplicates_of. rewrite Hdup.
  destruct (Z.to_nat cap <? length (occurrences T raw)) eqn:E; [reflexivity|].
  apply Nat.ltb_ge in E. symmetry. apply skipn_all2. exact E.
Qed.

Lemma cap_loop_reported cap raw T :
  In T (PyDict.keys (cap_loop cap raw).(duplicates_tracker))
  <-> Z.to_nat cap < length (occurrences T raw).
Proof.
  destruct (cap_loop_inv cap raw) as (_ & _ & Hdup & _).
  specialize (Hdup T).
  destruct (Z.to_nat cap <? length (occurrences T raw)) eqn:E.
  - apply Nat.ltb_lt in E. split; [intros _; exact E|intros _].
    destruct (in_dec str_eq_dec T (PyDict.keys (cap_loop cap raw).(duplicates_tracker)))
      as [Hin|Hnin]; [exact Hin|].
    apply PyDictFacts.get_None in Hnin. congruence.
  - apply Nat.ltb_ge in E. apply PyDictFacts.get_None in Hdup. split; [tauto | lia].
Qed.

(** Outside the capper's domain: a cap below zero accepts nothing, every
    raw triplet is a duplicate. *)
Lemma cap_below_zero cap raw T :
  (cap < 0)%Z ->
  occurrences T (cap_loop cap raw).(final_triplets) = []
  /\ duplicates_of (cap_loop cap raw) T = occurrences T raw.
Proof.
  intros Hneg. rewrite cap_loop_accepted, cap_loop_rejected.
  replace (Z.to_nat cap) with 0 by lia. auto.
Qed.

Lemma flat_map_singletons {A B} (f : A -> list B) (g : A -> B) (l : list A) :
  (forall x, In x l -> f x = [g x]) -> flat_map f l = map g l.
Proof.
  induction l as [|x l IH]; simpl; intros H; [reflexivity|].
  rewrite H by (left; reflexivity). simpl. f_equal.
  apply IH. intros y Hy. apply H. right. exact Hy.
Qed.

(** C1.  For every transition [T] and every cap in the capper's domain
    (a cap that is not negative), once the capping loop has processed the
    whole ordered sequence of raw triplets: the number of accepted triplets
    with transition [T] is [min (total, cap)], which is also what the usage
    tracker holds for [T]; the number of triplets in [duplicates[T]] is
    [max (0, total - cap)]; the accepted ones are the first [cap]
    occurrences of [T] in raw order and the rejected ones are the remaining
    occurrences, both in their original relative order, the accepted list
    as a whole being a subsequence of the raw sequence.  In particular,
    with cap 3 and five occurrences, the first three are accepted and the
    last two are the duplicates. *)
Theorem usage_capper_counts (raw : list triplet) (cap : Z) (T : str) :
  (0 <= cap)%Z ->
  let st := cap_loop cap raw in
  let total := occurrences T raw in
  let accepted := occurrences T st.(final_triplets) in
  let rejected := duplicates_of st T in
  Z.of_nat (length accepted) = Z.min (Z.of_nat (length total)) cap
  /\ Z.of_nat (length rejected) = Z.max 0 (Z.of_nat (length total) - cap)
  /\ usage_of st T = Z.of_nat (length accepted)
  /\ accepted = firstn (Z.to_nat cap) total
  /\ rejected = skipn (Z.to_nat cap) total
  /\ accepted ++ rejected = total
  /\ subseq st.(final_triplets) raw
  /\ subseq rejected raw
  /\ (cap = 3%Z -> length total = 5 ->
      exists t1 t2 t3 t4 t5,
        total = [t1; t2; t3; t4; t5]
        /\ accepted = [t1; t2; t3] /\ rejected = [t4; t5]).
Proof.
  intros Hcap st total accepted rejected.
  assert (Ha : accepted = firstn (Z.to_nat cap) total) by apply cap_loop_accepted.
  assert (Hr : rejected = skipn (Z.to_nat cap) total) by apply cap_loop_rejected.
  repeat match goal with |- _ /\ _ => split end.
  - rewrite Ha, length_firstn. lia.
  - rewrite Hr, length_skipn. lia.
  - apply cap_loop_usage.
  - exact Ha.
  - exact Hr.
  - rewrite Ha, Hr. apply firstn_skipn.
  - apply (cap_loop_inv cap raw).
  - rewrite Hr. eapply subseq_trans; [apply subseq_skipn|].
    apply subseq_filter.
  - intros -> Hlen. rewrite Ha, Hr.
    destruct total as [|t1 [|t2 [|t3 [|t4 [|t5 [|t6 total]]]]]]; try discriminate.
    exists t1, t2, t3, t4, t5. repeat split.
Qed.

(** C1 at the sample: cap 3, the transition of five of eight raw triplets. *)
Lemma usage_capper_counts_witness :
  Z.of_nat (length (occurrences (ustr "donc") (cap_loop 3 sample_raw).(final_triplets))) = 3%Z
  /\ exists t1 t2 t3 t4 t5,
       occurrences (ustr "donc") sample_raw = [t1; t2; t3; t4; t5]
       /\ occurrences (ustr "donc") (cap_loop 3 sample_raw).(final_triplets) = [t1; t2; t3]
       /\ duplicates_of (cap_loop 3 sample_raw) (ustr "donc") = [t4; t5].
Proof.
  pose proof (usage_capper_counts sample_raw 3 (ustr "donc") ltac:(lia)) as H.
  cbv zeta in H.
  split.
  - exact (proj1 H).
  - apply H; reflexivity.
Defined.

(** C8.  For a cap that is not negative, the cap-exceeded report has one
    line for each key of the duplicates tracker, in the tracker's order;
    the keys are pairwise distinct and are the transitions whose number of
    occurrences among the raw triplets exceeds the cap; the line of [T]
    reads [Transition: 'T' used <total> times (exceeded by <excess>)] with
    <total> the accepted count plus the duplicate count of [T], which is
    its number of raw occurrences, and <excess> the duplicate count. *)
Theorem cap_exceeded_report (raw : list triplet) (cap : Z) :
  (0 <= cap)%Z ->
  let st := cap_loop cap raw in
  let reported := PyDict.keys st.(duplicates_tracker) in
  let accepted T := Z.of_nat (length (occurrences T st.(final_triplets))) in
  let excess T := Z.of_nat (length (duplicates_of st T)) in
  NoDup reported
  /\ (forall T, In T reported <-> (cap < Z.of_nat (length (occurrences T raw)))%Z)
  /\ rejected_fewshots_content st
     = map (fun T => cap_exceeded_line T (accepted T + excess T) (excess T)) reported
  /\ (forall T, (accepted T + excess T)%Z = Z.of_nat (length (occurrences T raw))).
Proof.
  intros Hcap st reported accepted excess.
  pose proof (cap_loop_inv cap raw) as (Hfin & Huse & Hdup & Hnd & Hsub).
  fold st in Hfin, Huse, Hdup, Hnd.
  split; [exact Hnd|]. split; [|split].
  - intros T. unfold reported, st. rewrite cap_loop_reported. lia.
  - unfold rejected_fewshots_content, reported, PyDict.keys.
    assert (Hall : forall e, In e st.(duplicates_tracker) ->
              rejected_line st.(transition_usage_tracker) e
              = [cap_exceeded_line (fst e) (accepted (fst e) + excess (fst e))
                                   (excess (fst e))]).
    { intros [T l] Hin. simpl fst.
      apply (PyDictFacts.get_In _ _ _ Hnd) in Hin.
      assert (Hl : duplicates_of st T = l) by (unfold duplicates_of; rewrite Hin; reflexivity).
      assert (Hne : nonempty l = true).
      { rewrite Hdup in Hin.
        destruct (Z.to_nat cap <? length (occurrences T raw)) eqn:E; [|discriminate].
        apply Nat.ltb_lt in E. injection Hin as <-.
        apply nonempty_true. intros Hnil.
        apply (f_equal (@length _)) in Hnil. rewrite length_skipn in Hnil.
        simpl in Hnil. lia. }
      unfold rejected_line. rewrite Hne, PyDictFacts.getitem_fst.
      change (match PyDict.get (transition_usage_tracker st) T with
              | Some v => v | None => 0%Z end) with (usage_of st T).
      unfold excess, accepted. rewrite Hl. unfold st at 1.
      rewrite cap_loop_usage. reflexivity. }
    rewrite map_map. apply flat_map_singletons. exact Hall.
  - intros T. unfold accepted, excess, st.
    rewrite cap_loop_accepted, cap_loop_rejected, <- Nat2Z.inj_add, <- length_app,
      firstn_skipn. reflexivity.
Qed.

(** C8 at the sample: with cap 3 only the transition used five times is
    reported. *)
Lemma cap_exceeded_report_witness :
  rejected_fewshots_content (cap_loop 3 sample_raw)
  = [ustr "Transition: 'donc' used 5 times (exceeded by 2)"].
Proof.
  pose proof (cap_exceeded_report sample_raw 3 ltac:(lia)) as H.
  cbv zeta in H. destruct H as (_ & _ & H & _).
  rewrite H. reflexivity.
Defined.

(** ** The segmenter and the article parser *)

(** C5.  The paragraph loop, seen after any prefix of the document with
    accumulated blocks [fst st] and accumulator [snd st]: a line that
    contains the marker pushes the accumulator iff it is non-empty and
    resets it; any other non-empty line is appended to the accumulator; an
    empty line changes nothing; at the end a non-empty accumulator is
    pushed as the last block.  Hence no block is empty, no block holds a
    marker line or an empty line, and the blocks laid end to end are the
    trimmed lines of the document that are neither, in document order. *)
Theorem document_segmenter_behaviour {U : Unicode} (paragraphs : list str) (para : str) :
  let st := seg_loop paragraphs in
  let text := strip para in
  (contains marker text = true ->
   seg_loop (paragraphs ++ [para])
   = (if nonempty (snd st) then fst st ++ [snd st] else fst st, []))
  /\ (contains marker text = false -> nonempty text = true ->
      seg_loop (paragraphs ++ [para]) = (fst st, snd st ++ [text]))
  /\ (nonempty text = false -> seg_loop (paragraphs ++ [para]) = st)
  /\ raw_blocks paragraphs = (if nonempty (snd st) then fst st ++ [snd st] else fst st)
  /\ Forall (fun block => block <> [] /\ Forall (fun l => kept_line l = true) block)
            (raw_blocks paragraphs)
  /\ concat (raw_blocks paragraphs) = filter kept_line (map strip paragraphs).
Proof.
  intros st text.
  assert (Hstep : seg_loop (paragraphs ++ [para]) = seg_step st para)
    by apply seg_loop_snoc.
  rewrite Hstep. unfold seg_step. fold text.
  destruct st as [blocks cur] eqn:Est; simpl fst; simpl snd.
  repeat match goal with |- _ /\ _ => split end.
  - intros ->. reflexivity.
  - intros -> ->. reflexivity.
  - intros Hempty. apply nonempty_false in Hempty. rewrite Hempty.
    rewrite contains_marker_nil. reflexivity.
  - unfold raw_blocks. fold st. rewrite Est. reflexivity.
  - apply raw_blocks_spec.
  - apply raw_blocks_spec.
Qed.

(** C5 at the sample document: its third line holds the marker and closes
    the preamble. *)
Lemma document_segmenter_behaviour_witness :
  seg_loop (U := ascii_tables) (firstn 3 sample_doc)
  = ([[ustr "Titre du jour"]], []).
Proof.
  exact (proj1 (document_segmenter_behaviour (U := ascii_tables)
                  (firstn 2 sample_doc)
                  (ustr "  À savoir également dans votre département :"))
               eq_refl).
Defined.

(** C6.  The block at index 0 never becomes an article: the articles do
    not depend on it, whatever its length and content; every article is
    the article of a block at an index of at least 1, also for the blocks
    of a whole document; and fewer than two blocks give no article. *)
Theorem first_block_never_article {U : Unicode} :
  (forall b0 b0' rest, parse_articles (b0 :: rest) = parse_articles (b0' :: rest))
  /\ (forall blocks arts art,
        parse_articles blocks = Ok arts -> In art arts ->
        exists i block, 1 <= i /\ nth_error blocks i = Some block
                        /\ parse_block block = Ok (Some art))
  /\ (forall doc arts art,
        extract_articles_from_docx doc = Ok arts -> In art arts ->
        exists paragraphs i block,
          doc = Some paragraphs /\ 1 <= i
          /\ nth_error (raw_blocks paragraphs) i = Some block
          /\ parse_block block = Ok (Some art))
  /\ (forall blocks, length blocks < 2 -> parse_articles blocks = Ok []).
Proof.
  assert (Hprov : forall blocks arts art,
             parse_articles blocks = Ok arts -> In art arts ->
             exists i block, 1 <= i /\ nth_error blocks i = Some block
                             /\ parse_block block = Ok (Some art)).
  { intros blocks arts art Hp Hin. rewrite parse_articles_spec in Hp.
    injection Hp as <-. apply in_flat_map in Hin as (block & Hb & Hart).
    destruct blocks as [|b0 blocks]; [destruct Hb|]. simpl in Hb.
    apply In_nth_error in Hb as [i Hi]. exists (S i), block.
    split; [lia|]. split; [exact Hi|].
    rewrite parse_block_total.
    destruct (block_articles block) as [|a l] eqn:E; [destruct Hart|].
    destruct block as [|n [|t block]]; try discriminate.
    injection E as <- <-. destruct Hart as [<-|[]]. reflexivity. }
  split; [|split; [exact Hprov|split]].
  - intros b0 b0' rest. rewrite !parse_articles_spec. reflexivity.
  - intros [paragraphs|] arts art Hp Hin; simpl in Hp.
    + destruct (Hprov _ _ _ Hp Hin) as (i & block & Hi & Hnth & Hb).
      exists paragraphs, i, block. auto.
    + injection Hp as <-. destruct Hin.
  - intros blocks Hlen. rewrite parse_articles_spec.
    destruct blocks as [|b0 [|b1 blocks]]; simpl in *; try reflexivity; lia.
Qed.

(** C6 at the sample document: its only article comes from the block at
    index 1. *)
Lemma first_block_never_article_witness :
  exists paragraphs i block,
    Some sample_doc = Some paragraphs /\ 1 <= i
    /\ nth_error (raw_blocks (U := ascii_tables) paragraphs) i = Some block
    /\ parse_block (U := ascii_tables) block
       = Ok (Some {| narrative_paragraph := ustr "Il pleut. Donc on reste, donc on lit.";
                     transitions_list := [ustr "Donc"; ustr "donc"] |}).
Proof.
  refine (proj1 (proj2 (proj2 (first_block_never_article (U := ascii_tables))))
                (Some sample_doc) _ _ _ _).
  - vm_compute. reflexivity.
  - left. reflexivity.
Defined.

(** C7.  A block of fewer than two lines yields no article and no error:
    its iteration is a [continue]; the articles are the same as without
    it, the blocks around it being processed in order; and the parser
    raises on no list of blocks, giving the articles of the blocks after
    the first, block by block. *)
Theorem short_block_skipped {U : Unicode} (b0 : list str) (before after : list (list str))
        (block : list str) :
  length block < 2 ->
  parse_block block = Ok None
  /\ parse_articles (b0 :: before ++ block :: after)
     = parse_articles (b0 :: before ++ after)
  /\ parse_articles (b0 :: before ++ block :: after)
     = Ok (flat_map block_articles before ++ flat_map block_articles after)
  /\ forall blocks, parse_articles blocks = Ok (flat_map block_articles (skipn 1 blocks)).
Proof.
  intros Hlen.
  split; [|split; [|split]].
  - rewrite parse_block_total, block_articles_short by exact Hlen. reflexivity.
  - rewrite !parse_articles_spec. simpl. rewrite !flat_map_app. simpl.
    rewrite block_articles_short by exact Hlen. reflexivity.
  - rewrite parse_articles_spec. simpl. rewrite flat_map_app. simpl.
    rewrite block_articles_short by exact Hlen. reflexivity.
  - apply parse_articles_spec.
Qed.

(** C7 at the sample document, whose last block has one line. *)
Lemma short_block_skipped_witness :
  parse_block (U := ascii_tables) [ustr "Un bloc d'une seule ligne"] = Ok None
  /\ extract_articles_from_docx (U := ascii_tables) (Some sample_doc)
     = extract_articles_from_docx (U := ascii_tables) (Some (firstn 8 sample_doc)).
Proof.
  pose proof (short_block_skipped (U := ascii_tables) [ustr "Titre du jour"]
                [[ustr "Il pleut. Donc on reste, donc on lit."; ustr "Donc"; ustr "donc"]]
                [] [ustr "Un bloc d'une seule ligne"] ltac:(simpl; lia)) as (H1 & H2 & _).
  split; [exact H1 | exact H2].
Defined.

(** ** The pattern builder and the triplet extractor *)

Section ElisionGroup.
Context {U : Unicode}.

Lemma elision_group_que : fullmatch [IGroup elision_alts] que = true.
Proof. rewrite fullmatch_ascii by (vm_compute; reflexivity). vm_compute. reflexivity. Qed.

Lemma elision_group_contracted w :
  forallb (class_matches CWord) w = true ->
  fullmatch [IGroup elision_alts] (ustr " qu'" ++ w) = true.
Proof.
  intros Hw. apply fullmatch_true.
  assert (H2 : match_atoms (nth 1 elision_alts []) (ustr " qu'" ++ w) at_end <> None).
  { change (ustr " qu'" ++ w) with (32%N :: 113%N :: 117%N :: 39%N :: w).
    cbn [nth elision_alts match_atoms match_atom class_matches].
    rewrite isspace_ascii by reflexivity.
    change (ascii_isspace 32%N) with true. cbv iota.
    rewrite !lit_ignorecase_refl.
    rewrite <- (app_nil_r w).
    rewrite (match_star_greedy CWord w [] _ Hw eq_refl).
    destruct (greedy_points_first w []) as [l ->]. simpl. discriminate. }
  cbn [match_items match_alts elision_alts].
  cbn [nth elision_alts] in H2.
  match goal with
  | |- match ?a with Some _ => _ | None => _ end <> None => destruct a; [discriminate|]
  end.
  match goal with
  | |- match ?a with Some _ => _ | None => _ end <> None =>
    destruct a; [discriminate|]
  end.
  exfalso. apply H2. reflexivity.
Qed.
End ElisionGroup.

(** C3.  The compiled pattern of every phrase is the matcher of the
    specification, so around any literal occurrence of [[XXX]] in the
    phrase it is: the matcher of what precedes, then a star over the
    characters other than the comma in place of the literal text, then
    the matcher of what follows.  On a maximal run of characters other
    than the comma that star takes the whole run first and gives
    characters back one at a time down to none.  Consequently the phrase
    "a rejoint [XXX], selon" matches "a rejoint Lizy-sur-Ourcq, selon":
    as a whole, and as the one match found in a narrative that contains
    it, whose triplet carries the phrase verbatim as its transition. *)
Theorem placeholder_matches_run {U : Unicode} :
  (forall phrase, re_compile (pattern_str phrase) = Some (spec_regex phrase))
  /\ (forall pre post,
        re_compile (pattern_str (pre ++ placeholder ++ post))
        = Some (spec_body pre ++ IAtom (AStar (CNot comma)) :: spec_regex post))
  /\ (forall run rest r cont,
        forallb (fun c => negb (c =? comma)%N) run = true ->
        match rest with [] => true | c :: _ => (c =? comma)%N end = true ->
        match_items (IAtom (AStar (CNot comma)) :: r) (run ++ rest) cont
        = first_success (fun s' => match_items r s' cont) (greedy_points run rest))
  /\ fullmatch (spec_regex placeholder_phrase) placeholder_text = true
  /\ finditer (spec_regex placeholder_phrase) placeholder_narrative = [(11, 42)]
  /\ substring placeholder_narrative (11, 42) = placeholder_text
  /\ extract_all_raw_triplets placeholder_narrative [placeholder_phrase]
     = Ok [ {| paragraph_a := ustr "Le cortege";
               transition := ustr "a rejoint [XXX], selon";
               paragraph_b := ustr "la mairie." |} ].
Proof.
  repeat match goal with |- _ /\ _ => split end.
  - apply re_compile_pattern_str.
  - intros pre post. rewrite re_compile_pattern_str, spec_regex_occurrence. reflexivity.
  - intros run rest r cont Hrun Hrest. cbn [match_items match_atom].
    apply match_star_greedy; [exact Hrun|].
    destruct rest as [|c rest]; [reflexivity|].
    cbn [class_matches]. rewrite Hrest. reflexivity.
  - rewrite fullmatch_ascii by (vm_compute; reflexivity). vm_compute. reflexivity.
  - rewrite finditer_ascii by (vm_compute; reflexivity). vm_compute. reflexivity.
  - vm_compute. reflexivity.
  - rewrite extract_all_raw_triplets_ascii by (vm_compute; reflexivity). vm_compute. reflexivity.
Qed.

(** C3 at a run followed by a comma: the star is tried on "ab," with the
    rest of the pattern refusing everything but the text from the comma. *)
Lemma placeholder_matches_run_witness :
  match_items (U := ascii_tables) [IAtom (AStar (CNot comma)); IAtom (AChar (CLit comma))]
              (ustr "ab" ++ ustr ",c") Some
  = Some (ustr "c").
Proof.
  exact (eq_trans
           (proj1 (proj2 (proj2 (placeholder_matches_run (U := ascii_tables))))
                  (ustr "ab") (ustr ",c") [IAtom (AChar (CLit comma))] Some
                  eq_refl eq_refl)
           eq_refl).
Defined.

(** C4.  For a phrase that ends with " que", that is [stem ++ " que"], the
    compiled pattern is the matcher of the stem followed by a group of two
    alternatives: a space character and "que", or a space character, "qu'"
    and a run of word characters.  Whatever text the stem matches, the
    pattern matches that text followed by " que" and that text followed by
    " qu'" and any word characters, and a narrative that contains such a
    text gives at least one match.  In particular "parce que" finds
    "parce qu'on", "parce qu'il" and "parce que" in a narrative. *)
Theorem elision_tolerance {U : Unicode} (stem : str) :
  let r := spec_body stem ++ [IGroup elision_alts] in
  re_compile (pattern_str (stem ++ que)) = Some r
  /\ (forall t, fullmatch (spec_body stem) t = true ->
        fullmatch r (t ++ ustr " que") = true
        /\ forall w, forallb (class_matches CWord) w = true ->
                     fullmatch r (t ++ ustr " qu'" ++ w) = true
                     /\ forall before after,
                         finditer r (before ++ (t ++ ustr " qu'" ++ w) ++ after) <> [])
  /\ finditer (spec_regex elision_phrase) elision_narrative = [(8, 19); (30, 41); (51, 60)]
  /\ map (substring elision_narrative) [(8, 19); (30, 41); (51, 60)]
     = [ustr "parce qu'on"; ustr "parce qu'il"; ustr "parce que"]
  /\ fullmatch (spec_regex elision_phrase) (ustr "parce qu'on") = true
  /\ fullmatch (spec_regex elision_phrase) (ustr "parce qu'il") = true.
Proof.
  intros r. repeat match goal with |- _ /\ _ => split end.
  - rewrite re_compile_pattern_str. unfold spec_regex.
    rewrite endswith_app, firstn_before_suffix. reflexivity.
  - intros t Ht. split.
    + apply fullmatch_app; [exact Ht | apply elision_group_que].
    + intros w Hw.
      assert (Hfull : fullmatch r (t ++ ustr " qu'" ++ w) = true)
        by (apply fullmatch_app; [exact Ht | apply elision_group_contracted, Hw]).
      split; [exact Hfull|].
      intros before after. apply finditer_finds, Hfull.
  - rewrite finditer_ascii by (vm_compute; reflexivity). vm_compute. reflexivity.
  - vm_compute. reflexivity.
  - rewrite fullmatch_ascii by (vm_compute; reflexivity). vm_compute. reflexivity.
  - rewrite fullmatch_ascii by (vm_compute; reflexivity). vm_compute. reflexivity.
Qed.

(** C4 at the stem "parce": it matches "PARCE", so the pattern matches
    "PARCE qu'elle". *)
Lemma elision_tolerance_witness :
  fullmatch (U := ascii_tables) (spec_body (ustr "parce") ++ [IGroup elision_alts])
            (ustr "PARCE" ++ ustr " qu'" ++ ustr "elle") = true.
Proof.
  exact (proj1 (proj2 (proj1 (proj2 (elision_tolerance (U := ascii_tables) (ustr "parce")))
                             (ustr "PARCE") eq_refl)
                      (ustr "elle") eq_refl)).
Defined.

(** ** The triplets of a document *)

(** C2.  The extraction returns normally, and for every triplet it emits
    there are an article of the document, a phrase of that article's
    transitions list and a match span of that phrase's compiled pattern in
    the article's narrative such that the triplet is the triplet of that
    match: its [transition] field is the listed phrase itself, character
    for character, whatever text the span covers.  The same holds for one
    narrative and one transitions list.  In the samples the pattern of
    "parce que" matches the text "parce qu'on" and the triplet carries
    "parce que"; the pattern of "a rejoint [XXX], selon" matches
    "a rejoint Lizy-sur-Ourcq, selon" and the triplet carries the phrase
    with its placeholder. *)
Theorem transition_is_canonical {U : Unicode} :
  (forall narrative tl,
      exists raw,
        extract_all_raw_triplets narrative tl = Ok raw
        /\ forall tr, In tr raw ->
             In tr.(transition) tl
             /\ exists r span,
                 re_compile (pattern_str tr.(transition)) = Some r
                 /\ In span (finditer r narrative)
                 /\ tr = triplet_of_match narrative tr.(transition) span)
  /\ (forall doc,
      exists arts raw,
        extract_articles_from_docx doc = Ok arts
        /\ raw_triplets_of doc = Ok raw
        /\ forall tr, In tr raw ->
             exists art r span,
               In art arts
               /\ In tr.(transition) art.(transitions_list)
               /\ re_compile (pattern_str tr.(transition)) = Some r
               /\ In span (finditer r art.(narrative_paragraph))
               /\ tr = triplet_of_match art.(narrative_paragraph) tr.(transition) span)
  /\ (exists span,
        In span (finditer (spec_regex elision_phrase) elision_narrative)
        /\ substring elision_narrative span = ustr "parce qu'on"
        /\ triplet_of_match elision_narrative elision_phrase span
           = {| paragraph_a := ustr "Il part";
                transition := ustr "parce que";
                paragraph_b := ustr "l'attend, parce qu'il pleut et parce que voila." |})
  /\ (exists span,
        In span (finditer (spec_regex placeholder_phrase) placeholder_narrative)
        /\ substring placeholder_narrative span = ustr "a rejoint Lizy-sur-Ourcq, selon"
        /\ triplet_of_match placeholder_narrative placeholder_phrase span
           = {| paragraph_a := ustr "Le cortege";
                transition := ustr "a rejoint [XXX], selon";
                paragraph_b := ustr "la mairie." |}).
Proof.
  assert (Hone : forall narrative tl tr,
             In tr (flat_map (transition_triplets narrative) tl) ->
             In tr.(transition) tl
             /\ exists r span,
                 re_compile (pattern_str tr.(transition)) = Some r
                 /\ In span (finditer r narrative)
                 /\ tr = triplet_of_match narrative tr.(transition) span).
  { intros narrative tl tr Hin. apply in_flat_map in Hin as (t & Ht & Hin).
    apply transition_triplets_In in Hin as (Htr & _ & span & Hspan & Heq).
    rewrite Htr. split; [exact Ht|].
    exists (spec_regex t), span. rewrite re_compile_pattern_str. auto. }
  split; [|split; [|split]].
  - intros narrative tl. eexists. split; [apply extract_all_raw_triplets_spec|].
    apply Hone.
  - intros doc. exists (articles_of doc), (flat_map article_triplets (articles_of doc)).
    split; [apply extract_articles_spec|]. split; [apply raw_triplets_of_spec|].
    intros tr Hin. apply in_flat_map in Hin as (art & Hart & Hin).
    destruct (Hone _ _ _ Hin) as (Htl & r & span & Hr & Hspan & Heq).
    exists art, r, span. auto.
  - exists (8, 19). split; [|split].
    + rewrite finditer_ascii by (vm_compute; reflexivity). vm_compute. left. reflexivity.
    + vm_compute. reflexivity.
    + rewrite triplet_of_match_ascii by (vm_compute; reflexivity). vm_compute. reflexivity.
  - exists (11, 42). split; [|split].
    + rewrite finditer_ascii by (vm_compute; reflexivity). vm_compute. left. reflexivity.
    + vm_compute. reflexivity.
    + rewrite triplet_of_match_ascii by (vm_compute; reflexivity). vm_compute. reflexivity.
Qed.

(** C2 at the sample document: its first triplet carries the listed
    phrase "Donc". *)
Lemma transition_is_canonical_witness :
  exists art r span,
    In art [ {| narrative_paragraph := ustr "Il pleut. Donc on reste, donc on lit.";
                transitions_list := [ustr "Donc"; ustr "donc"] |} ]
    /\ In (ustr "Donc") art.(transitions_list)
    /\ re_compile (pattern_str (ustr "Donc")) = Some r
    /\ In span (finditer (U := ascii_tables) r art.(narrative_paragraph))
    /\ {| paragraph_a := ustr "Il pleut."; transition := ustr "Donc";
          paragraph_b := ustr "on reste, donc on lit." |}
       = triplet_of_match (U := ascii_tables) art.(narrative_paragraph) (ustr "Donc") span.
Proof.
  destruct (proj1 (proj2 (transition_is_canonical (U := ascii_tables))) (Some sample_doc))
    as (arts & raw & Harts & Hraw & H).
  vm_compute in Harts. injection Harts as <-.
  vm_compute in Hraw. injection Hraw as <-.
  apply (H {| paragraph_a := ustr "Il pleut."; transition := ustr "Donc";
              paragraph_b := ustr "on reste, donc on lit." |}).
  left. reflexivity.
Defined.

(** C9.  Two runs on the same document with the same cap and the same
    selection of outputs, whatever order each run's sets enumerate their
    elements in: both complete, on the same raw triplets, and they agree on
    everything they produce - the returned triplets in the same order, the
    sorted list of distinct transitions, the cap-exceeded report, the
    raw-duplicate report, the written files and their counts, and the
    summary handed to the caller. *)
Theorem pipeline_deterministic {U : Unicode} (S1 S2 : SetOrder) (cap : Z)
        (doc : option (list str)) (selected_outputs : list str) :
  exists raw,
    raw_triplets_of doc = Ok raw
    /\ run_pipeline (S := S1) cap doc selected_outputs
       = Ok (generate_output_files (S := S1) raw selected_outputs cap)
    /\ run_pipeline (S := S2) cap doc selected_outputs
       = Ok (generate_output_files (S := S2) raw selected_outputs cap)
    /\ generate_output_files (S := S1) raw selected_outputs cap
       = generate_output_files (S := S2) raw selected_outputs cap
    /\ unique_transitions (S := S1) (cap_loop cap raw).(final_triplets)
       = unique_transitions (S := S2) (cap_loop cap raw).(final_triplets)
    /\ (generate_output_files (S := S1) raw selected_outputs cap).(returned_triplets)
       = (cap_loop cap raw).(final_triplets)
    /\ simulate_streamlit_app_logic (S := S1) doc selected_outputs
       = simulate_streamlit_app_logic (S := S2) doc selected_outputs.
Proof.
  assert (Hgen : forall raw c,
             generate_output_files (S := S1) raw selected_outputs c
             = generate_output_files (S := S2) raw selected_outputs c).
  { intros raw c. unfold generate_output_files.
    rewrite (unique_transitions_order S1 S2). reflexivity. }
  exists (flat_map article_triplets (articles_of doc)).
  unfold simulate_streamlit_app_logic, run_pipeline.
  rewrite raw_triplets_of_spec. cbn [bind].
  repeat match goal with |- _ /\ _ => split end; try reflexivity.
  - apply Hgen.
  - apply unique_transitions_order.
  - rewrite Hgen. reflexivity.
Qed.

(** C9 at the sample document with every output selected: the two
    enumeration orders, which differ on the transitions of the sample, give
    the same run. *)
Lemma pipeline_deterministic_witness :
  list_of_set (SetOrder := forward_order) [ustr "donc"; ustr "Donc"]
  <> list_of_set (SetOrder := backward_order) [ustr "donc"; ustr "Donc"]
  /\ run_pipeline (U := ascii_tables) (S := forward_order) 1 (Some sample_doc) all_outputs
     = run_pipeline (U := ascii_tables) (S := backward_order) 1 (Some sample_doc) all_outputs.
Proof.
  split; [vm_compute; discriminate|].
  destruct (pipeline_deterministic (U := ascii_tables) forward_order backward_order 1
              (Some sample_doc) all_outputs) as (raw & _ & H1 & H2 & Hgen & _).
  rewrite H1, H2, Hgen. reflexivity.
Defined.

Lemma occurrences_without T1 T2 raw :
  T1 <> T2 ->
  occurrences T1 (filter (fun tr => negb (str_eqb tr.(transition) T2)) raw)
  = occurrences T1 raw.
Proof.
  intros Hne. unfold occurrences. induction raw as [|tr raw IH]; simpl; [reflexivity|].
  destruct (str_eqb (transition tr) T2) eqn:E2; simpl.
  - apply str_eqb_eq in E2.
    replace (str_eqb (transition tr) T1) with false; [exact IH|].
    symmetry. apply str_eqb_neq. congruence.
  - destruct (str_eqb (transition tr) T1); [f_equal|]; exact IH.
Qed.

(** C10.  The capper compares transitions character for character: two
    different phrases, and so two phrases that differ only in letter case,
    have each their own count in the usage tracker, and each is accepted
    up to the cap (a cap that is not negative) whatever the occurrences of
    the other - removing the other phrase's triplets changes nothing for
    it.  The matchers ignore case: "Donc" and "donc" find the same four
    spans in the sample narrative, which gives four raw triplets under
    each key, and with cap 3 three of each are accepted. *)
Theorem case_sensitive_capping {U : Unicode} (raw : list triplet) (cap : Z) (T1 T2 : str) :
  (0 <= cap)%Z -> T1 <> T2 ->
  let st := cap_loop cap raw in
  let without_T2 := filter (fun tr => negb (str_eqb tr.(transition) T2)) raw in
  str_eqb T1 T2 = false
  /\ usage_of st T1 = Z.min (Z.of_nat (length (occurrences T1 raw))) cap
  /\ usage_of st T2 = Z.min (Z.of_nat (length (occurrences T2 raw))) cap
  /\ Z.of_nat (length (occurrences T1 st.(final_triplets)))
     = Z.min (Z.of_nat (length (occurrences T1 raw))) cap
  /\ Z.of_nat (length (occurrences T2 st.(final_triplets)))
     = Z.min (Z.of_nat (length (occurrences T2 raw))) cap
  /\ occurrences T1 st.(final_triplets)
     = occurrences T1 (cap_loop cap without_T2).(final_triplets)
  /\ (map ascii_lower (ustr "Donc") = map ascii_lower (ustr "donc")
      /\ str_eqb (ustr "Donc") (ustr "donc") = false
      /\ finditer (spec_regex (ustr "Donc")) case_narrative = case_spans
      /\ finditer (spec_regex (ustr "donc")) case_narrative = case_spans
      /\ exists raw8,
          extract_all_raw_triplets case_narrative case_transitions = Ok raw8
          /\ length (occurrences (ustr "Donc") raw8) = 4
          /\ length (occurrences (ustr "donc") raw8) = 4
          /\ length (occurrences (ustr "Donc") (cap_loop 3 raw8).(final_triplets)) = 3
          /\ length (occurrences (ustr "donc") (cap_loop 3 raw8).(final_triplets)) = 3
          /\ length (cap_loop 3 raw8).(final_triplets) = 6).
Proof.
  intros Hcap Hne st without_T2.
  assert (Hacc : forall T,
             Z.of_nat (length (occurrences T st.(final_triplets)))
             = Z.min (Z.of_nat (length (occurrences T raw))) cap).
  { intros T. unfold st. rewrite cap_loop_accepted, length_firstn. lia. }
  repeat match goal with |- _ /\ _ => split end.
  - apply str_eqb_neq. exact Hne.
  - unfold st. rewrite cap_loop_usage. apply Hacc.
  - unfold st. rewrite cap_loop_usage. apply Hacc.
  - apply Hacc.
  - apply Hacc.
  - unfold st, without_T2. rewrite !cap_loop_accepted.
    rewrite occurrences_without by exact Hne. reflexivity.
  - vm_compute. reflexivity.
  - vm_compute. reflexivity.
  - rewrite finditer_ascii by (vm_compute; reflexivity). vm_compute. reflexivity.
  - rewrite finditer_ascii by (vm_compute; reflexivity). vm_compute. reflexivity.
  - rewrite extract_all_raw_triplets_ascii by (vm_compute; reflexivity).
    eexists. split; [vm_compute; reflexivity|].
    repeat match goal with |- _ /\ _ => split end; vm_compute; reflexivity.
Qed.

(** C10 at the sample: "donc" and "Donc" among the raw triplets, cap 3. *)
Lemma case_sensitive_capping_witness :
  usage_of (cap_loop 3 sample_raw) (ustr "donc") = 3%Z
  /\ usage_of (cap_loop 3 sample_raw) (ustr "Donc") = 1%Z.
Proof.
  pose proof (case_sensitive_capping (U := ascii_tables) sample_raw 3
                (ustr "donc") (ustr "Donc") ltac:(lia) ltac:(discriminate)) as H.
  cbv zeta in H. destruct H as (_ & H1 & H2 & _).
  split; [exact H1 | exact H2].
Defined.

(** ** Further properties of generate_output_files *)

(** X1.  The capping loop loses and invents nothing: the accepted triplets
    followed by all the rejected ones are a rearrangement of the raw
    triplets, so their numbers add up to the number of raw triplets; the
    accepted ones keep their raw order; and the rejected fine-tuning
    entries are one entry per rejected triplet. *)
Theorem capper_partitions_raw (raw : list triplet) (cap : Z) :
  let st := cap_loop cap raw in
  Permutation (st.(final_triplets) ++ all_duplicates st) raw
  /\ length st.(final_triplets) + length (all_duplicates st) = length raw
  /\ subseq st.(final_triplets) raw
  /\ rejected_finetuning_content st = map jsonl_entry (all_duplicates st)
  /\ length (rejected_finetuning_content st) = length raw - length st.(final_triplets).
Proof.
  intros st.
  pose proof (cap_loop_partition cap raw) as Hp. fold st in Hp.
  assert (Hlen : length st.(final_triplets) + length (all_duplicates st) = length raw).
  { rewrite <- length_app. apply Permutation_length, Hp. }
  assert (Hft : rejected_finetuning_content st = map jsonl_entry (all_duplicates st)).
  { unfold rejected_finetuning_content, all_duplicates.
    induction (duplicates_tracker st) as [|[T l] d IH]; simpl; [reflexivity|].
    rewrite map_app, IH. reflexivity. }
  repeat match goal with |- _ /\ _ => split end.
  - exact Hp.
  - exact Hlen.
  - apply (cap_loop_inv cap raw).
  - exact Hft.
  - rewrite Hft, length_map. lia.
Qed.

(** X2.  When no transition occurs more often than the cap allows, nothing
    is rejected: every raw triplet is accepted, in raw order, the
    duplicates tracker stays empty and both rejection reports are empty. *)
Theorem nothing_rejected_within_cap (raw : list triplet) (cap : Z) :
  (forall T, Z.of_nat (length (occurrences T raw)) <= cap)%Z ->
  let st := cap_loop cap raw in
  st.(final_triplets) = raw
  /\ st.(duplicates_tracker) = []
  /\ rejected_fewshots_content st = []
  /\ rejected_finetuning_content st = [].
Proof.
  intros Hcap st.
  assert (Hd : st.(duplicates_tracker) = []).
  { apply get_all_None. intros T.
    destruct (cap_loop_inv cap raw) as (_ & _ & Hdup & _). fold st in Hdup.
    rewrite Hdup. specialize (Hcap T).
    replace (Z.to_nat cap <? length (occurrences T raw)) with false; [reflexivity|].
    symmetry. apply Nat.ltb_ge. lia. }
  split; [|split; [exact Hd|split]].
  - apply subseq_same_length; [apply (cap_loop_inv cap raw)|].
    pose proof (cap_loop_partition cap raw) as Hp. fold st in Hp.
    apply Permutation_length in Hp. unfold all_duplicates in Hp.
    rewrite Hd, app_nil_r in Hp. exact Hp.
  - unfold rejected_fewshots_content. rewrite Hd. reflexivity.
  - unfold rejected_finetuning_content. rewrite Hd. reflexivity.
Qed.

(** X2 at the sample with a cap as large as the sample is long. *)
Lemma nothing_rejected_within_cap_witness :
  (cap_loop 8 sample_raw).(final_triplets) = sample_raw
  /\ rejected_fewshots_content (cap_loop 8 sample_raw) = [].
Proof.
  assert (H : forall T, (Z.of_nat (length (occurrences T sample_raw)) <= 8)%Z).
  { intros T. pose proof (subseq_length _ _ (subseq_filter
      (fun tr => str_eqb (transition tr) T) sample_raw)) as Hl.
    unfold occurrences. change (length sample_raw) with 8 in Hl. lia. }
  destruct (nothing_rejected_within_cap sample_raw 8 H) as (H1 & _ & H3 & _).
  split; [exact H1 | exact H3].
Defined.

Lemma raw_duplicate_lines (F : str -> Z) (d : PyDict.t Z) :
  (forall T n, In (T, n) d -> n = F T) ->
  flat_map (fun '(transition, count) =>
              if (1 <? count)%Z
              then [ ustr "Transition: '" ++ transition ++ ustr "' used "
                     ++ str_of_int count ++ ustr " times" ]
              else []) d
  = map (fun T => raw_duplicate_line T (F T))
        (filter (fun T => (1 <? F T)%Z) (PyDict.keys d)).
Proof.
  induction d as [|[T n] d IH]; intros H; [reflexivity|].
  cbn [flat_map PyDict.keys map filter fst].
  rewrite IH by (intros T' n' Hin; apply H; right; exact Hin).
  rewrite (H T n (or_introl eq_refl)).
  destruct (1 <? F T)%Z; reflexivity.
Qed.

(** X3.  The raw-duplicate report does not look at the cap: it has one
    line for each distinct transition that occurs more than once among the
    raw triplets, in the order in which the transitions first occur, and
    the line gives the number of raw occurrences. *)
Theorem raw_duplicate_report (raw : list triplet) :
  let count T := Z.of_nat (length (occurrences T raw)) in
  let seen := first_seen (map transition raw) in
  rejected_transitions_only_content raw
  = map (fun T => raw_duplicate_line T (count T)) (filter (fun T => (1 <? count T)%Z) seen)
  /\ NoDup seen
  /\ (forall T, In T seen <-> In T (map transition raw))
  /\ PyDict.keys (all_found_transitions_counts raw) = seen.
Proof.
  intros count seen.
  split; [|split; [apply first_seen_NoDup|split; [intros T; apply first_seen_In|]]].
  - unfold rejected_transitions_only_content, seen. rewrite <- count_keys.
    apply raw_duplicate_lines. intros T n. apply count_entries.
  - apply count_keys.
Qed.

(** X4.  With a cap of at least 1, every transition of the cap-exceeded
    report also has its line in the raw-duplicate report, with the same
    total. *)
Theorem cap_exceeded_within_raw_duplicates (raw : list triplet) (cap : Z) (T : str) :
  (1 <= cap)%Z ->
  In T (PyDict.keys (cap_loop cap raw).(duplicates_tracker)) ->
  In (raw_duplicate_line T (Z.of_nat (length (occurrences T raw))))
     (rejected_transitions_only_content raw)
  /\ In (cap_exceeded_line T (Z.of_nat (length (occurrences T raw)))
                           (Z.of_nat (length (occurrences T raw)) - cap))
        (rejected_fewshots_content (cap_loop cap raw)).
Proof.
  intros Hcap Hin. pose proof Hin as Hover. apply cap_loop_reported in Hover.
  split.
  - unfold rejected_transitions_only_content.
    rewrite (raw_duplicate_lines (fun T => Z.of_nat (length (occurrences T raw))))
      by (intros T' n; apply count_entries).
    apply (in_map (fun T => raw_duplicate_line T (Z.of_nat (length (occurrences T raw))))).
    apply filter_In. split.
    + rewrite count_keys. apply first_seen_In, occurrences_In.
      intros Hnil. rewrite Hnil in Hover. simpl in Hover. lia.
    + apply Z.ltb_lt. lia.
  - destruct (cap_loop_inv cap raw) as (Hfin & Huse & Hdup & Hnd & _).
    unfold rejected_fewshots_content. apply in_flat_map.
    exists (T, skipn (Z.to_nat cap) (occurrences T raw)). split.
    + apply PyDictFacts.get_Some_In. rewrite Hdup.
      apply Nat.ltb_lt in Hover. rewrite Hover. reflexivity.
    + unfold rejected_line.
      assert (Hne : nonempty (skipn (Z.to_nat cap) (occurrences T raw)) = true).
      { apply nonempty_true. intros Hnil. apply (f_equal (@length _)) in Hnil.
        rewrite length_skipn in Hnil. simpl in Hnil. lia. }
      rewrite Hne, PyDictFacts.getitem_fst.
      change (match PyDict.get (transition_usage_tracker (cap_loop cap raw)) T with
              | Some v => v | None => 0%Z end) with (usage_of (cap_loop cap raw) T).
      rewrite Huse, length_skipn. left. unfold cap_exceeded_line.
      repeat f_equal; lia.
Qed.

(** X4 at the sample, cap 3. *)
Lemma cap_exceeded_within_raw_duplicates_witness :
  In (ustr "Transition: 'donc' used 5 times") (rejected_transitions_only_content sample_raw).
Proof.
  refine (proj1 (cap_exceeded_within_raw_duplicates sample_raw 3 (ustr "donc") _ _)).
  - lia.
  - vm_compute. left. reflexivity.
Defined.

(** X5.  The transitions-only list is sorted in code point order, has no
    duplicates and holds exactly the transitions of the accepted triplets;
    with a cap of at least 1 these are all the transitions found. *)
Theorem transitions_only_sorted_unique {S : SetOrder} (raw : list triplet) (cap : Z) :
  let final := (cap_loop cap raw).(final_triplets) in
  let uniq := unique_transitions final in
  StronglySorted str_le uniq
  /\ NoDup uniq
  /\ (forall T, In T uniq <-> In T (map transition final))
  /\ ((1 <= cap)%Z -> forall T, In T uniq <-> In T (map transition raw)).
Proof.
  intros final uniq.
  assert (Hperm : Permutation uniq (list_of_set (map transition final)))
    by apply sorted_perm.
  assert (Hin : forall T, In T uniq <-> In T (map transition final)).
  { intros T. split; intros H.
    - apply list_of_set_In. apply (Permutation_in _ Hperm H).
    - apply (Permutation_in _ (Permutation_sym Hperm)). apply list_of_set_In. exact H. }
  split; [apply sorted_sorted|]. split; [|split; [exact Hin|]].
  - apply (Permutation_NoDup (l := list_of_set (map transition final)));
      [symmetry; exact Hperm | apply list_of_set_NoDup].
  - intros Hcap T. rewrite Hin, <- !occurrences_In. unfold final.
    rewrite cap_loop_accepted.
    destruct (occurrences T raw) as [|tr l]; [rewrite firstn_nil; tauto|].
    replace (Z.to_nat cap) with (Datatypes.S (Z.to_nat cap - 1)) by lia.
    simpl. split; discriminate.
Qed.

(** X5 at the sample, cap 1, with sets enumerated backwards. *)
Lemma transitions_only_sorted_unique_witness :
  In (ustr "mais")
     (unique_transitions (S := backward_order) (cap_loop 1 sample_raw).(final_triplets)).
Proof.
  apply (proj2 (proj2 (proj2 (transitions_only_sorted_unique (S := backward_order)
                                sample_raw 1))) ltac:(lia) (ustr "mais")).
  vm_compute. right. left. reflexivity.
Defined.










Lemma final_length_bound (raw : list triplet) (cap : Z) :
  (0 <= cap)%Z ->
  let final := (cap_loop cap raw).(final_triplets) in
  (Z.of_nat (length final)
   <= cap * Z.of_nat (length (first_seen (map transition raw))))%Z
  /\ length final <= length raw
  /\ length final
     = list_sum (map (fun T => Nat.min (length (occurrences T raw)) (Z.to_nat cap))
                     (first_seen (map transition raw))).
Proof.
  intros Hcap final.
  assert (Hsub : subseq final raw) by apply (cap_loop_inv cap raw).
  assert (Hsum : length final
                 = list_sum (map (fun T => Nat.min (length (occurrences T raw)) (Z.to_nat cap))
                                 (first_seen (map transition raw)))).
  { rewrite (length_by_transition final (first_seen (map transition raw))).
    - f_equal. apply map_ext. intros T. unfold final.
      rewrite cap_loop_accepted, length_firstn. lia.
    - apply first_seen_NoDup.
    - intros tr Htr. apply first_seen_In, in_map, (subseq_In _ _ _ Hsub Htr). }
  split; [|split; [apply subseq_length, Hsub | exact Hsum]].
  rewrite Hsum.
  pose proof (list_sum_bound (fun T => Nat.min (length (occurrences T raw)) (Z.to_nat cap))
                (Z.to_nat cap) (first_seen (map transition raw))
                ltac:(intros; cbv beta; lia)) as Hb.
  nia.
Qed.


(** X7.  The accepted triplets are at most as many as the cap times the
    number of distinct transitions found, for a cap that is not negative;
    they are never more than the raw triplets. *)
Theorem accepted_bounded_by_cap (raw : list triplet) (cap : Z) :
  (0 <= cap)%Z ->
  let final := (cap_loop cap raw).(final_triplets) in
  (Z.of_nat (length final)
   <= cap * Z.of_nat (length (first_seen (map transition raw))))%Z
  /\ length final <= length raw
  /\ length final
     = list_sum (map (fun T => Nat.min (length (occurrences T raw)) (Z.to_nat cap))
                     (first_seen (map transition raw))).
Proof. apply final_length_bound. Qed.

(** X7 at the sample, cap 3: three distinct transitions. *)
Lemma accepted_bounded_by_cap_witness :
  (Z.of_nat (length (cap_loop 3 sample_raw).(final_triplets)) <= 3 * 3)%Z.
Proof.
  exact (proj1 (accepted_bounded_by_cap sample_raw 3 ltac:(lia))).
Defined.

(** X1 at the sample, cap 3: accepted and rejected add up to the eight raw
    triplets. *)
Lemma capper_partitions_raw_witness :
  length (cap_loop 3 sample_raw).(final_triplets)
  + length (all_duplicates (cap_loop 3 sample_raw)) = length sample_raw.
Proof. exact (proj1 (proj2 (capper_partitions_raw sample_raw 3))). Defined.

(** X3 at the sample: "mais" is among the transitions seen. *)
Lemma raw_duplicate_report_witness :
  In (ustr "mais") (first_seen (map transition sample_raw)).
Proof.
  apply (proj2 (proj1 (proj2 (proj2 (raw_duplicate_report sample_raw))) (ustr "mais"))).
  vm_compute. right. left. reflexivity.
Defined.


(** ** Further properties of extract_all_raw_triplets *)

(** X8.  The pattern compiled for a phrase matches a text in full exactly
    when the text reads the phrase chunk by chunk: one character equal up
    to case for each literal character, any run without a comma, possibly
    empty, for each [[XXX]], and for a trailing " que" a space character
    followed by "que" or by "qu'" and word characters. *)
Theorem compiled_pattern_accepts {U : Unicode} (phrase text : str) :
  exists r,
    re_compile (pattern_str phrase) = Some r
    /\ (fullmatch r text = true <-> phrase_accepts phrase text).
Proof.
  exists (spec_regex phrase).
  split; [apply re_compile_pattern_str | apply spec_regex_accepts].
Qed.

(** X8 at the templated sample phrase and the text that fills it. *)
Lemma compiled_pattern_accepts_witness :
  phrase_accepts (U := ascii_tables) placeholder_phrase placeholder_text.
Proof.
  destruct (compiled_pattern_accepts (U := ascii_tables) placeholder_phrase placeholder_text)
    as (r & Hr & H).
  apply H. vm_compute in Hr. injection Hr as <-. vm_compute. reflexivity.
Defined.

(** X9.  Every triplet cuts its narrative in three: the narrative is some
    text, then a text the triplet's transition stands for, then some text;
    [paragraph_a] and [paragraph_b] are the first and the last of the
    three, trimmed. *)
Theorem triplet_splits_narrative {U : Unicode} (narrative : str) (tl : list str) :
  exists raw,
    extract_all_raw_triplets narrative tl = Ok raw
    /\ forall tr, In tr raw ->
         exists before matched after,
           narrative = before ++ matched ++ after
           /\ phrase_accepts tr.(transition) matched
           /\ tr.(paragraph_a) = strip before
           /\ tr.(paragraph_b) = strip after.
Proof.
  eexists. split; [apply extract_all_raw_triplets_spec|].
  intros tr Hin. apply in_flat_map in Hin as (t & _ & Hin).
  apply transition_triplets_In in Hin as (Ht & _ & [a b] & Hspan & ->).
  pose proof (spans_within_In _ _ _ _ _ (finditer_within _ narrative) Hspan)
    as (_ & Hab & Hb).
  exists (firstn a narrative), (substring narrative (a, b)), (skipn b narrative).
  split; [apply split_at_span; assumption|].
  split; [|split; reflexivity].
  apply spec_regex_accepts, finditer_sound, Hspan.
Qed.

(** X9 at a templated phrase. *)
Lemma triplet_splits_narrative_witness :
  exists before matched after,
    ustr "Le cortege a rejoint Lizy-sur-Ourcq, selon la mairie." = before ++ matched ++ after
    /\ ustr "Le cortege" = strip (U := ascii_tables) before
    /\ ustr "la mairie." = strip (U := ascii_tables) after.
Proof.
  destruct (triplet_splits_narrative (U := ascii_tables)
              (ustr "Le cortege a rejoint Lizy-sur-Ourcq, selon la mairie.")
              [ustr "a rejoint [XXX], selon"]) as (raw & Hraw & H).
  assert (E : extract_all_raw_triplets (U := ascii_tables)
                (ustr "Le cortege a rejoint Lizy-sur-Ourcq, selon la mairie.")
                [ustr "a rejoint [XXX], selon"]
              = Ok [ {| paragraph_a := ustr "Le cortege";
                        transition := ustr "a rejoint [XXX], selon";
                        paragraph_b := ustr "la mairie." |} ])
    by (vm_compute; reflexivity).
  rewrite E in Hraw. injection Hraw as <-.
  destruct (H _ (or_introl eq_refl)) as (before & matched & after & H1 & _ & H3 & H4).
  exists before, matched, after.
  split; [exact H1|]. split; [exact H3 | exact H4].
Defined.

(** X10.  The transition of a triplet is never empty; its two context
    fields are trimmed; and nothing but whitespace is lost: the narrative
    is [paragraph_a] between whitespace, the matched text, and
    [paragraph_b] between whitespace. *)
Theorem triplet_context_trimmed {U : Unicode} (narrative : str) (tl : list str) :
  exists raw,
    extract_all_raw_triplets narrative tl = Ok raw
    /\ forall tr, In tr raw ->
         tr.(transition) <> []
         /\ trimmed tr.(paragraph_a) /\ trimmed tr.(paragraph_b)
         /\ exists w1 w2 matched w3 w4,
             narrative = (w1 ++ tr.(paragraph_a) ++ w2) ++ matched
                         ++ (w3 ++ tr.(paragraph_b) ++ w4)
             /\ forallb isspace w1 = true /\ forallb isspace w2 = true
             /\ forallb isspace w3 = true /\ forallb isspace w4 = true.
Proof.
  eexists. split; [apply extract_all_raw_triplets_spec|].
  intros tr Hin. apply in_flat_map in Hin as (t & _ & Hin).
  apply transition_triplets_In in Hin as (Ht & Hne & [a b] & Hspan & ->).
  pose proof (spans_within_In _ _ _ _ _ (finditer_within _ narrative) Hspan)
    as (_ & Hab & Hb).
  cbn [triplet_of_match transition paragraph_a paragraph_b].
  split; [exact Hne|]. split; [apply strip_trimmed|]. split; [apply strip_trimmed|].
  destruct (strip_removed (firstn a narrative)) as (w1 & w2 & H1 & Hw1 & Hw2).
  destruct (strip_removed (skipn b narrative)) as (w3 & w4 & H2 & Hw3 & Hw4).
  exists w1, w2, (substring narrative (a, b)), w3, w4.
  split; [|auto]. rewrite <- H1, <- H2. apply split_at_span; assumption.
Qed.

(** X10 at a short narrative. *)
Lemma triplet_context_trimmed_witness :
  trimmed (U := ascii_tables) (ustr "Il pleut,")
  /\ trimmed (U := ascii_tables) (ustr "on reste.").
Proof.
  destruct (triplet_context_trimmed (U := ascii_tables) (ustr "Il pleut, donc on reste.")
              [ustr "donc"]) as (raw & Hraw & H).
  assert (E : extract_all_raw_triplets (U := ascii_tables) (ustr "Il pleut, donc on reste.")
                [ustr "donc"]
              = Ok [ {| paragraph_a := ustr "Il pleut,"; transition := ustr "donc";
                        paragraph_b := ustr "on reste." |} ])
    by (vm_compute; reflexivity).
  rewrite E in Hraw. injection Hraw as <-.
  destruct (H _ (or_introl eq_refl)) as (_ & Ha & Hb & _).
  split; [exact Ha | exact Hb].
Defined.

(** X11.  A listed phrase that is not empty is found wherever the
    narrative holds a text it stands for: the extraction then returns at
    least one triplet that carries the phrase. *)
Theorem listed_phrase_found {U : Unicode} (narrative : str) (tl : list str)
        (phrase pre text post : str) :
  In phrase tl -> phrase <> [] ->
  phrase_accepts phrase text ->
  narrative = pre ++ text ++ post ->
  exists raw,
    extract_all_raw_triplets narrative tl = Ok raw
    /\ exists tr, In tr raw /\ tr.(transition) = phrase.
Proof.
  intros Hin Hne Hacc ->. eexists. split; [apply extract_all_raw_triplets_spec|].
  apply spec_regex_accepts in Hacc.
  pose proof (finditer_finds (spec_regex phrase) pre text post Hacc) as Hf.
  destruct (finditer (spec_regex phrase) (pre ++ text ++ post)) as [|span spans] eqn:E;
    [congruence|].
  exists (triplet_of_match (pre ++ text ++ post) phrase span).
  split; [|destruct span; reflexivity].
  apply in_flat_map. exists phrase. split; [exact Hin|].
  unfold transition_triplets. apply nonempty_true in Hne. rewrite Hne, E. left. reflexivity.
Qed.

(** X11 at the sample with a contracted "que". *)
Lemma listed_phrase_found_witness :
  exists raw,
    extract_all_raw_triplets (U := ascii_tables) elision_narrative [elision_phrase] = Ok raw
    /\ exists tr, In tr raw /\ tr.(transition) = elision_phrase.
Proof.
  apply (listed_phrase_found (U := ascii_tables) elision_narrative [elision_phrase]
           elision_phrase (ustr "Il part ") (ustr "parce qu'on")
           (ustr " l'attend, parce qu'il pleut et parce que voila.")).
  - left. reflexivity.
  - discriminate.
  - apply spec_regex_accepts. vm_compute. reflexivity.
  - vm_compute. reflexivity.
Defined.

(** X12.  Every phrase stands for itself, whatever characters it holds:
    a listed phrase that is not empty and occurs verbatim in the narrative
    gives at least one triplet. *)
Theorem verbatim_phrase_found {U : Unicode} (phrase : str) :
  phrase_accepts phrase phrase
  /\ forall tl pre post,
       In phrase tl -> phrase <> [] ->
       exists raw,
         extract_all_raw_triplets (pre ++ phrase ++ post) tl = Ok raw
         /\ exists tr, In tr raw /\ tr.(transition) = phrase.
Proof.
  assert (Hself : fullmatch (spec_regex phrase) phrase = true) by apply spec_regex_self.
  split; [apply spec_regex_accepts, Hself|].
  intros tl pre post Hin Hne. eexists. split; [apply extract_all_raw_triplets_spec|].
  pose proof (finditer_finds (spec_regex phrase) pre phrase post Hself) as Hf.
  destruct (finditer (spec_regex phrase) (pre ++ phrase ++ post)) as [|span spans] eqn:E;
    [congruence|].
  exists (triplet_of_match (pre ++ phrase ++ post) phrase span).
  split; [|destruct span; reflexivity].
  apply in_flat_map. exists phrase. split; [exact Hin|].
  unfold transition_triplets. apply nonempty_true in Hne. rewrite Hne, E. left. reflexivity.
Qed.

(** X12 at a phrase made of characters that are special in patterns. *)
Lemma verbatim_phrase_found_witness :
  exists raw,
    extract_all_raw_triplets (U := ascii_tables)
      (ustr "Vrai " ++ ustr "(a+b)*. [ou] ^$?" ++ ustr " faux") [ustr "(a+b)*. [ou] ^$?"]
    = Ok raw
    /\ exists tr, In tr raw /\ tr.(transition) = ustr "(a+b)*. [ou] ^$?".
Proof.
  apply (proj2 (verbatim_phrase_found (U := ascii_tables) (ustr "(a+b)*. [ou] ^$?"))).
  - left. reflexivity.
  - discriminate.
Defined.





(** ** Further properties of extract_articles_from_docx *)

(** X15.  Every article is a whole block of the document after the first:
    its narrative is the first line of the block and its transitions are
    all the following lines, at least one, unchanged by the parser's own
    trimming and filtering.  Each of these lines is a paragraph of the
    document, trimmed, not empty and without the marker. *)
Theorem articles_well_formed {U : Unicode} (paragraphs : list str) :
  exists arts,
    extract_articles_from_docx (Some paragraphs) = Ok arts
    /\ forall art, In art arts ->
         In (art.(narrative_paragraph) :: art.(transitions_list))
            (skipn 1 (raw_blocks paragraphs))
         /\ art.(transitions_list) <> []
         /\ Forall (fun l => l <> [] /\ trimmed l /\ contains marker l = false
                             /\ exists para, In para paragraphs /\ l = strip para)
                   (art.(narrative_paragraph) :: art.(transitions_list)).
Proof.
  eexists. split; [apply extract_articles_spec | apply articles_of_In].
Qed.

(** X15 at the sample document: the first transition of its article is
    a trimmed paragraph of the document. *)
Lemma articles_well_formed_witness :
  exists para, In para sample_doc /\ ustr "Donc" = strip (U := ascii_tables) para.
Proof.
  destruct (articles_well_formed (U := ascii_tables) sample_doc) as (arts & Harts & H).
  assert (E : extract_articles_from_docx (U := ascii_tables) (Some sample_doc)
              = Ok [ {| narrative_paragraph := ustr "Il pleut. Donc on reste, donc on lit.";
                        transitions_list := [ustr "Donc"; ustr "donc"] |} ])
    by (vm_compute; reflexivity).
  rewrite E in Harts. injection Harts as <-.
  pose proof (proj2 (proj2 (H _ (or_introl eq_refl)))) as HF.
  apply Forall_inv_tail in HF. apply Forall_inv in HF.
  destruct HF as (_ & _ & _ & Hp). exact Hp.
Defined.

(** X16.  A document has at most as many articles as it has paragraphs
    that hold the marker; without any marker it has no article, whatever
    else it holds, so that no triplet is extracted and the summary counts
    no example. *)
Theorem articles_bounded_by_markers {U : Unicode} {S : SetOrder}
        (paragraphs : list str) (selected_outputs : list str) :
  exists arts,
    extract_articles_from_docx (Some paragraphs) = Ok arts
    /\ length arts <= marker_lines paragraphs
    /\ (marker_lines paragraphs = 0 ->
        arts = []
        /\ raw_triplets_of (Some paragraphs) = Ok []
        /\ simulate_streamlit_app_logic (Some paragraphs) selected_outputs
           = Summary (generate_output_files [] selected_outputs 3).(generated_files_info) 0).
Proof.
  exists (articles_of (Some paragraphs)).
  split; [apply extract_articles_spec|].
  pose proof (articles_of_length paragraphs) as Hlen.
  split; [exact Hlen|]. intros H0.
  assert (E : articles_of (Some paragraphs) = []).
  { destruct (articles_of (Some paragraphs)); [reflexivity | simpl in Hlen; lia]. }
  split; [exact E|].
  assert (Hraw : raw_triplets_of (Some paragraphs) = Ok [])
    by (rewrite raw_triplets_of_spec, E; reflexivity).
  split; [exact Hraw|].
  unfold simulate_streamlit_app_logic, run_pipeline. rewrite Hraw. reflexivity.
Qed.

(** X16 at a document without the marker. *)
Lemma articles_bounded_by_markers_witness :
  raw_triplets_of (U := ascii_tables)
    (Some [ustr "Il pleut, donc on reste."; ustr "donc"]) = Ok [].
Proof.
  destruct (articles_bounded_by_markers (U := ascii_tables) (S := forward_order)
              [ustr "Il pleut, donc on reste."; ustr "donc"] all_outputs)
    as (arts & _ & _ & H).
  destruct (H ltac:(vm_compute; reflexivity)) as (_ & Hr & _). exact Hr.
Defined.

(** X17.  Paragraphs that change nothing: a marker paragraph at the very
    start of the document, one at its very end, one that directly follows
    another marker paragraph, and any paragraph that is empty once
    trimmed.  The articles are the same with and without them. *)
Theorem redundant_paragraphs_ignored {U : Unicode} (a b : list str) (m : str) :
  contains marker (strip m) = true ->
  extract_articles_from_docx (Some (m :: b)) = extract_articles_from_docx (Some b)
  /\ extract_articles_from_docx (Some (a ++ [m])) = extract_articles_from_docx (Some a)
  /\ (forall m2, contains marker (strip m2) = true ->
        extract_articles_from_docx (Some (a ++ m :: m2 :: b))
        = extract_articles_from_docx (Some (a ++ m :: b)))
  /\ (forall e, strip e = [] ->
        extract_articles_from_docx (Some (a ++ e :: b))
        = extract_articles_from_docx (Some (a ++ b))).
Proof.
  intros Hm.
  assert (H1 : raw_blocks (m :: b) = raw_blocks b).
  { unfold raw_blocks, seg_loop. cbn [fold_left].
    rewrite (seg_step_marker_first m Hm). reflexivity. }
  assert (H2 : raw_blocks (a ++ [m]) = raw_blocks a).
  { unfold raw_blocks. rewrite seg_loop_snoc. apply seg_finish_marker, Hm. }
  assert (H3 : forall m2, contains marker (strip m2) = true ->
                          raw_blocks (a ++ m :: m2 :: b) = raw_blocks (a ++ m :: b)).
  { intros m2 Hm2. unfold raw_blocks. rewrite !seg_loop_app. cbn [fold_left].
    rewrite (seg_step_marker_twice _ m m2 Hm Hm2). reflexivity. }
  assert (H4 : forall e, strip e = [] -> raw_blocks (a ++ e :: b) = raw_blocks (a ++ b)).
  { intros e He. unfold raw_blocks. rewrite !seg_loop_app. cbn [fold_left].
    rewrite (seg_step_blank _ e He). reflexivity. }
  unfold extract_articles_from_docx.
  split; [rewrite H1; reflexivity|]. split; [rewrite H2; reflexivity|].
  split; [intros m2 Hm2; rewrite (H3 m2 Hm2); reflexivity|].
  intros e He. rewrite (H4 e He). reflexivity.
Qed.

(** X17 at the sample document with one more marker paragraph in front. *)
Lemma redundant_paragraphs_ignored_witness :
  extract_articles_from_docx (U := ascii_tables) (Some (marker :: sample_doc))
  = extract_articles_from_docx (U := ascii_tables) (Some sample_doc).
Proof.
  apply (proj1 (redundant_paragraphs_ignored (U := ascii_tables) [] sample_doc marker
                  ltac:(vm_compute; reflexivity))).
Defined.

(** ** Further properties of simulate_streamlit_app_logic *)



(** X19.  Nothing in the outputs is invented.  Every returned triplet
    comes from two paragraphs of the document: its transition is one of
    them, trimmed; the other, trimmed, reads some text, then a text the
    transition stands for, then some text, and the two context fields
    are the first and the last of these, trimmed.  Every line of the
    transitions-only list is a trimmed paragraph of the document, not
    empty and without the marker. *)
Theorem examples_come_from_document {U : Unicode} {S : SetOrder} (cap : Z)
        (doc : option (list str)) (selected_outputs : list str) :
  exists out,
    run_pipeline cap doc selected_outputs = Ok out
    /\ (forall tr, In tr out.(returned_triplets) ->
          exists paragraphs pn pt before matched after,
            doc = Some paragraphs /\ In pn paragraphs /\ In pt paragraphs
            /\ strip pn = before ++ matched ++ after
            /\ tr.(transition) = strip pt
            /\ phrase_accepts (strip pt) matched
            /\ tr.(paragraph_a) = strip before
            /\ tr.(paragraph_b) = strip after)
    /\ (forall T, In T (unique_transitions out.(returned_triplets)) ->
          exists paragraphs pt,
            doc = Some paragraphs /\ In pt paragraphs
            /\ T = strip pt /\ T <> [] /\ contains marker T = false).
Proof.
  set (raw := flat_map article_triplets (articles_of doc)).
  exists (generate_output_files raw selected_outputs cap).
  assert (Hraw : raw_triplets_of doc = Ok raw) by apply raw_triplets_of_spec.
  split; [unfold run_pipeline; rewrite Hraw; reflexivity|].
  change (generate_output_files raw selected_outputs cap).(returned_triplets)
    with (cap_loop cap raw).(final_triplets).
  assert (Hsub : subseq (cap_loop cap raw).(final_triplets) raw)
    by apply (cap_loop_inv cap raw).
  assert (Hprov : forall tr, In tr raw ->
            exists paragraphs art,
              doc = Some paragraphs /\ In art (articles_of (Some paragraphs))
              /\ In tr.(transition) art.(transitions_list)
              /\ In tr (transition_triplets art.(narrative_paragraph) tr.(transition))).
  { intros tr Hin. unfold raw in Hin. destruct doc as [paragraphs|]; [|destruct Hin].
    apply in_flat_map in Hin as (art & Hart & Hin).
    apply in_flat_map in Hin as (t & Ht & Hin).
    pose proof (transition_triplets_In _ _ _ Hin) as (Etr & _).
    exists paragraphs, art. rewrite Etr. auto. }
  split.
  - intros tr Hin. apply (subseq_In _ _ _ Hsub) in Hin.
    destruct (Hprov tr Hin) as (paragraphs & art & -> & Hart & Ht & Htr).
    destruct (articles_of_In paragraphs art Hart) as (_ & _ & HF).
    rewrite Forall_forall in HF.
    destruct (HF _ (or_introl eq_refl)) as (_ & _ & _ & pn & Hpn & En).
    destruct (HF _ (or_intror Ht)) as (_ & _ & _ & pt & Hpt & Et).
    apply transition_triplets_split in Htr
      as (_ & before & matched & after & Hsplit & Hacc & Ha & Hb).
    exists paragraphs, pn, pt, before, matched, after.
    rewrite <- En, <- Et. auto 10.
  - intros T HT. apply unique_transitions_In, in_map_iff in HT as (tr & <- & Hin).
    apply (subseq_In _ _ _ Hsub) in Hin.
    destruct (Hprov tr Hin) as (paragraphs & art & -> & Hart & Ht & _).
    destruct (articles_of_In paragraphs art Hart) as (_ & _ & HF).
    rewrite Forall_forall in HF.
    destruct (HF _ (or_intror Ht)) as (Hne & _ & Hm & pt & Hpt & Et).
    exists paragraphs, pt. auto.
Qed.

(** X19 at the sample document: a line of its transitions-only list. *)
Lemma examples_come_from_document_witness :
  exists paragraphs pt,
    Some sample_doc = Some paragraphs /\ In pt paragraphs
    /\ ustr "Donc" = strip (U := ascii_tables) pt
    /\ ustr "Donc" <> [] /\ contains marker (ustr "Donc") = false.
Proof.
  destruct (examples_come_from_document (U := ascii_tables) (S := forward_order) 3
              (Some sample_doc) all_outputs) as (out & Hout & _ & H).
  vm_compute in Hout. injection Hout as <-.
  apply (H (ustr "Donc")). vm_compute. left. reflexivity.
Defined.
